(** * block2: symbolic Wick algebra, determinant trie and delayed dispatch

    A shallow embedding of the parts of block2 that the specification
    speaks about:
    - [wick.hpp]: [WickIndex], [WickPermutation], [WickTensor],
      [WickString], [WickExpr];
    - [determinant.hpp]: the prefix trie [TRIE];
    - [delayed_tensor_functions.hpp]: the dispatch on [OpExpr] nodes.

    Conventions.  C++ integers are [Z] with the conversions that can wrap
    written out; [double] is Rocq's binary64 [float]; [std::string] is
    [string], compared byte-wise as [std::string::operator<] does;
    [std::vector] is [list]; [std::set<WickIndex>] is a strictly sorted
    list (its iteration order matters in the source).  Reading a vector
    outside its bounds is undefined in C++: the pure functions below read a
    default value there, the monadic ones fail. *)

From Stdlib Require Import ZArith List String Ascii Bool Arith Lia.
From Stdlib Require Import Permutation Floats Sorted.
Import ListNotations.

Local Open Scope Z_scope.
Local Set Warnings "-register-all".

(** ** Small helpers shared by the models *)

(** [v[i]] for a C++ [int] index; out of range reads the default. *)
Definition zth {A} (l : list A) (i : Z) (d : A) : A :=
  if i <? 0 then d else nth (Z.to_nat i) l d.

(** Conversion to [int16_t] (two's complement wrap). *)
Definition wrap16 (z : Z) : Z := (z + 32768) mod 65536 - 32768.

(** Conversion to [int] (two's complement wrap). *)
Definition wrap32 (z : Z) : Z := (z + 2147483648) mod 4294967296 - 2147483648.

(** Lexicographic [std::vector::operator<] from the element order. *)
Fixpoint lex_ltb {A} (ltb : A -> A -> bool) (a b : list A) : bool :=
  match a, b with
  | _, [] => false
  | [], _ :: _ => true
  | x :: a', y :: b' =>
      if ltb x y then true else if ltb y x then false else lex_ltb ltb a' b'
  end.

(** [std::vector::operator==] from the element equality. *)
Fixpoint list_eqb {A} (eqb : A -> A -> bool) (a b : list A) : bool :=
  match a, b with
  | [], [] => true
  | x :: a', y :: b' => eqb x y && list_eqb eqb a' b'
  | _, _ => false
  end.

(** ** [enum struct WickIndexTypes : uint8_t] *)
Module WickIndexTypes.
Definition t := Z.
Definition None : t := 0.
Definition Inactive : t := 1.
Definition Active : t := 2.
Definition External : t := 4.
Definition Alpha : t := 8.
Definition Beta : t := 16.
Definition or (a b : t) : t := Z.lor a b.
Definition and (a b : t) : t := Z.land a b.
(** [WickIndexTypes(~(uint8_t)a)]: complement within 8 bits. *)
Definition not (a : t) : t := Z.lxor a 255.
End WickIndexTypes.

(** ** [enum struct WickTensorTypes : uint8_t] *)
Module WickTensorTypes.
Inductive t := CreationOperator | DestroyOperator | SpinFreeOperator
             | KroneckerDelta | Tensor.
Definition to_Z (x : t) : Z :=
  match x with
  | CreationOperator => 0 | DestroyOperator => 1 | SpinFreeOperator => 2
  | KroneckerDelta => 3 | Tensor => 4
  end.
Definition eqb (a b : t) : bool := to_Z a =? to_Z b.
Definition ltb (a b : t) : bool := to_Z a <? to_Z b.
End WickTensorTypes.

(** ** [struct WickIndex] *)
Module WickIndex.
Record t := mk { name : string; types : WickIndexTypes.t }.

(** [WickIndex(const string &name)]: a typeless index. *)
Definition of_name (s : string) : t := mk s WickIndexTypes.None.

Definition eqb (a b : t) : bool :=
  String.eqb (name a) (name b) && (types a =? types b).
Definition neqb (a b : t) : bool :=
  negb (String.eqb (name a) (name b)) || negb (types a =? types b).
Definition ltb (a b : t) : bool :=
  if types a =? types b then String.ltb (name a) (name b)
  else types a <? types b.
Definition has_types (a : t) : bool := negb (types a =? WickIndexTypes.None).
Definition with_no_types (a : t) : t := of_name (name a).
End WickIndex.

(** ** [std::set<WickIndex>] as a strictly sorted list *)
Module IndexSet.
Definition t := list WickIndex.t.
Definition count (s : t) (x : WickIndex.t) : bool :=
  existsb (WickIndex.eqb x) s.
Fixpoint insert (x : WickIndex.t) (s : t) : t :=
  match s with
  | [] => [x]
  | y :: s' =>
      if WickIndex.ltb x y then x :: s
      else if WickIndex.ltb y x then y :: insert x s'
      else s
  end.
Fixpoint erase (x : WickIndex.t) (s : t) : t :=
  match s with
  | [] => []
  | y :: s' => if WickIndex.eqb x y then s' else y :: erase x s'
  end.
(** [set(first, last)] and [insert(first, last)]. *)
Definition insert_all (l : list WickIndex.t) (s : t) : t :=
  fold_left (fun acc x => insert x acc) l s.
Definition of_list (l : list WickIndex.t) : t := insert_all l [].
Definition inter (a b : t) : t := filter (count b) a.
Definition eqb (a b : t) : bool := list_eqb WickIndex.eqb a b.
Definition ltb (a b : t) : bool := lex_ltb WickIndex.ltb a b.
End IndexSet.

(** ** [struct WickPermutation] *)
Module WickPermutation.
Record t := mk { data : list Z; negative : bool }.

Definition eqb (a b : t) : bool :=
  Bool.eqb (negative a) (negative b) && list_eqb Z.eqb (data a) (data b).

(** [operator*]: [r[i] = data[other.data[i]]], sign by exclusive or. *)
Definition mul (a other : t) : t :=
  mk (map (fun i => zth (data a) (zth (data other) (Z.of_nat i) 0) 0)
          (seq 0 (List.length (data a))))
     (xorb (negative a) (negative other)).

(** [ident[i] = i] stored in an [int16_t]. *)
Definition ident (n : nat) : list Z :=
  map (fun i => wrap16 (Z.of_nat i)) (seq 0 n).

(** One pass of [for (auto &d : def)] for the element [g = vwp[k]]. *)
Definition extend (g : t) (def vwp : list t) : list t :=
  fold_left (fun acc d =>
               let h := mul g d in
               if existsb (eqb h) acc then acc else acc ++ [h])
            def vwp.

(** [for (int k = 0; k < vwp.size(); k++)] with [vwp] growing.  The
    recursion is on a step budget; [complete_set] supplies a budget that
    is never used up (lemma [complete_loop_closed] below). *)
Fixpoint complete_loop (fuel : nat) (def : list t) (k : nat)
         (vwp : list t) : list t :=
  match fuel with
  | O => vwp
  | S fuel' =>
      match nth_error vwp k with
      | Datatypes.None => vwp
      | Some g => complete_loop fuel' def (S k) (extend g def vwp)
      end
  end.

Definition complete_budget (n : nat) : nat := (2 * (S n) ^ n + 1)%nat.

Definition complete_set (n : nat) (def : list t) : list t :=
  complete_loop (complete_budget n) def 0 [mk (ident n) false].

Definition non_symmetric : list t := [].
Definition two_symmetric : list t := [mk [1; 0] false].
Definition qc_chem : list t :=
  [mk [2; 3; 0; 1] false; mk [1; 0; 2; 3] false; mk [0; 1; 3; 2] false].
Definition qc_phys : list t :=
  [mk [0; 3; 2; 1] false; mk [2; 1; 0; 3] false; mk [1; 0; 3; 2] false].
Definition four_anti : list t :=
  [mk [1; 0; 2; 3] true; mk [0; 1; 3; 2] true].

(** [pair_symmetric(n, hermitian)]; [x] is one buffer reused across
    the loop, so the hermitian swap is written over the last one.  The
    model is that of [1 <= n]: for [n = 0] the source constructs a
    vector of [n - 1] entries, which throws. *)
Definition pair_row (n i : nat) : list Z :=
  map (fun j => Z.of_nat (if (j =? 0)%nat then i
                          else if (j =? i)%nat then 0%nat else j))
      (seq 0 n)
  ++ map (fun j => Z.of_nat (if (j =? 0)%nat then (i + n)%nat
                             else if (j =? i)%nat then n else (j + n)%nat))
      (seq 0 n).
Definition pair_symmetric (n : nat) (hermitian : bool) : list t :=
  map (fun i => mk (pair_row n i) false) (seq 1 (n - 1)%nat)
  ++ (if hermitian
      then [mk (map (fun j => Z.of_nat (j + n)%nat) (seq 0 n)
                ++ map Z.of_nat (seq 0 n)) false]
      else []).

(** [operator<]: the positive permutations first, then by entries. *)
Definition ltb (a other : t) : bool :=
  if Bool.eqb (negative a) (negative other)
  then lex_ltb Z.ltb (data a) (data other)
  else negb (negative a) && negative other.
End WickPermutation.

(** ** [struct WickTensor] *)
Module WickTensor.
Record t := mk {
  name : string;
  indices : list WickIndex.t;
  perms : list WickPermutation.t;
  type : WickTensorTypes.t
}.

Definition default_index : WickIndex.t := WickIndex.of_name EmptyString.

(** [indices[i]] for an [int16_t] or [int] position. *)
Definition idx_at (l : list WickIndex.t) (i : Z) : WickIndex.t :=
  zth l i default_index.

(** The test inside [reset_permutations]: slot [i] would receive an
    index whose types are disjoint from the types of the index it has,
    neither being typeless. *)
Definition slot_conflict (indices : list WickIndex.t)
           (perm : WickPermutation.t) (i : nat) : bool :=
  let moved := idx_at indices (zth (WickPermutation.data perm) (Z.of_nat i) 0) in
  let here := nth i indices default_index in
  (WickIndexTypes.and (WickIndex.types moved) (WickIndex.types here)
     =? WickIndexTypes.None)
  && negb (WickIndex.types moved =? WickIndexTypes.None)
  && negb (WickIndex.types here =? WickIndexTypes.None).

Definition perm_valid (indices : list WickIndex.t)
           (perm : WickPermutation.t) : bool :=
  forallb (fun i => negb (slot_conflict indices perm i))
          (seq 0 (List.length indices)).

Definition reset_permutations (indices : list WickIndex.t)
           (perms : list WickPermutation.t) : list WickPermutation.t :=
  filter (perm_valid indices) perms.

(** The four-argument constructor: the permutation list is completed to
    its closure and filtered by the index types. *)
Definition make (name : string) (indices : list WickIndex.t)
           (perms : list WickPermutation.t) (type : WickTensorTypes.t) : t :=
  mk name indices
     (reset_permutations indices
        (WickPermutation.complete_set (List.length indices) perms))
     type.

Definition eqb (a b : t) : bool :=
  WickTensorTypes.eqb (type a) (type b) && String.eqb (name a) (name b)
  && list_eqb WickIndex.eqb (indices a) (indices b).

(** [fermi_type]:  Ca [00] < Di [01] < Ci [10] < Da [11]. *)
Definition fermi_type (a : t) (occ_type : WickIndexTypes.t) : Z :=
  let x := if WickTensorTypes.eqb (type a) WickTensorTypes.DestroyOperator
           then 1 else 0 in
  let y := match indices a with
           | [] => 0
           | i0 :: _ =>
               if WickIndexTypes.and (WickIndex.types i0) occ_type
                  =? WickIndexTypes.None then 0 else 1
           end in
  Z.lor x (Z.shiftl (Z.lxor x y) 1).

Definition occ_mask : WickIndexTypes.t :=
  WickIndexTypes.or (WickIndexTypes.or WickIndexTypes.Inactive
                                       WickIndexTypes.Active)
                    WickIndexTypes.External.

Definition head_type (a : t) : WickIndexTypes.t :=
  match indices a with
  | [] => WickIndexTypes.None
  | i0 :: _ => WickIndexTypes.and (WickIndex.types i0) occ_mask
  end.

(** [operator<]. *)
Definition ltb (a other : t) : bool :=
  let x_type := head_type a in
  let y_type := head_type other in
  let occ0 := Z.min x_type y_type in
  let max_type := Z.max x_type y_type in
  let occ_type :=
    if (occ0 =? WickIndexTypes.None) || (occ0 =? WickIndexTypes.External)
       || ((occ0 =? WickIndexTypes.Active)
           && (max_type =? WickIndexTypes.Active))
    then WickIndexTypes.Inactive else occ0 in
  if negb (fermi_type a occ_type =? fermi_type other occ_type)
  then fermi_type a occ_type <? fermi_type other occ_type
  else if negb (String.eqb (name a) (name other))
       then String.ltb (name a) (name other)
       else if WickTensorTypes.eqb (type a) (type other)
            then lex_ltb WickIndex.ltb (indices a) (indices other)
            else WickTensorTypes.ltb (type a) (type other).

(** [operator*(const WickPermutation &)]: the result goes through the
    constructor, so its permutation list is recomputed. *)
Definition mul (a : t) (perm : WickPermutation.t) : t :=
  make (name a)
       (map (fun i => idx_at (indices a)
                            (zth (WickPermutation.data perm) (Z.of_nat i) 0))
            (seq 0 (List.length (indices a))))
       (perms a) (type a).

Definition kronecker_delta (i j : WickIndex.t) : t :=
  make "delta" [i; j] WickPermutation.two_symmetric
       WickTensorTypes.KroneckerDelta.

Definition cre (index : WickIndex.t) : t :=
  make "C" [index] WickPermutation.non_symmetric
       WickTensorTypes.CreationOperator.

Definition des (index : WickIndex.t) : t :=
  make "D" [index] WickPermutation.non_symmetric
       WickTensorTypes.DestroyOperator.

(** Decimal digits of [k], for the stream [name << "E" << k]. *)
Fixpoint digits (fuel k : nat) (acc : string) : string :=
  match fuel with
  | O => acc
  | S fuel' =>
      let acc' := String (ascii_of_nat (48 + Nat.modulo k 10)) acc in
      if (Nat.div k 10 =? 0)%nat then acc' else digits fuel' (Nat.div k 10) acc'
  end.

(** [spin_free]; the caller guarantees an even number of indices. *)
Definition spin_free (indices : list WickIndex.t) : t :=
  let k := Nat.div (List.length indices) 2 in
  make (String.append "E" (digits (S k) k EmptyString)) indices
       (WickPermutation.pair_symmetric k false)
       WickTensorTypes.SpinFreeOperator.

(** [sort(double &factor)]: the smallest index tuple over the tensor's
    permutation list, and the factor with the sign of the permutation
    that was taken last. *)
Definition sort_step (a : t) (st : t * bool) (perm : WickPermutation.t)
  : t * bool :=
  let z := mul a perm in
  if lex_ltb WickIndex.ltb (indices z) (indices (fst st))
  then (z, WickPermutation.negative perm) else st.

Definition sort (a : t) (factor : float) : t * float :=
  let '(x, neg) := fold_left (sort_step a) (perms a) (a, false) in
  (x, if neg then PrimFloat.opp factor else factor).
End WickTensor.

(** ** [struct WickString] *)
Module WickString.
Record t := mk {
  tensors : list WickTensor.t;
  ctr_indices : IndexSet.t;
  factor : float
}.

(** The default-constructed tensor, [WickTensor()]. *)
Definition default_tensor : WickTensor.t :=
  WickTensor.mk EmptyString [] [] WickTensorTypes.Tensor.

Definition set_indices (a : WickTensor.t) (l : list WickIndex.t)
  : WickTensor.t :=
  WickTensor.mk (WickTensor.name a) l (WickTensor.perms a) (WickTensor.type a).

Definition used_indices (a : t) : IndexSet.t :=
  fold_left (fun r ts => IndexSet.insert_all (WickTensor.indices ts) r)
            (tensors a) [].

(** [g.name[0] += i] on a copy of [idx]: [char] arithmetic wraps at
    256.  On an empty name the source writes to the terminator, which
    is undefined; the model leaves such a name as it is. *)
Definition bump (i : nat) (idx : WickIndex.t) : WickIndex.t :=
  match WickIndex.name idx with
  | EmptyString => idx
  | String c rest =>
      WickIndex.mk
        (String (ascii_of_N ((N_of_ascii c + N.of_nat i) mod 256)%N) rest)
        (WickIndex.types idx)
  end.

(** [for (int i = ...; i < 100; i++)]: the first [bump i idx] that is
    unused, trying [n] values from [i] on. *)
Fixpoint fresh_from (used : IndexSet.t) (idx : WickIndex.t) (i n : nat)
  : option WickIndex.t :=
  match n with
  | O => None
  | S n' =>
      let g := bump i idx in
      if IndexSet.count used g then fresh_from used idx (S i) n'
      else Some g
  end.

(** [std::map<WickIndex, WickIndex>] with distinct keys. *)
Definition index_map := list (WickIndex.t * WickIndex.t).
Fixpoint map_find (m : index_map) (k : WickIndex.t) : option WickIndex.t :=
  match m with
  | [] => None
  | (k', v) :: m' => if WickIndex.eqb k k' then Some v else map_find m' k
  end.

(** One turn of [for (auto &idx : used_idxs)] in [operator*].  (The
    names inserted into [used_idxs] during the iteration are in neither
    [xa_rep] nor [xb_rep], so visiting them does nothing: the model
    iterates over the set as it was.) *)
Definition rename_step (xa_rep xb_rep : IndexSet.t)
           (st : IndexSet.t * index_map) (idx : WickIndex.t)
  : IndexSet.t * index_map :=
  if IndexSet.count xa_rep idx || IndexSet.count xb_rep idx then
    match fresh_from (fst st) idx 1 99 with
    | Some g => (IndexSet.insert g (fst st), snd st ++ [(idx, g)])
    | None => st
    end
  else st.

Definition rename_a (mp : index_map) (xa_rep xc_rep : IndexSet.t)
           (wi : WickIndex.t) : WickIndex.t :=
  match map_find mp wi with
  | Some g =>
      if IndexSet.count xa_rep wi && negb (IndexSet.count xc_rep wi)
      then g else wi
  | None => wi
  end.

Definition rename_b (mp : index_map) (xb_rep : IndexSet.t)
           (wi : WickIndex.t) : WickIndex.t :=
  match map_find mp wi with
  | Some g => if IndexSet.count xb_rep wi then g else wi
  | None => wi
  end.

(** The renaming table [mp_idxs] and the three collision sets. *)
Definition collisions (a other : t)
  : index_map * IndexSet.t * IndexSet.t * IndexSet.t :=
  let a_idxs := used_indices a in
  let b_idxs := used_indices other in
  let used_idxs := IndexSet.insert_all b_idxs a_idxs in
  let xa_rep := IndexSet.inter (ctr_indices a) b_idxs in
  let xb_rep := IndexSet.inter (ctr_indices other) a_idxs in
  let xc_rep := IndexSet.inter (ctr_indices a) (ctr_indices other) in
  let mp_idxs :=
    snd (fold_left (rename_step xa_rep xb_rep) used_idxs (used_idxs, [])) in
  (mp_idxs, xa_rep, xb_rep, xc_rep).

(** [operator*(const WickString &)]. *)
Definition mul (a other : t) : t :=
  let '(mp_idxs, xa_rep, xb_rep, xc_rep) := collisions a other in
  let ra := rename_a mp_idxs xa_rep xc_rep in
  let rb := rename_b mp_idxs xb_rep in
  let xtensors :=
    map (fun w => set_indices w (map ra (WickTensor.indices w))) (tensors a)
    ++ map (fun w => set_indices w (map rb (WickTensor.indices w)))
           (tensors other) in
  let xctr_indices :=
    IndexSet.insert_all (map rb (ctr_indices other))
      (IndexSet.insert_all (map ra (ctr_indices a)) []) in
  mk xtensors xctr_indices (PrimFloat.mul (factor a) (factor other)).

Definition scale (a : t) (d : float) : t :=
  mk (tensors a) (ctr_indices a) (PrimFloat.mul (factor a) d).

(** [abs()]: the same term with factor 1. *)
Definition abs (a : t) : t := mk (tensors a) (ctr_indices a) 1%float.

Definition abs_equal_to (a other : t) : bool :=
  (List.length (tensors a) =? List.length (tensors other))%nat
  && (List.length (ctr_indices a) =? List.length (ctr_indices other))%nat
  && list_eqb WickTensor.eqb (tensors a) (tensors other)
  && IndexSet.eqb (ctr_indices a) (ctr_indices other).

(** [operator<]. *)
Definition ltb (a other : t) : bool :=
  if negb (List.length (tensors a) =? List.length (tensors other))%nat
  then (List.length (tensors a) <? List.length (tensors other))%nat
  else if negb (List.length (ctr_indices a)
                =? List.length (ctr_indices other))%nat
  then (List.length (ctr_indices a) <? List.length (ctr_indices other))%nat
  else if negb (list_eqb WickTensor.eqb (tensors a) (tensors other))
  then lex_ltb WickTensor.ltb (tensors a) (tensors other)
  else if negb (IndexSet.eqb (ctr_indices a) (ctr_indices other))
  then IndexSet.ltb (ctr_indices a) (ctr_indices other)
  else PrimFloat.ltb (factor a) (factor other).

(** *** [simplify_delta] *)

Record delta_state := mk_delta_state {
  xtensors : list WickTensor.t;
  xctr_indices : IndexSet.t;
  xfactor : float;
  xidxs : list nat
}.

Definition is_delta (w : WickTensor.t) : bool :=
  WickTensorTypes.eqb (WickTensor.type w) WickTensorTypes.KroneckerDelta.

Definition index0 (w : WickTensor.t) : WickIndex.t :=
  nth 0 (WickTensor.indices w) WickTensor.default_index.
Definition index1 (w : WickTensor.t) : WickIndex.t :=
  nth 1 (WickTensor.indices w) WickTensor.default_index.

(** The two index types exclude each other: not both typeless, and no
    common bit. *)
Definition types_conflict (ia ib : WickIndex.t) : bool :=
  (negb (WickIndex.types ia =? WickIndexTypes.None)
   || negb (WickIndex.types ib =? WickIndexTypes.None))
  && (WickIndexTypes.and (WickIndex.types ia) (WickIndex.types ib)
      =? WickIndexTypes.None).

Definition same_delta (ia ib : WickIndex.t) (w : WickTensor.t) : bool :=
  is_delta w
  && ((WickIndex.eqb (index0 w) ia && WickIndex.eqb (index1 w) ib)
      || (WickIndex.eqb (index0 w) ib && WickIndex.eqb (index1 w) ia)).

Definition replace_index (ia ib ic wi : WickIndex.t) : WickIndex.t :=
  if WickIndex.eqb wi ia || WickIndex.eqb wi ib then ic else wi.

(** [for (int j ...) if (j != i) ...]: every tensor but the [i]-th. *)
Fixpoint replace_except (i : nat) (ia ib ic : WickIndex.t)
         (l : list WickTensor.t) : list WickTensor.t :=
  match l with
  | [] => []
  | w :: l' =>
      match i with
      | O => w :: map (fun v => set_indices v
                         (map (replace_index ia ib ic) (WickTensor.indices v)))
                      l'
      | S i' =>
          set_indices w (map (replace_index ia ib ic) (WickTensor.indices w))
          :: replace_except i' ia ib ic l'
      end
  end.

(** The body of [for (int i = 0; i < xtensors.size(); i++)]. *)
Definition delta_step (st : delta_state) (i : nat) : delta_state :=
  let w := nth i (xtensors st) default_tensor in
  if is_delta w then
    let ia := index0 w in
    let ib := index1 w in
    if WickIndex.neqb ia ib then
      if types_conflict ia ib then
        mk_delta_state (xtensors st) (xctr_indices st) 0%float (xidxs st)
      else if negb (IndexSet.count (xctr_indices st) ia)
              && negb (IndexSet.count (xctr_indices st) ib) then
        if existsb (fun j => same_delta ia ib
                               (nth j (xtensors st) default_tensor))
                   (xidxs st)
        then st
        else mk_delta_state (xtensors st) (xctr_indices st) (xfactor st)
                            (xidxs st ++ [i])
      else
        let ty := WickIndexTypes.and (WickIndex.types ia)
                                     (WickIndex.types ib) in
        let '(ic, ctr') :=
          if IndexSet.count (xctr_indices st) ia
          then (WickIndex.mk (WickIndex.name ib) ty,
                IndexSet.erase ia (xctr_indices st))
          else (WickIndex.mk (WickIndex.name ia) ty,
                IndexSet.erase ib (xctr_indices st)) in
        mk_delta_state (replace_except i ia ib ic (xtensors st)) ctr'
                       (xfactor st) (xidxs st)
    else st
  else mk_delta_state (xtensors st) (xctr_indices st) (xfactor st)
                      (xidxs st ++ [i]).

Definition simplify_delta (a : t) : t :=
  let st := fold_left delta_step (seq 0 (List.length (tensors a)))
              (mk_delta_state (tensors a) (ctr_indices a) (factor a) []) in
  mk (map (fun j => nth j (xtensors st) default_tensor) (xidxs st))
     (xctr_indices st) (xfactor st).

(** [has_external_ops]: some operator tensor has an external index. *)
Definition is_operator (w : WickTensor.t) : bool :=
  WickTensorTypes.eqb (WickTensor.type w) WickTensorTypes.SpinFreeOperator
  || WickTensorTypes.eqb (WickTensor.type w) WickTensorTypes.CreationOperator
  || WickTensorTypes.eqb (WickTensor.type w) WickTensorTypes.DestroyOperator.

Definition has_external_ops (a : t) : bool :=
  existsb (fun wt =>
             is_operator wt
             && existsb (fun wi =>
                           negb (WickIndexTypes.and (WickIndex.types wi)
                                                    WickIndexTypes.External
                                 =? 0))
                        (WickTensor.indices wt))
          (tensors a).
End WickString.

(** ** Outcomes of code that can stop at an [assert] *)
Inductive assertion :=
| NotMixed        (* assert(!cd_type || !sf_type) *)
| CreationFirst   (* assert(all_of(first half of tensor_idxs, creation)) *)
| DetSize         (* assert((int)det.size() == n_sites) *)
| DetIncreasing   (* assert(dets.size() == 0 || cur > dets.back()) *)
| LookUp          (* assert(enable_look_up && idx < dets.size()) *)
| MissingOperand  (* assert(lop.count(...) != 0 && rop.count(...) != 0) *)
| BadNode.        (* assert(false), and the shape assertions on a node *)

Inductive outcome (A : Type) :=
| Ok (a : A)
| AssertionFailed (which : assertion)
| Undefined       (* an access outside a vector or array *)
| OutOfFuel.
Arguments Ok {A} a.
Arguments AssertionFailed {A} which.
Arguments Undefined {A}.
Arguments OutOfFuel {A}.

Definition bind {A B} (m : outcome A) (f : A -> outcome B) : outcome B :=
  match m with
  | Ok a => f a
  | AssertionFailed w => AssertionFailed w
  | Undefined => Undefined
  | OutOfFuel => OutOfFuel
  end.

Notation "x <- m ;; k" := (bind m (fun x => k))
  (at level 61, m at next level, right associativity).

(** [v[i] = x] for a C++ [int] index; the list keeps its length. *)
Fixpoint upd {A} (l : list A) (i : nat) (x : A) : list A :=
  match l, i with
  | [], _ => []
  | _ :: l', O => x :: l'
  | y :: l', S i' => y :: upd l' i' x
  end.
Definition zupd {A} (l : list A) (i : Z) (x : A) : list A :=
  if i <? 0 then l else upd l (Z.to_nat i) x.

(** [v.resize(n)] with default-constructed new elements. *)
Definition resize {A} (l : list A) (n : nat) (d : A) : list A :=
  firstn n l ++ repeat d (n - List.length l)%nat.

(** [std::stable_sort] and [std::sort] as insertion sort: each element is
    put before the first one it is less than.  The result is that of
    the library for a strict weak order; for a comparison that is not
    transitive the library leaves the order of the result open. *)
Fixpoint insert_by {A} (ltb : A -> A -> bool) (x : A) (l : list A) : list A :=
  match l with
  | [] => [x]
  | y :: l' => if ltb x y then x :: l else y :: insert_by ltb x l'
  end.
Definition sort_by {A} (ltb : A -> A -> bool) (l : list A) : list A :=
  fold_left (fun acc x => insert_by ltb x acc) l [].

Definition b2z (b : bool) : Z := if b then 1 else 0.

(** Conversion of an [int] to [size_t] (64 bits). *)
Definition to_size_t (z : Z) : Z := z mod 18446744073709551616.

(** ** [struct WickExpr]: a list of terms *)
Module WickExpr.
Definition t := list WickString.t.

(** *** [split_index_types] *)

Definition check_types : list WickIndexTypes.t :=
  [WickIndexTypes.Inactive; WickIndexTypes.Active; WickIndexTypes.External].

Definition set_class (ty : WickIndexTypes.t) (wi : WickIndex.t)
  : WickIndex.t :=
  WickIndex.mk (WickIndex.name wi)
    (WickIndexTypes.or
       (WickIndexTypes.and (WickIndex.types wi)
                           (WickIndexTypes.not WickTensor.occ_mask))
       ty).

(** [xctr_idxs[row][i].types = ...] *)
Definition retype (row i : nat) (ty : WickIndexTypes.t)
           (xs : list (list WickIndex.t)) : list (list WickIndex.t) :=
  let r := nth row xs [] in
  upd xs row (upd r i (set_class ty (nth i r WickTensor.default_index))).

(** The body of [for (int j ...)] over [check_types], for position [i]
    of [vidxs]; the state is [xctr_idxs] and the counter [k]. *)
Definition split_step (vidxs : list WickIndex.t) (i nk : nat)
           (st : list (list WickIndex.t) * nat) (ty : WickIndexTypes.t)
  : list (list WickIndex.t) * nat :=
  let '(xs, k) := st in
  let vt := WickIndex.types (nth i vidxs WickTensor.default_index) in
  if negb (WickIndexTypes.and vt ty =? WickIndexTypes.None)
     && negb (WickIndexTypes.and vt WickTensor.occ_mask =? ty)
  then
    let xs1 := if (k =? 0)%nat then xs else xs ++ firstn nk xs in
    (fold_left (fun acc l => retype (k * nk + l) i ty acc) (seq 0 nk) xs1,
     S k)
  else st.

Definition split_rows (vidxs : list WickIndex.t) : list (list WickIndex.t) :=
  fold_left (fun xs i =>
               fst (fold_left (split_step vidxs i (List.length xs))
                              check_types (xs, O)))
            (seq 0 (List.length vidxs)) [vidxs].

(** [wi = wii] for the entries of one row that carry the name of [wi]
    and share a type bit with it, tried in order. *)
Definition adopt (row : list WickIndex.t) (wi : WickIndex.t) : WickIndex.t :=
  fold_left (fun w wii =>
               if WickIndex.eqb (WickIndex.with_no_types w)
                                (WickIndex.with_no_types wii)
                  && negb (WickIndexTypes.and (WickIndex.types w)
                                              (WickIndex.types wii)
                           =? WickIndexTypes.None)
               then wii else w)
            row wi.

Definition split_term (x : WickString.t) (row : list WickIndex.t)
  : list WickString.t :=
  let ts := map (fun w => WickString.set_indices w
                            (map (adopt row) (WickTensor.indices w)))
                (WickString.tensors x) in
  let fac := if existsb (fun w => (List.length (WickTensor.perms w) =? 0)%nat)
                        (WickString.tensors x)
             then 0%float else WickString.factor x in
  if PrimFloat.eqb fac 0%float then []
  else [WickString.mk ts (IndexSet.of_list row) fac].

Definition split_index_types_term (x : WickString.t) : t :=
  flat_map (split_term x) (split_rows (WickString.ctr_indices x)).

Definition split_index_types (e : t) : t :=
  flat_map split_index_types_term e.

(** *** [normal_order_impl_new] *)

Definition is_cd (w : WickTensor.t) : bool :=
  WickTensorTypes.eqb (WickTensor.type w) WickTensorTypes.CreationOperator
  || WickTensorTypes.eqb (WickTensor.type w) WickTensorTypes.DestroyOperator.
Definition is_sf (w : WickTensor.t) : bool :=
  WickTensorTypes.eqb (WickTensor.type w) WickTensorTypes.SpinFreeOperator.
Definition is_cre (w : WickTensor.t) : bool :=
  WickTensorTypes.eqb (WickTensor.type w) WickTensorTypes.CreationOperator.

(** [((n - 1) & 1) ^ (((n - 1) & 2) >> 1)]: the sign of reversing the
    destroy operators of a spin-free block. *)
Definition reverse_sign (n : Z) : Z :=
  Z.lxor (Z.land (n - 1) 1) (Z.shiftr (Z.land (n - 1) 2) 1).

(** The first loop over [x.tensors]. *)
Record operators := mk_operators {
  cd_tensors : list WickTensor.t;
  other_tensors : list WickTensor.t;
  cd_idx_map : list Z;
  init_sign : Z
}.

Definition collect_step (st : operators) (wt : WickTensor.t) : operators :=
  if is_cd wt then
    mk_operators (cd_tensors st ++ [wt]) (other_tensors st)
                 (cd_idx_map st) (init_sign st)
  else if is_sf wt then
    let idxs := WickTensor.indices wt in
    let sf_n := Nat.div (List.length idxs) 2 in
    let base := List.length (cd_idx_map st) in
    mk_operators
      (cd_tensors st
       ++ map (fun i => WickTensor.cre
                          (nth i idxs WickTensor.default_index))
              (seq 0 sf_n)
       ++ map (fun i => WickTensor.des
                          (nth (i + sf_n) idxs WickTensor.default_index))
              (seq 0 sf_n))
      (other_tensors st)
      (cd_idx_map st
       ++ map (fun i => Z.of_nat (base + i + sf_n)) (seq 0 sf_n)
       ++ map (fun i => Z.of_nat (base + sf_n + i - sf_n)) (seq 0 sf_n))
      (Z.lxor (init_sign st) (reverse_sign (Z.of_nat sf_n)))
  else
    mk_operators (cd_tensors st) (other_tensors st ++ [wt])
                 (cd_idx_map st) (init_sign st).

Definition collect (x : WickString.t) : operators :=
  fold_left collect_step (WickString.tensors x) (mk_operators [] [] [] 0).

Definition inactive (w : WickTensor.t) : bool :=
  negb (WickIndexTypes.and (WickIndex.types (WickString.index0 w))
                           WickIndexTypes.Inactive
        =? WickIndexTypes.None).

Definition cd_at (cd : list WickTensor.t) (i : Z) : WickTensor.t :=
  zth cd i WickString.default_tensor.

(** Is [(i, j)], [i < j], a contraction candidate? *)
Definition candidate (sf_type : bool) (cd : list WickTensor.t) (i j : nat)
  : bool :=
  let wi := nth i cd WickString.default_tensor in
  let wj := nth j cd WickString.default_tensor in
  if sf_type then
    if inactive wi || inactive wj then
      WickTensorTypes.ltb (WickTensor.type wi) (WickTensor.type wj)
      && inactive wi && inactive wj
    else WickTensorTypes.ltb (WickTensor.type wj) (WickTensor.type wi)
  else
    negb (WickTensorTypes.eqb (WickTensor.type wi) (WickTensor.type wj))
    && WickTensor.ltb wj wi.

(** The candidates whose first member is [i]. *)
Definition candidates_from (sf_type : bool) (cd : list WickTensor.t)
           (i : nat) : list (Z * Z) :=
  map (fun j => (Z.of_nat i, Z.of_nat j))
      (filter (candidate sf_type cd i)
              (seq (S i) (List.length cd - S i))).

(** [ctr_idxs] and [ctr_cd_idxs]. *)
Definition candidate_table (sf_type : bool) (cd : list WickTensor.t)
  : list (Z * Z) * list Z :=
  let '(ctr, starts) :=
    fold_left (fun (st : list (Z * Z) * list Z) i =>
                 (fst st ++ candidates_from sf_type cd i,
                  snd st ++ [Z.of_nat (List.length (fst st))]))
              (seq 0 (List.length cd)) ([], []) in
  (ctr, starts ++ [Z.of_nat (List.length ctr)]).

(** [n_inactive_idxs] before the suffix sums: slot [i] is set when
    some candidate [(i, j)] joins two inactive indices. *)
Definition inactive_flags (sf_type : bool) (cd : list WickTensor.t)
  : list Z :=
  if sf_type then
    map (fun i =>
           b2z (existsb
                  (fun j =>
                     let wi := nth i cd WickString.default_tensor in
                     let wj := nth j cd WickString.default_tensor in
                     (inactive wi || inactive wj)
                     && (WickTensorTypes.ltb (WickTensor.type wi)
                                             (WickTensor.type wj)
                         && inactive wi && inactive wj))
                  (seq (S i) (List.length cd - S i))))
        (seq 0 (List.length cd))
    ++ [0]
  else [].

(** [for (i = size - 2; i >= 0; i--) v[i] += v[i + 1]]. *)
Fixpoint suffix_sums (l : list Z) : list Z :=
  match l with
  | [] => []
  | x :: l' =>
      match suffix_sums l' with
      | [] => [x]
      | y :: r => (x + y) :: y :: r
      end
  end.

(** The number of pairs [i < j] of [v] with [v[j] < v[i]], modulo 2,
    added to [s] by exclusive or. *)
Definition inversion_parity (v : list Z) (s : Z) : Z :=
  fold_left (fun s i =>
               fold_left (fun s j =>
                            Z.lxor s (b2z (nth j v 0 <? nth i v 0)))
                         (seq (S i) (List.length v - S i)) s)
            (seq 0 (List.length v)) s.

(** What is fixed once the loop starts. *)
Record setting := mk_setting {
  x_ctr_indices : IndexSet.t;
  x_factor : float;
  max_unctr : Z;
  no_ctr : bool;
  sf_type : bool;
  cd : list WickTensor.t;
  idx_map : list Z;
  ot_count : nat;
  ctr_idxs : list (Z * Z);
  ctr_cd_idxs : list Z;
  n_inactive_idxs : list Z;
  tensor_idxs : list Z
}.

(** What the loop changes from one turn to the next. *)
Record walk := mk_walk {
  que : list (Z * Z);            (* top of the stack first *)
  cur_idxs : list (Z * Z);
  acc_sign : list Z;
  ot_tensors : list WickTensor.t;
  rev_idxs : list Z;
  final_sign : Z;
  terms : list WickString.t
}.

(** The local variables of one turn. *)
Record turn := mk_turn {
  skip : bool;
  cur_idxs_mask : list Z;
  inactive_mask : list Z;
  cd_idx_map_rev : list Z;
  sign : Z;                      (* acc_sign[l + 2] *)
  n_inact : Z;
  inact_fac : float
}.

(** The crossing loop over the pairs chosen before [(c, d)]. *)
Definition cross_step (cur : list (Z * Z)) (c d : Z) (tn : turn) (i : nat)
  : turn :=
  if skip tn then tn
  else
    let '(a, b) := nth i cur (0, 0) in
    mk_turn ((b =? d) || (b =? c) || (a =? d))
            (zupd (zupd (cur_idxs_mask tn) a 1) b 1)
            (inactive_mask tn) (cd_idx_map_rev tn)
            (Z.lxor (sign tn)
                    (b2z (((a <? c) && (b >? c) && (b <? d))
                          || ((a >? c) && (a <? d) && (b >? d)))))
            (n_inact tn) (inact_fac tn).

Definition inactive_count (s : setting) (a : Z) : Z :=
  zth (n_inactive_idxs s) a 0 - zth (n_inactive_idxs s) (a + 1) 0.

(** The first four statements done for a pair [(a, b)] in the spin-free
    branch: the inactive marks of [a], [b] and of their partners. *)
Definition mark_inactive (s : setting) (a b : Z) (tn : turn) : turn :=
  let m1 := zupd (inactive_mask tn) a
                 (Z.lor (zth (inactive_mask tn) a 0) (inactive_count s a)) in
  let m2 := zupd m1 b (Z.lor (zth m1 b 0) (inactive_count s b)) in
  let ra := zth (cd_idx_map_rev tn) a 0 in
  let m3 := zupd m2 ra (Z.lor (zth m2 ra 0) (zth m2 a 0)) in
  let rb := zth (cd_idx_map_rev tn) b 0 in
  let m4 := zupd m3 rb (Z.lor (zth m3 rb 0) (zth m3 b 0)) in
  mk_turn (skip tn) (cur_idxs_mask tn) m4 (cd_idx_map_rev tn) (sign tn)
          (n_inact tn + inactive_count s a) (inact_fac tn).

(** [inact_fac *= 1 << ((rev[a] == b) & inactive_mask[a])] and the
    rewiring of the partner map. *)
Definition rewire (a b : Z) (tn : turn) : turn :=
  let e := Z.land (b2z (zth (cd_idx_map_rev tn) a 0 =? b))
                  (zth (inactive_mask tn) a 0) in
  let r0 := cd_idx_map_rev tn in
  let r1 := zupd r0 (zth r0 a 0) (zth r0 b 0) in
  let r2 := zupd r1 (zth r1 b 0) (zth r1 a 0) in
  mk_turn (skip tn) (cur_idxs_mask tn) (inactive_mask tn) r2 (sign tn)
          (n_inact tn)
          (PrimFloat.mul (inact_fac tn)
                         (if Z.shiftl 1 e =? 1 then 1%float else 2%float)).

(** The sign removed for the pair [(c, d)] in the plain branch. *)
Definition unorder_sign (rev : list Z) (mask : list Z) (c d : Z) (s0 : Z)
  : Z :=
  fold_left (fun s i =>
               if zth mask (Z.of_nat i) 0 =? 0 then
                 let i' := Z.of_nat i in
                 Z.lxor
                   (Z.lxor s (b2z (zth rev (Z.max c i') 0
                                   <? zth rev (Z.min c i') 0)))
                   (b2z (zth rev (Z.max d i') 0 <? zth rev (Z.min d i') 0))
               else s)
            (seq 0 (List.length rev))
            (Z.lxor s0 (b2z (zth rev d 0 <? zth rev c 0))).

(** The part of a turn under [if (l != -1)].  The boolean tells whether
    the turn goes on ([false] stands for [continue]). *)
Definition contract (s : setting) (w : walk) (l : Z) (tn0 : turn)
  : bool * turn * list WickTensor.t :=
  let '(c, d) := zth (cur_idxs w) l (0, 0) in
  let tn1 := mk_turn (skip tn0) (cur_idxs_mask tn0) (inactive_mask tn0)
                     (cd_idx_map_rev tn0)
                     (Z.lxor (sign tn0) (Z.lxor (Z.land (Z.lxor c d) 1) 1))
                     (n_inact tn0) (inact_fac tn0) in
  let tn2 := fold_left (cross_step (cur_idxs w) c d)
                       (seq 0 (Z.to_nat l)) tn1 in
  if skip tn2 then (false, tn2, ot_tensors w)
  else
    let tn3 := mk_turn false (zupd (zupd (cur_idxs_mask tn2) c 1) d 1)
                       (inactive_mask tn2) (cd_idx_map_rev tn2) (sign tn2)
                       (n_inact tn2) (inact_fac tn2) in
    let delta := WickTensor.kronecker_delta
                   (WickString.index0 (cd_at (cd s) c))
                   (WickString.index0 (cd_at (cd s) d)) in
    let ot := zupd (ot_tensors w) (Z.of_nat (ot_count s) + l) delta in
    if sf_type s then
      let tn4 :=
        fold_left (fun tn i =>
                     let '(a, b) := nth i (cur_idxs w) (0, 0) in
                     rewire a b (mark_inactive s a b tn))
                  (seq 0 (Z.to_nat l))
                  (mk_turn false (cur_idxs_mask tn3) (inactive_mask tn3)
                           (cd_idx_map_rev tn3) (sign tn3) 0 (inact_fac tn3)) in
      let tn5 := mark_inactive s c d tn4 in
      if n_inact tn5 + zth (n_inactive_idxs s) (c + 1) 0
         <? zth (n_inactive_idxs s) 0 0
      then (false, tn5, ot_tensors w)
      else (true, rewire c d tn5, ot)
    else
      (true,
       mk_turn false (cur_idxs_mask tn3) (inactive_mask tn3)
               (cd_idx_map_rev tn3)
               (unorder_sign (rev_idxs w) (cur_idxs_mask tn3) c d (sign tn3))
               (n_inact tn3) (inact_fac tn3),
       ot).

(** The spin-free operator of the operators left uncontracted, with
    the scratch use of [rev_idxs] and the sign it yields. *)
Definition emit_spin_free (s : setting) (tn : turn) (l : Z)
           (rev : list Z) : list Z * Z * list WickTensor.t :=
  let sf_n := Z.of_nat (List.length (cd s)) / 2 in
  let tnum := sf_n - l - 1 in
  let free :=
    filter (fun ti => (zth (cur_idxs_mask tn) ti 0 =? 0)
                      && is_cre (cd_at (cd s) ti))
           (tensor_idxs s) in
  let rev' :=
    fst (fold_left (fun (st : list Z * Z) ti =>
                      let '(r, k) := st in
                      (zupd (zupd r k ti) (k + tnum)
                            (zth (cd_idx_map_rev tn) ti 0),
                       k + 1))
                   free (rev, 0)) in
  let wis := map (fun i => WickString.index0
                             (cd_at (cd s) (zth rev' (Z.of_nat i) 0)))
                 (seq 0 (Z.to_nat (tnum * 2))) in
  let fs := inversion_parity (firstn (Z.to_nat (tnum + tnum)) rev')
                             (reverse_sign tnum) in
  (rev', fs, match wis with [] => [] | _ => [WickTensor.spin_free wis] end).

(** One turn of [while (!que.empty())] for the popped entry [(l, j)]. *)
Definition turn_of (s : setting) (w : walk) (l j : Z) (rest : list (Z * Z))
  : walk :=
  let n := List.length (cd s) in
  let cur1 := if l =? -1 then cur_idxs w
              else zupd (cur_idxs w) l (zth (ctr_idxs s) j (0, 0)) in
  let k := if l =? -1 then 0
           else zth (ctr_cd_idxs s) (fst (zth (ctr_idxs s) j (0, 0)) + 1) 0 in
  let acc1 := zupd (acc_sign w) (l + 2) (zth (acc_sign w) (l + 1) 0) in
  let ot1 := resize (ot_tensors w) (Z.to_nat (Z.of_nat (ot_count s) + l + 1))
                    WickString.default_tensor in
  let w1 := mk_walk rest cur1 acc1 ot1 (rev_idxs w) (final_sign w)
                    (terms w) in
  let tn0 := mk_turn false (repeat 0 n) (repeat 0 n)
                     (if sf_type s then idx_map s else repeat 0 n)
                     (zth (acc_sign w) (l + 1) 0) 0 1%float in
  let '(go, tn, ot2) :=
    if l =? -1 then (true, tn0, ot1) else contract s w1 l tn0 in
  let acc2 := zupd acc1 (l + 2) (sign tn) in
  if negb go then
    mk_walk rest cur1 acc2 ot2 (rev_idxs w) (final_sign w) (terms w)
  else
    let que1 :=
      if no_ctr s then rest
      else rev (map (fun k' => (l + 1, Z.of_nat k'))
                    (seq (Z.to_nat k)
                         (List.length (ctr_idxs s) - Z.to_nat k)))
           ++ rest in
    if negb (max_unctr s =? -1)
       && (to_size_t (Z.of_nat n - (l + l + 2)) >? to_size_t (max_unctr s))
    then mk_walk que1 cur1 acc2 ot2 (rev_idxs w) (final_sign w) (terms w)
    else if sf_type s then
      if n_inact tn <? zth (n_inactive_idxs s) 0 0 then
        mk_walk que1 cur1 acc2 ot2 (rev_idxs w) (final_sign w) (terms w)
      else
        let '(rev', fs, sf) := emit_spin_free s tn l (rev_idxs w) in
        let ot3 := ot2 ++ sf in
        mk_walk que1 cur1 acc2 ot3 rev' fs
          (terms w
           ++ [WickString.mk ot3 (x_ctr_indices s)
                 (PrimFloat.mul (inact_fac tn)
                    (if Z.lxor (sign tn) fs =? 0 then x_factor s
                     else PrimFloat.opp (x_factor s)))])
    else
      let ot3 :=
        ot2 ++ map (cd_at (cd s))
                   (filter (fun ti => zth (cur_idxs_mask tn) ti 0 =? 0)
                           (tensor_idxs s)) in
      mk_walk que1 cur1 acc2 ot3 (rev_idxs w) (final_sign w)
        (terms w
         ++ [WickString.mk ot3 (x_ctr_indices s)
               (PrimFloat.mul (inact_fac tn)
                  (if Z.lxor (sign tn) (final_sign w) =? 0 then x_factor s
                   else PrimFloat.opp (x_factor s)))]).

(** [while (!que.empty())]; the recursion is on a budget of turns. *)
Fixpoint traverse (fuel : nat) (s : setting) (w : walk)
  : outcome (list WickString.t) :=
  match que w with
  | [] => Ok (terms w)
  | (l, j) :: rest =>
      match fuel with
      | O => OutOfFuel
      | S fuel' => traverse fuel' s (turn_of s w l j rest)
      end
  end.

(** [rev_idxs[tensor_idxs[i]] = i]. *)
Definition inverse_of (tensor_idxs : list Z) : list Z :=
  fold_left (fun r i => zupd r (nth i tensor_idxs 0) (Z.of_nat i))
            (seq 0 (List.length tensor_idxs))
            (repeat 0 (List.length tensor_idxs)).

(** [normal_order_impl_new(x, max_unctr, no_ctr)]. *)
Definition normal_order_impl_new (fuel : nat) (x : WickString.t)
           (max_unctr : Z) (no_ctr : bool) : outcome t :=
  let cd_type := existsb is_cd (WickString.tensors x) in
  let sf_type := existsb is_sf (WickString.tensors x) in
  if cd_type && sf_type then AssertionFailed NotMixed
  else
    let ops := collect x in
    let cd := cd_tensors ops in
    let n := List.length cd in
    let '(ctr_idxs, ctr_cd_idxs) := candidate_table sf_type cd in
    let n_inactive_idxs := suffix_sums (inactive_flags sf_type cd) in
    let setting_of tensor_idxs :=
      mk_setting (WickString.ctr_indices x) (WickString.factor x)
                 max_unctr no_ctr sf_type cd (cd_idx_map ops)
                 (List.length (other_tensors ops))
                 ctr_idxs ctr_cd_idxs n_inactive_idxs tensor_idxs in
    let walk_of que acc0 rev :=
      mk_walk que (repeat (0, 0) n) (zupd (repeat 0 (S n)) 0 acc0)
              (other_tensors ops) rev 0 [] in
    if negb (max_unctr =? 0) || (Nat.modulo n 2 =? 0)%nat then
      let ids := map Z.of_nat (seq 0 n) in
      if sf_type then
        let tensor_idxs :=
          sort_by (fun i j =>
                     WickTensorTypes.ltb (WickTensor.type (cd_at cd i))
                                         (WickTensor.type (cd_at cd j)))
                  ids in
        if forallb (fun i => is_cre (cd_at cd i))
                   (firstn (Nat.div n 2) tensor_idxs)
        then traverse fuel (setting_of tensor_idxs)
                      (walk_of [(-1, -1)] (init_sign ops) (repeat 0 n))
        else AssertionFailed CreationFirst
      else
        let tensor_idxs :=
          sort_by (fun i j => WickTensor.ltb (cd_at cd i) (cd_at cd j)) ids in
        let rev := inverse_of tensor_idxs in
        traverse fuel (setting_of tensor_idxs)
                 (walk_of [(-1, -1)] (inversion_parity rev (init_sign ops))
                          rev)
    else
      traverse fuel (setting_of (repeat 0 n))
               (walk_of [] 0 (repeat 0 n)).

(** The member [normal_order_impl]: the terms are dealt out to the
    threads in contiguous blocks and the per-thread results are joined in
    thread order, which is the order of the terms. *)
Fixpoint normal_order_impl (fuel : nat) (e : t) (max_unctr : Z)
         (no_ctr : bool) : outcome t :=
  match e with
  | [] => Ok []
  | x :: e' =>
      rr <- normal_order_impl_new fuel x max_unctr no_ctr ;;
      rest <- normal_order_impl fuel e' max_unctr no_ctr ;;
      Ok (rr ++ rest)
  end.

Definition expand (fuel : nat) (e : t) (max_unctr : Z) (no_ctr : bool)
  : outcome t :=
  normal_order_impl fuel (split_index_types e) max_unctr no_ctr.

(** *** Simplification *)

Definition simplify_delta (e : t) : t := map WickString.simplify_delta e.

(** [1E-12] as the nearest [double]. *)
Definition epsilon : float := 0x1.19799812dea11p-40%float.

Definition keeps (rr : WickString.t) : bool :=
  PrimFloat.ltb epsilon (PrimFloat.abs (WickString.factor rr))
  && negb (List.length (WickString.tensors rr) =? 0)%nat.

Definition simplify_zero (e : t) : t := filter keeps e.

Section Merge.
(** [WickString::quick_sort], the canonical form under which terms
    are compared.  Its result depends on how [std::sort] orders equal
    elements, so it is kept as a parameter: what is proved about
    [simplify_merge] holds for every canonical form. *)
Variable quick_sort : WickString.t -> WickString.t.

Definition set_factor (a : WickString.t) (f : float) : WickString.t :=
  WickString.mk (WickString.tensors a) (WickString.ctr_indices a) f.

(** [ridxs[j].second += ...] at the first bucket equal to [si]. *)
Fixpoint add_to_bucket (sorted : list WickString.t) (si : WickString.t)
         (fi : float) (ridxs : list (nat * float))
  : option (list (nat * float)) :=
  match ridxs with
  | [] => None
  | (i0, f0) :: r =>
      let s0 := nth i0 sorted (WickString.mk [] [] 0%float) in
      if WickString.abs_equal_to si s0 then
        Some ((i0, PrimFloat.add f0
                     (PrimFloat.mul
                        (PrimFloat.mul fi (WickString.factor si))
                        (WickString.factor s0))) :: r)
      else
        match add_to_bucket sorted si fi r with
        | Some r' => Some ((i0, f0) :: r')
        | None => None
        end
  end.

Definition merge_step (e sorted : list WickString.t)
           (ridxs : list (nat * float)) (i : nat) : list (nat * float) :=
  let ti := nth i e (WickString.mk [] [] 0%float) in
  let si := nth i sorted (WickString.mk [] [] 0%float) in
  match add_to_bucket sorted si (WickString.factor ti) ridxs with
  | Some r => r
  | None => ridxs ++ [(i, WickString.factor ti)]
  end.

Definition simplify_merge (e : t) : t :=
  let sorted := map (fun x => quick_sort (WickString.abs x)) e in
  let ridxs := fold_left (merge_step e sorted)
                         (seq 0 (List.length e)) [] in
  let r := map (fun m => set_factor
                           (nth (fst m) e (WickString.mk [] [] 0%float))
                           (snd m))
               ridxs in
  sort_by WickString.ltb (simplify_zero r).

Definition simplify (e : t) : t :=
  simplify_merge (simplify_zero (simplify_delta e)).
End Merge.

(** *** The operators of [WickExpr] *)

(** [operator*(const WickExpr &)]: every term of the receiver times
    every term of the argument, the receiver's terms outermost. *)
Definition mul (a other : t) : t :=
  flat_map (fun ta => map (fun tb => WickString.mul ta tb) other) a.

(** [operator+]. *)
Definition add (a other : t) : t := a ++ other.

(** [operator*(double)]. *)
Definition scale (a : t) (d : float) : t :=
  map (fun term => WickString.scale term d) a.

(** [operator-]: the argument is scaled by [-1.0] and appended. *)
Definition sub (a other : t) : t := a ++ scale other (-1)%float.

(** [operator&]: the product, summed over every index of its tensors. *)
Definition contract_all (a b : t) : t :=
  map (fun ws =>
         WickString.mk
           (WickString.tensors ws)
           (fold_left (fun ctr wt =>
                         IndexSet.insert_all (WickTensor.indices wt) ctr)
                      (WickString.tensors ws) (WickString.ctr_indices ws))
           (WickString.factor ws))
      (mul a b).

(** [remove_external]. *)
Definition remove_external (e : t) : t :=
  filter (fun rr => negb (WickString.has_external_ops rr)) e.

(** *** [conjugate] *)

(** [for (i < k) swap(indices[i], indices[i + k])] with
    [k = indices.size() / 2]. *)
Definition swap_halves (l : list WickIndex.t) : list WickIndex.t :=
  let k := Nat.div (List.length l) 2 in
  firstn k (skipn k l) ++ firstn k l ++ skipn (2 * k) l.

(** What the first loop of [conjugate] does to one tensor, in place;
    operator tensors are also pushed on the stack [tensors]. *)
Definition conjugate_tensor (wt : WickTensor.t) : WickTensor.t :=
  if is_sf wt then
    WickTensor.mk (WickTensor.name wt) (swap_halves (WickTensor.indices wt))
                  (WickTensor.perms wt) (WickTensor.type wt)
  else if is_cre wt then
    WickTensor.mk (if String.eqb (WickTensor.name wt) "C" then "D"%string
                   else WickTensor.name wt)
                  (WickTensor.indices wt) (WickTensor.perms wt)
                  WickTensorTypes.DestroyOperator
  else if WickTensorTypes.eqb (WickTensor.type wt)
                              WickTensorTypes.DestroyOperator then
    WickTensor.mk (if String.eqb (WickTensor.name wt) "D" then "C"%string
                   else WickTensor.name wt)
                  (WickTensor.indices wt) (WickTensor.perms wt)
                  WickTensorTypes.CreationOperator
  else wt.

(** The second loop: every operator tensor is overwritten by the top of
    the stack, which is popped ([stack] has its top first).  Taking
    [back()] of an empty vector is undefined; it does not happen, since
    the stack holds one entry per operator tensor, and the model leaves
    the tensor as it is there. *)
Fixpoint refill (l stack : list WickTensor.t) : list WickTensor.t :=
  match l with
  | [] => []
  | wt :: l' =>
      if WickString.is_operator wt then
        match stack with
        | top :: stack' => top :: refill l' stack'
        | [] => wt :: refill l' []
        end
      else wt :: refill l' stack
  end.

Definition conjugate_term (rr : WickString.t) : WickString.t :=
  let modified := map conjugate_tensor (WickString.tensors rr) in
  let pushed := map conjugate_tensor
                    (filter WickString.is_operator (WickString.tensors rr)) in
  WickString.mk (refill modified (rev pushed)) (WickString.ctr_indices rr)
                (WickString.factor rr).

Definition conjugate (e : t) : t := map conjugate_term e.
End WickExpr.


(** ** [template <typename D, uint8_t L = 4> struct TRIE] *)
Module TRIE.
Definition L : nat := 4.

Record t := mk {
  data : list (list Z);          (* vector<array<int, L>> *)
  dets : list Z;
  invs : list Z;
  vals : list float;
  n_sites : Z;
  enable_look_up : bool
}.

(** [array<int, L>()]: all zero. *)
Definition empty_node : list Z := repeat 0 L.

(** The constructor. *)
Definition make (n_sites : Z) (enable_look_up : bool) : t :=
  mk [empty_node] [] [] [] n_sites enable_look_up.

(** [v[i]], undefined outside the vector. *)
Definition at_ {A} (l : list A) (i : Z) : outcome A :=
  if i <? 0 then Undefined
  else match nth_error l (Z.to_nat i) with
       | Some x => Ok x
       | None => Undefined
       end.

(** [v[i] = x], undefined outside the vector. *)
Definition set_at {A} (l : list A) (i : Z) (x : A) : outcome (list A) :=
  if (0 <=? i) && (i <? Z.of_nat (List.length l))
  then Ok (upd l (Z.to_nat i) x) else Undefined.

(** [(int)v.size()]. *)
Definition int_size {A} (l : list A) : Z := wrap32 (Z.of_nat (List.length l)).

(** The first loop of [push_back]: walk along [det], adding the
    missing nodes.  Returns the node array and the node reached. *)
Fixpoint insert_path (data : list (list Z)) (cur : Z) (det : list Z)
  : outcome (list (list Z) * Z) :=
  match det with
  | [] => Ok (data, cur)
  | j :: det' =>
      node <- at_ data cur ;;
      child <- at_ node j ;;
      if child =? 0 then
        let fresh := int_size data in
        node' <- set_at node j fresh ;;
        data' <- set_at data cur node' ;;
        insert_path (data' ++ [empty_node]) fresh det'
      else insert_path data child det'
  end.

(** The second loop of [push_back]: record the parent of every node on
    the path of [det]. *)
Fixpoint record_parents (data : list (list Z)) (invs : list Z) (cur : Z)
         (det : list Z) : outcome (list Z) :=
  match det with
  | [] => Ok invs
  | j :: det' =>
      node <- at_ data cur ;;
      child <- at_ node j ;;
      invs' <- set_at invs child cur ;;
      record_parents data invs' child det'
  end.

Definition last_det (dets : list Z) : Z := last dets 0.

Definition push_back (tr : t) (det : list Z) : outcome t :=
  if negb (int_size det =? n_sites tr) then AssertionFailed DetSize
  else
    r <- insert_path (data tr) 0 det ;;
    let '(data', cur) := r in
    if negb ((List.length (dets tr) =? 0)%nat || (cur >? last_det (dets tr)))
    then AssertionFailed DetIncreasing
    else
      let dets' := dets tr ++ [cur] in
      if enable_look_up tr then
        invs' <- record_parents data'
                   (resize (invs tr) (List.length data') 0) 0 det ;;
        Ok (mk data' dets' invs' (vals tr) (n_sites tr) (enable_look_up tr))
      else
        Ok (mk data' dets' (invs tr) (vals tr) (n_sites tr)
               (enable_look_up tr)).

(** The walk of [find]: [None] when a child is missing. *)
Fixpoint walk (data : list (list Z)) (cur : Z) (det : list Z)
  : outcome (option Z) :=
  match det with
  | [] => Ok (Some cur)
  | j :: det' =>
      node <- at_ data cur ;;
      child <- at_ node j ;;
      if child =? 0 then Ok None else walk data child det'
  end.

(** [std::lower_bound(first, last, value) - first]: the length of the
    longest prefix whose elements are all less than [value]. *)
Fixpoint lower_bound (l : list Z) (value : Z) : nat :=
  match l with
  | [] => O
  | x :: l' => if x <? value then S (lower_bound l' value) else O
  end.

Definition find (tr : t) (det : list Z) : outcome Z :=
  if negb (int_size det =? n_sites tr) then AssertionFailed DetSize
  else
    r <- walk (data tr) 0 det ;;
    match r with
    | None => Ok (-1)
    | Some cur =>
        let idx := wrap32 (Z.of_nat (lower_bound (dets tr) cur)) in
        if idx <? int_size (dets tr) then
          d <- at_ (dets tr) idx ;;
          Ok (if d =? cur then idx else -1)
        else Ok (-1)
    end.

(** [for (uint8_t j = 0; j < L; j++) if (node[j] == cur) ...]: the
    first branch of [node] that leads to [cur]. *)
Fixpoint branch_to (node : list Z) (cur : Z) (j : Z) : option Z :=
  match node with
  | [] => None
  | c :: node' => if c =? cur then Some j else branch_to node' cur (j + 1)
  end.

(** The loop of [operator[]], from the last site to the first; the
    entries of [r] not assigned stay 0. *)
Fixpoint climb (tr : t) (cur : Z) (i : nat) (r : list Z)
  : outcome (list Z) :=
  match i with
  | O => Ok r
  | S i' =>
      ir <- at_ (invs tr) cur ;;
      node <- at_ (data tr) ir ;;
      let r' := match branch_to node cur 0 with
                | Some j => upd r i' j
                | None => r
                end in
      climb tr ir i' r'
  end.

(** [operator[](int idx)]. *)
Definition get (tr : t) (idx : Z) : outcome (list Z) :=
  if negb (enable_look_up tr
           && (to_size_t idx <? Z.of_nat (List.length (dets tr))))
  then AssertionFailed LookUp
  else
    cur <- at_ (dets tr) idx ;;
    climb tr cur (Z.to_nat (n_sites tr))
          (repeat 0 (Z.to_nat (n_sites tr))).

(** [size()]: the number of determinants. *)
Definition size (tr : t) : Z := Z.of_nat (List.length (dets tr)).

(** A trie built by successive [push_back] calls. *)
Definition build (n_sites : Z) (enable_look_up : bool) (ds : list (list Z))
  : outcome t :=
  fold_left (fun acc det => tr <- acc ;; push_back tr det) ds
            (Ok (make n_sites enable_look_up)).
End TRIE.

(** ** [struct DelayedTensorFunctions] *)
Module DelayedTensorFunctions.
Section Dispatch.
(** The collaborators that are declared in headers outside this
    development: operator names ([OpElement]), quantum labels ([S]),
    handles of block-sparse matrices ([shared_ptr<SparseMatrix<S>>])
    with their shape descriptors, and the memory they live in. *)
Variables OpElement Label Matrix Info World : Type.

(** Modelled from the spec: the [OpExpr] class hierarchy of
    [expr.hpp], which is not among the sources.  Section 4.4 lists the
    node kinds: Zero, Prod (a scaled product of two named
    sub-operators [a] and [b] with a conjugation flag), SumProd (one
    fixed operand, [a] or [b], times a weighted sum of [ops]) and Sum
    (a flat sum); a bare operator name is a node as well. *)
Inductive OpExpr :=
| Zero
| Elem (e : OpElement)
| Prod (a : OpElement) (b : option OpElement) (conj : Z) (factor : float)
| SumProd (a b : option OpElement) (ops : list (OpElement * float))
          (conjs : list bool) (conj : Z) (factor : float)
| Sum (strings : list OpExpr).

(** [std::map<shared_ptr<OpExpr>, shared_ptr<SparseMatrix>>], read
    only during a call. *)
Definition op_map := OpElement -> option Matrix.

(** The kernels of [OperatorFunctions] and the operations of
    [SparseMatrix] and [DelayedSparseMatrix]. *)
Variable abs_value : OpElement -> OpElement.
Variable is_delayed : Matrix -> World -> bool.
Variable build : Matrix -> World -> Matrix * World.
Variable deallocate : Matrix -> World -> World.
Variable info_of : Matrix -> World -> Info.
Variable new_matrix : Info -> World -> Matrix * World.
Variable opf_tensor_product :
  Z -> Matrix -> Matrix -> Matrix -> float -> World -> World.
Variable opf_tensor_product_multiply :
  Z -> Matrix -> Matrix -> Matrix -> Matrix -> Label -> float ->
  World -> World.
Variable opf_tensor_product_diagonal :
  Z -> Matrix -> Matrix -> Matrix -> Label -> float -> World -> World.
Variable opf_iadd : Matrix -> Matrix -> float -> bool -> World -> World.
Variable seq_is_simple : World -> bool.
Variable simple_perform : World -> World.

(** [m = delayed ? m->build() : m]. *)
Definition force (m : Matrix) (w : World) : bool * Matrix * World :=
  if is_delayed m w
  then let '(m', w') := build m w in (true, m', w')
  else (false, m, w).

Definition release (delayed : bool) (m : Matrix) (w : World) : World :=
  if delayed then deallocate m w else w.

(** [for (auto &x : op->strings) f(x, ...)]. *)
Fixpoint for_each {A} (f : A -> World -> outcome World) (l : list A)
         (w : World) : outcome World :=
  match l with
  | [] => Ok w
  | x :: l' => w' <- f x w ;; for_each f l' w'
  end.

(** The two operands of a [Prod] node, forced. *)
Definition with_operands (lop rop : op_map) (a : OpElement)
           (b : option OpElement)
           (k : Matrix -> Matrix -> World -> World) (w : World)
  : outcome World :=
  match b with
  | None => AssertionFailed BadNode
  | Some b =>
      match lop a, rop b with
      | Some lmat, Some rmat =>
          let '(dl, lmat', w1) := force lmat w in
          let '(dr, rmat', w2) := force rmat w1 in
          Ok (release dl lmat' (release dr rmat' (k lmat' rmat' w2)))
      | _, _ => AssertionFailed MissingOperand
      end
  end.

(** [tensor_product_multiply(expr, lop, rop, cmat, vmat, opdq)]. *)
Fixpoint tensor_product_multiply (expr : OpExpr) (lop rop : op_map)
         (cmat vmat : Matrix) (opdq : Label) (w : World)
  : outcome World :=
  match expr with
  | Prod a b cj factor =>
      with_operands lop rop a b
        (fun l r => opf_tensor_product_multiply cj l r cmat vmat opdq
                                                factor) w
  | Sum strings =>
      for_each (fun x => tensor_product_multiply x lop rop cmat vmat opdq)
               strings w
  | Zero => Ok w
  | _ => AssertionFailed BadNode
  end.

(** [tensor_product_diagonal(expr, lop, rop, mat, opdq)]. *)
Fixpoint tensor_product_diagonal (expr : OpExpr) (lop rop : op_map)
         (mat : Matrix) (opdq : Label) (w : World) : outcome World :=
  match expr with
  | Prod a b cj factor =>
      with_operands lop rop a b
        (fun l r => opf_tensor_product_diagonal cj l r mat opdq factor) w
  | Sum strings =>
      for_each (fun x => tensor_product_diagonal x lop rop mat opdq)
               strings w
  | Zero => Ok w
  | _ => AssertionFailed BadNode
  end.

(** The accumulation loop of the [SumProd] case over [side]. *)
Fixpoint accumulate (side : op_map) (tmp : Matrix) (factor : float)
         (ops : list (OpElement * float)) (conjs : list bool) (w : World)
  : outcome World :=
  match ops with
  | [] => Ok w
  | (o, f) :: ops' =>
      match side (abs_value o) with
      | None => Undefined
      | Some m =>
          let '(d, m', w1) := force m w in
          let w2 := opf_iadd tmp m' (PrimFloat.mul factor f)
                             (hd false conjs) w1 in
          let w3 := if seq_is_simple w2 then simple_perform w2 else w2 in
          accumulate side tmp factor ops' (tl conjs) (release d m' w3)
      end
  end.

(** [tensor_product(expr, lop, rop, mat)]. *)
Fixpoint tensor_product (expr : OpExpr) (lop rop : op_map) (mat : Matrix)
         (w : World) : outcome World :=
  match expr with
  | Prod a b cj factor =>
      with_operands lop rop a b
        (fun l r => opf_tensor_product cj l r mat factor) w
  | SumProd a b ops conjs cj factor =>
      match a, b, ops with
      | Some a, None, (o0, _) :: _ =>
          match lop a, rop (abs_value o0) with
          | Some lmat, Some r0 =>
              let '(tmp, w1) := new_matrix (info_of r0 w) w in
              w2 <- accumulate rop tmp factor ops conjs w1 ;;
              let '(dl, lmat', w3) := force lmat w2 in
              let w4 := opf_tensor_product cj lmat' tmp mat 1%float w3 in
              Ok (deallocate tmp (release dl lmat' w4))
          | _, _ => AssertionFailed MissingOperand
          end
      | None, Some b, (o0, _) :: _ =>
          match lop (abs_value o0), rop b with
          | Some l0, Some rmat =>
              let '(tmp, w1) := new_matrix (info_of l0 w) w in
              w2 <- accumulate lop tmp factor ops conjs w1 ;;
              let '(dr, rmat', w3) := force rmat w2 in
              let w4 := opf_tensor_product cj tmp rmat' mat 1%float w3 in
              Ok (deallocate tmp (release dr rmat' w4))
          | _, _ => AssertionFailed MissingOperand
          end
      | _, _, _ => AssertionFailed BadNode
      end
  | Sum strings =>
      for_each (fun x => tensor_product x lop rop mat) strings w
  | Zero => Ok w
  | Elem _ => AssertionFailed BadNode
  end.
End Dispatch.
Arguments Zero {OpElement}.
End DelayedTensorFunctions.

(** * Specification predicates and example inputs *)

(** ** Specification predicates for permutations *)

(** [l] lists a bijection of [{0..n-1}]: [n] entries, all different, all
    in range. *)
Definition bijection_on (n : nat) (l : list Z) : Prop :=
  List.length l = n /\ NoDup l /\ Forall (fun x => 0 <= x < Z.of_nat n) l.

(** The identity permutation of [{0..n-1}] with positive sign. *)
Definition identity_perm (n : nat) : WickPermutation.t :=
  WickPermutation.mk (map Z.of_nat (seq 0 n)) false.

(** The elements reachable from the first entry of [vwp] by multiplying
    with generators on the right. *)
Inductive generated (n : nat) (def : list WickPermutation.t)
  : WickPermutation.t -> Prop :=
| gen_ident : generated n def (WickPermutation.mk (WickPermutation.ident n) false)
| gen_mul g d : generated n def g -> In d def ->
                generated n def (WickPermutation.mul g d).

(** All lists of length [m] over the alphabet [E]. *)
Fixpoint all_lists (E : list Z) (m : nat) : list (list Z) :=
  match m with
  | O => [[]]
  | S m' => flat_map (fun x => map (cons x) (all_lists E m')) E
  end.

(** Every value [complete_set] can ever build for size [n]. *)
Definition universe (n : nat) : list WickPermutation.t :=
  flat_map (fun l => [WickPermutation.mk l false; WickPermutation.mk l true])
           (all_lists (0 :: WickPermutation.ident n) n).

(** What holds of [vwp] whenever the test of the outer loop of
    [complete_set] is evaluated with counter [k]. *)
Record loop_inv (n : nat) (def : list WickPermutation.t) (k : nat)
       (vwp : list WickPermutation.t) : Prop := {
  inv_nodup : NoDup vwp;
  inv_gen : forall x, In x vwp -> generated n def x;
  inv_done : forall i g d, (i < k)%nat -> nth_error vwp i = Some g ->
                           In d def -> In (WickPermutation.mul g d) vwp;
  inv_le : (k <= List.length vwp)%nat;
  inv_head : In (WickPermutation.mk (WickPermutation.ident n) false) vwp
}.

(** ** Specification predicates for tensors *)

(** Every permutation of the tensor has one entry per index, each a
    position of the index list. *)
Definition perms_in_range (a : WickTensor.t) : Prop :=
  forall p, In p (WickTensor.perms a) ->
    List.length (WickPermutation.data p) = List.length (WickTensor.indices a)
    /\ Forall (fun x => 0 <= x < Z.of_nat (List.length (WickTensor.indices a)))
              (WickPermutation.data p).

(** The permutation list of the tensor is closed under the product. *)
Definition perms_closed (a : WickTensor.t) : Prop :=
  forall p q, In p (WickTensor.perms a) -> In q (WickTensor.perms a) ->
    In (WickPermutation.mul p q) (WickTensor.perms a).

(** The order of index tuples used by [sort]. *)
Definition tuple_ltb := lex_ltb WickIndex.ltb.

(** The state of the loop of [sort]: the tensor kept so far is the
    receiver itself or its image under one of its permutations, and none
    of the permutations seen gives a smaller index tuple. *)
Definition kept (a : WickTensor.t) (seen : list WickPermutation.t)
           (st : WickTensor.t * bool) : Prop :=
  ((fst st = a /\ snd st = false)
   \/ exists p, In p (WickTensor.perms a) /\ fst st = WickTensor.mul a p)
  /\ forall p, In p seen ->
       tuple_ltb (WickTensor.indices (WickTensor.mul a p))
                 (WickTensor.indices (fst st)) = false.

(** A tensor with the antisymmetry of a two-electron integral. *)
Definition v_badc : WickTensor.t :=
  WickTensor.make "v" [WickIndex.of_name "b"; WickIndex.of_name "a";
                       WickIndex.of_name "d"; WickIndex.of_name "c"]
                  WickPermutation.four_anti WickTensorTypes.Tensor.

(** A tensor with the full symmetry of three slots whose index types
    overlap pairwise only in part: [b] is inactive or active, [a] is
    inactive, [c] is active. *)
Definition t_bac : WickTensor.t :=
  WickTensor.make "t"
    [WickIndex.mk "b" 3; WickIndex.mk "a" 1; WickIndex.mk "c" 2]
    [WickPermutation.mk [1; 0; 2] false; WickPermutation.mk [0; 2; 1] false]
    WickTensorTypes.Tensor.

(** ** Specification of the delta substitution *)

(** The index that stands for both sides of [delta[i, j]] once the
    summed index [i] is eliminated: the name of [j], the common types. *)
Definition merged_index (i j : WickIndex.t) : WickIndex.t :=
  WickIndex.mk (WickIndex.name j)
               (WickIndexTypes.and (WickIndex.types i) (WickIndex.types j)).

(** A tensor with every occurrence of [i] and of [j] replaced by the
    merged index. *)
Definition substituted (i j : WickIndex.t) (w : WickTensor.t) : WickTensor.t :=
  WickString.set_indices w
    (map (fun wi => if WickIndex.eqb wi i || WickIndex.eqb wi j
                    then merged_index i j else wi)
         (WickTensor.indices w)).

(** A delta whose sides exclude each other: at least one side is typed
    and the two have no type in common. *)
Definition clash (w : WickTensor.t) : Prop :=
  WickString.is_delta w = true
  /\ WickString.types_conflict (WickString.index0 w) (WickString.index1 w)
     = true.

(** What the loop keeps while it has not yet reached the clashing delta
    at position [p]. *)
Definition clash_pending (p : nat) (st : WickString.delta_state) : Prop :=
  WickString.xfactor st = 0%float
  \/ ((p < List.length (WickString.xtensors st))%nat
      /\ clash (nth p (WickString.xtensors st) WickString.default_tensor)).

(** Terms used as examples: [delta[i, j] t[i]] summed over [i], with [i]
    inactive and [j] active, and [delta[i, j] t[i j]] summed over [i],
    with typeless indices. *)
Definition term_delta_clash : WickString.t :=
  WickString.mk
    [WickTensor.kronecker_delta (WickIndex.mk "i" WickIndexTypes.Inactive)
                                (WickIndex.mk "j" WickIndexTypes.Active);
     WickTensor.make "t" [WickIndex.mk "i" WickIndexTypes.Inactive] []
                     WickTensorTypes.Tensor]
    [WickIndex.mk "i" WickIndexTypes.Inactive] 1%float.

Definition term_delta_plain : WickString.t :=
  WickString.mk
    [WickTensor.kronecker_delta (WickIndex.of_name "i") (WickIndex.of_name "j");
     WickTensor.make "t" [WickIndex.of_name "i"; WickIndex.of_name "j"] []
                     WickTensorTypes.Tensor]
    [WickIndex.of_name "i"] 1%float.

(** [delta[i, k] delta[i, j] t[i]] summed over [i], typeless. *)
Definition term_two_deltas : WickString.t :=
  WickString.mk
    [WickTensor.kronecker_delta (WickIndex.of_name "i") (WickIndex.of_name "k");
     WickTensor.kronecker_delta (WickIndex.of_name "i") (WickIndex.of_name "j");
     WickTensor.make "t" [WickIndex.of_name "i"] [] WickTensorTypes.Tensor]
    [WickIndex.of_name "i"] 1%float.

(** ** Specification predicates for the product of two terms *)

(** [x] occurs in a tensor of the term. *)
Definition occurs_in (x : WickIndex.t) (a : WickString.t) : Prop :=
  exists w, In w (WickString.tensors a) /\ In x (WickTensor.indices w).

(** Every summed index of the term occurs in one of its tensors. *)
Definition summed_are_used (a : WickString.t) : Prop :=
  forall x, In x (WickString.ctr_indices a) -> occurs_in x a.

(** The renamings that [operator*] applies to the left and to the right
    operand. *)
Definition left_renaming (a b : WickString.t) : WickIndex.t -> WickIndex.t :=
  let '(mp, xa, xb, xc) := WickString.collisions a b in
  WickString.rename_a mp xa xc.
Definition right_renaming (a b : WickString.t) : WickIndex.t -> WickIndex.t :=
  let '(mp, xa, xb, xc) := WickString.collisions a b in
  WickString.rename_b mp xb.

(** The loop of [operator*] found an unused name for every index it had
    to rename. *)
Definition renaming_found (a b : WickString.t) : Prop :=
  let '(mp, xa, xb, xc) := WickString.collisions a b in
  forall idx, In idx xa \/ In idx xb -> WickString.map_find mp idx <> None.

(** A tensor with its indices renamed. *)
Definition renamed (r : WickIndex.t -> WickIndex.t) (w : WickTensor.t)
  : WickTensor.t :=
  WickString.set_indices w (map r (WickTensor.indices w)).

(** What the loop over [used_idxs] keeps: the names given so far are
    outside the original set [u0], inside the current one, and all
    different. *)
Definition renaming_inv (u0 : IndexSet.t)
           (st : IndexSet.t * WickString.index_map) : Prop :=
  (forall x, In x u0 -> In x (fst st))
  /\ (forall v, In v (map snd (snd st)) -> In v (fst st) /\ ~ In v u0)
  /\ NoDup (map snd (snd st)).
(** Terms used as examples.  [t[i j]] and [u[i k]], each summed over its
    own [i]; and [t[A]] summed over [A] beside a term whose tensors use,
    as free indices, the hundred one-letter names from [A] on. *)
Definition term_t_ij : WickString.t :=
  WickString.mk
    [WickTensor.make "t" [WickIndex.of_name "i"; WickIndex.of_name "j"] []
                     WickTensorTypes.Tensor]
    [WickIndex.of_name "i"] 2%float.
Definition term_u_ik : WickString.t :=
  WickString.mk
    [WickTensor.make "u" [WickIndex.of_name "i"; WickIndex.of_name "k"] []
                     WickTensorTypes.Tensor]
    [WickIndex.of_name "i"] 3%float.

Definition letter (k : nat) : WickIndex.t :=
  WickIndex.of_name (String (ascii_of_nat (65 + k)) EmptyString).
Definition term_t_A : WickString.t :=
  WickString.mk [WickTensor.make "t" [letter 0] [] WickTensorTypes.Tensor]
                [letter 0] 1%float.
Definition term_hundred : WickString.t :=
  WickString.mk
    (map (fun r => WickTensor.make "u"
                     (map (fun c => letter (4 * r + c)) (seq 0 4)) []
                     WickTensorTypes.Tensor)
         (seq 0 25))
    [] 1%float.

(** Terms with a summed index that none of their tensors uses: an empty
    product summed over [i], and [u[i]] summed over [j]. *)
Definition term_sum_i : WickString.t :=
  WickString.mk [] [WickIndex.of_name "i"] 1%float.
Definition term_u_i_sum_j : WickString.t :=
  WickString.mk
    [WickTensor.make "u" [WickIndex.of_name "i"] [] WickTensorTypes.Tensor]
    [WickIndex.of_name "j"] 1%float.
Definition term_t_i : WickString.t :=
  WickString.mk
    [WickTensor.make "t" [WickIndex.of_name "i"] [] WickTensorTypes.Tensor]
    [WickIndex.of_name "i"] 1%float.

(** ** Specification predicates for normal ordering *)

(** The term holds a raw creation or destroy operator and also a
    spin-free operator. *)
Definition mixes (x : WickString.t) : Prop :=
  (exists w, In w (WickString.tensors x)
             /\ (WickTensor.type w = WickTensorTypes.CreationOperator
                 \/ WickTensor.type w = WickTensorTypes.DestroyOperator))
  /\ (exists w, In w (WickString.tensors x)
                /\ WickTensor.type w = WickTensorTypes.SpinFreeOperator).

(** The number of elementary operators of a tensor: one for a creation
    or destroy operator, [k + k] for a spin-free operator of [2k]
    indices. *)
Definition elementary_count (w : WickTensor.t) : nat :=
  if WickExpr.is_cd w then 1%nat
  else if WickExpr.is_sf w
       then (2 * Nat.div (List.length (WickTensor.indices w)) 2)%nat
       else 0%nat.

Definition elementary_operators (x : WickString.t) : nat :=
  list_sum (map elementary_count (WickString.tensors x)).

(** The one-term expressions of the examples. *)
Definition cre_des (i j : WickIndex.t) : WickExpr.t :=
  [WickString.mk [WickTensor.cre i; WickTensor.des j] [] 1%float].
Definition des_cre (i j : WickIndex.t) : WickExpr.t :=
  [WickString.mk [WickTensor.des i; WickTensor.cre j] [] 1%float].

(** [C[i] E1[j, k]]: a raw operator beside a spin-free one. *)
Definition term_mixed : WickString.t :=
  WickString.mk
    [WickTensor.cre (WickIndex.of_name "i");
     WickTensor.spin_free [WickIndex.of_name "j"; WickIndex.of_name "k"]]
    [] 1%float.

(** ** Specification predicates for the trie *)

(** A determinant of the trie: one branch label below [L] per site. *)
Definition is_det (n_sites : Z) (det : list Z) : Prop :=
  Z.of_nat (List.length det) = n_sites
  /\ Forall (fun j => 0 <= j < Z.of_nat TRIE.L) det.

(** The shape of the node array, with the label path [path c] from the
    root to each node [c]: the root is node 0; a non-zero entry [c] in
    slot [j] of node [p] is a later node whose path is that of [p]
    followed by [j]; every node but the root is such an entry. *)
Record data_inv (data : list (list Z)) (path : Z -> list Z) : Prop := {
  inv_size : 0 < Z.of_nat (List.length data) < 2147483648;
  inv_arity : forall p node, TRIE.at_ data p = Ok node ->
                             List.length node = TRIE.L;
  inv_root : path 0 = [];
  inv_link : forall p node j c,
      TRIE.at_ data p = Ok node -> TRIE.at_ node j = Ok c -> c <> 0 ->
      p < c < Z.of_nat (List.length data) /\ path c = path p ++ [j];
  inv_parent : forall c, 0 < c < Z.of_nat (List.length data) ->
      exists p node j, TRIE.at_ data p = Ok node /\ TRIE.at_ node j = Ok c
}.

(** Node [c] has a parent recorded in [invs]. *)
Definition parent_recorded (data : list (list Z)) (invs : list Z) (c : Z)
  : Prop :=
  exists p node j, TRIE.at_ invs c = Ok p /\ TRIE.at_ data p = Ok node
                   /\ TRIE.at_ node j = Ok c.

(** The trie [tr] holds the determinants [ds], in this order. *)
Record trie_inv (tr : TRIE.t) (ds : list (list Z)) (path : Z -> list Z)
  : Prop := {
  tinv_data : data_inv (TRIE.data tr) path;
  tinv_dets : forall d, In d ds -> is_det (TRIE.n_sites tr) d;
  tinv_count : List.length (TRIE.dets tr) = List.length ds;
  tinv_leaf : forall k d, nth_error ds k = Some d ->
      exists leaf, nth_error (TRIE.dets tr) k = Some leaf
                   /\ 0 <= leaf < Z.of_nat (List.length (TRIE.data tr))
                   /\ path leaf = d;
  tinv_sorted : StronglySorted Z.lt (TRIE.dets tr);
  tinv_prefix : forall c, 0 < c < Z.of_nat (List.length (TRIE.data tr)) ->
      exists d rest, In d ds /\ d = path c ++ rest;
  tinv_invs : TRIE.enable_look_up tr = true ->
      forall c, 0 < c < Z.of_nat (List.length (TRIE.data tr)) ->
                parent_recorded (TRIE.data tr) (TRIE.invs tr) c
}.

(** Three determinants on three sites and the trie they build. *)
Definition dets3 : list (list Z) := [[0; 1; 2]; [0; 1; 3]; [1; 0; 0]].

Definition trie3 : TRIE.t :=
  match TRIE.build 3 true dets3 with
  | Ok tr => tr
  | _ => TRIE.make 3 true
  end.

(** What the loop of [WickTensor::sort] keeps: the tensor held is the
    receiver, or its image under a permutation of its list whose sign
    is the flag held; its index tuple is not above the receiver's nor
    above that of the images seen so far. *)
Definition sort_inv (a : WickTensor.t) (seen : list WickPermutation.t)
           (st : WickTensor.t * bool) : Prop :=
  (st = (a, false)
   \/ exists p, In p (WickTensor.perms a) /\ fst st = WickTensor.mul a p
                /\ snd st = WickPermutation.negative p)
  /\ tuple_ltb (WickTensor.indices a) (WickTensor.indices (fst st)) = false
  /\ forall p, In p seen ->
       tuple_ltb (WickTensor.indices (WickTensor.mul a p))
                 (WickTensor.indices (fst st)) = false.

(** What [operator==] of [WickTensor] compares: the permutation list is
    not part of it. *)
Definition tensor_key (w : WickTensor.t)
  : WickTensorTypes.t * string * list WickIndex.t :=
  (WickTensor.type w, WickTensor.name w, WickTensor.indices w).

(** What [simplify_delta] never changes in a tensor. *)
Definition tensor_head (w : WickTensor.t)
  : string * WickTensorTypes.t * list WickPermutation.t :=
  (WickTensor.name w, WickTensor.type w, WickTensor.perms w).

(** What the loop of [simplify_delta] keeps, for the term [s] and the
    loop counter [k]. *)
Definition delta_loop_inv (s : WickString.t) (k : nat)
           (st : WickString.delta_state) : Prop :=
  List.length (WickString.xtensors st) = List.length (WickString.tensors s)
  /\ (forall j, tensor_head (nth j (WickString.xtensors st)
                                 WickString.default_tensor)
                = tensor_head (nth j (WickString.tensors s)
                                   WickString.default_tensor))
  /\ StronglySorted Nat.lt (WickString.xidxs st)
  /\ Forall (fun j => (j < k)%nat) (WickString.xidxs st)
  /\ (forall x, In x (WickString.xctr_indices st) ->
                In x (WickString.ctr_indices s))
  /\ (WickString.xfactor st = WickString.factor s
      \/ WickString.xfactor st = 0%float).

(** [delta[i, i] t[i j]] summed over [j]. *)
Definition term_self_delta : WickString.t :=
  WickString.mk
    [WickTensor.kronecker_delta (WickIndex.of_name "i") (WickIndex.of_name "i");
     WickTensor.make "t" [WickIndex.of_name "i"; WickIndex.of_name "j"] []
                     WickTensorTypes.Tensor]
    [WickIndex.of_name "j"] 1%float.

(** [v[k l]] summed over [l]: no index in common with [t[i j]]. *)
Definition term_v_kl : WickString.t :=
  WickString.mk
    [WickTensor.make "v" [WickIndex.of_name "k"; WickIndex.of_name "l"] []
                     WickTensorTypes.Tensor]
    [WickIndex.of_name "l"] 5%float.

(** Operator tensors whose names [conjugate] maps back and forth: a
    creation operator is not called [D] and a destroy operator is not
    called [C]. *)
Definition conjugable (wt : WickTensor.t) : Prop :=
  (WickTensor.type wt = WickTensorTypes.CreationOperator ->
   WickTensor.name wt <> "D"%string)
  /\ (WickTensor.type wt = WickTensorTypes.DestroyOperator ->
      WickTensor.name wt <> "C"%string).

(** Two tensors that [conjugate] treats alike in its second loop: both
    operators, or the same tensor. *)
Definition same_slot (x y : WickTensor.t) : Prop :=
  WickString.is_operator x = WickString.is_operator y
  /\ (WickString.is_operator x = false -> x = y).

(** [C[i] t[i j] D[j]]. *)
Definition term_c_t_d : WickString.t :=
  WickString.mk
    [WickTensor.cre (WickIndex.of_name "i");
     WickTensor.make "t" [WickIndex.of_name "i"; WickIndex.of_name "j"] []
                     WickTensorTypes.Tensor;
     WickTensor.des (WickIndex.of_name "j")]
    [] 1%float.

(** A memory that only counts the matrices allocated by [build] and by
    the constructor and not yet deallocated; a matrix is its "delayed"
    flag.  Used to instantiate the dispatch functions. *)
Module CountingWorld.
Definition is_delayed (m : bool) (w : Z) : bool := m.
Definition build (m : bool) (w : Z) : bool * Z := (false, w + 1).
Definition deallocate (m : bool) (w : Z) : Z := w - 1.
Definition info_of (m : bool) (w : Z) : unit := tt.
Definition new_matrix (i : unit) (w : Z) : bool * Z := (false, w + 1).
Definition kernel3 (cj : Z) (l r mat : bool) (f : float) (w : Z) : Z := w.
Definition kernel_multiply (cj : Z) (l r c v : bool) (q : unit) (f : float)
           (w : Z) : Z := w.
Definition kernel_diagonal (cj : Z) (l r mat : bool) (q : unit) (f : float)
           (w : Z) : Z := w.
Definition iadd (a b : bool) (f : float) (cj : bool) (w : Z) : Z := w.
Definition operands (e : nat) : option bool :=
  match e with
  | O => Some true
  | S O => Some false
  | _ => None
  end.
(** [1.5 * op0 * op1 + 0 + (op0 * (2 op0 + 3 op1))]. *)
Definition example : DelayedTensorFunctions.OpExpr nat :=
  DelayedTensorFunctions.Sum nat
    [DelayedTensorFunctions.Prod nat 0%nat (Some 1%nat) 0 1.5%float;
     DelayedTensorFunctions.Zero;
     DelayedTensorFunctions.SumProd nat (Some 0%nat) None
       [(0%nat, 2%float); (1%nat, 3%float)] [false; true] 0 1%float].
End CountingWorld.

(** The occupation class under which [WickTensor::operator<] compares
    two tensors; it depends on the pair, not on its order. *)
Definition pair_occ_type (a b : WickTensor.t) : WickIndexTypes.t :=
  let occ0 := Z.min (WickTensor.head_type a) (WickTensor.head_type b) in
  let max_type := Z.max (WickTensor.head_type a) (WickTensor.head_type b) in
  if (occ0 =? WickIndexTypes.None) || (occ0 =? WickIndexTypes.External)
     || ((occ0 =? WickIndexTypes.Active)
         && (max_type =? WickIndexTypes.Active))
  then WickIndexTypes.Inactive else occ0.

(** Creation operators on an index [p] that is inactive, inactive or
    active, and active or external. *)
Definition cre_p_I : WickTensor.t := WickTensor.cre (WickIndex.mk "p" 1).
Definition cre_p_IA : WickTensor.t := WickTensor.cre (WickIndex.mk "p" 3).
Definition cre_p_AE : WickTensor.t := WickTensor.cre (WickIndex.mk "p" 6).

(** ** Specification of [simplify_merge]

    Modelled from the spec: section 4.2 describes [simplify_merge] as
    bucketing the terms with identical canonical forms and summing
    their signed and scaled factors, then dropping the terms whose
    accumulated factor is within [1E-12] of zero or that have no
    tensors.  The definitions below say this term by term; they are
    compared with [WickExpr.simplify_merge], which is translated from
    the source. *)

(** [terms[i]], and [sorted[i]]. *)
Definition term_at (l : list WickString.t) (i : nat) : WickString.t :=
  nth i l (WickString.mk [] [] 0%float).

(** The canonical forms of the terms of [e]. *)
Definition canonical (quick_sort : WickString.t -> WickString.t)
           (e : WickExpr.t) : list WickString.t :=
  map (fun x => quick_sort (WickString.abs x)) e.

(** Term [i] opens a group: no earlier term has its canonical form. *)
Definition opens_group (sorted : list WickString.t) (i : nat) : bool :=
  forallb (fun j => negb (WickString.abs_equal_to (term_at sorted i)
                                                  (term_at sorted j)))
          (seq 0 i).

(** What term [j] adds to the factor of the group opened by term [i]:
    its factor with the signs of the two canonical forms, when it has
    the canonical form of [i]. *)
Definition add_term (e sorted : list WickString.t) (i : nat) (acc : float)
           (j : nat) : float :=
  if WickString.abs_equal_to (term_at sorted j) (term_at sorted i)
  then PrimFloat.add acc
         (PrimFloat.mul
            (PrimFloat.mul (WickString.factor (term_at e j))
                           (WickString.factor (term_at sorted j)))
            (WickString.factor (term_at sorted i)))
  else acc.

(** The factor of the group of [i] summed over the terms before [k],
    in the order of the terms, starting from the factor of [i]. *)
Definition factor_upto (e sorted : list WickString.t) (i k : nat) : float :=
  fold_left (add_term e sorted i) (seq (S i) (k - S i))
            (WickString.factor (term_at e i)).

Definition group_factor (e sorted : list WickString.t) (i : nat) : float :=
  factor_upto e sorted i (List.length e).

(** The term that stands for the group of [i] in the result. *)
Definition merged_term (e sorted : list WickString.t) (i : nat)
  : WickString.t :=
  WickString.mk (WickString.tensors (term_at e i))
                (WickString.ctr_indices (term_at e i))
                (group_factor e sorted i).

(** The group of [i] is kept: [i] opens it, the summed factor is above
    [1E-12] in magnitude, and the term has a tensor. *)
Definition kept_group (e sorted : list WickString.t) (i : nat) : bool :=
  opens_group sorted i
  && PrimFloat.ltb WickExpr.epsilon
                   (PrimFloat.abs (group_factor e sorted i))
  && negb (List.length (WickString.tensors (term_at e i)) =? 0)%nat.

(** [2 t[i j] + 3 u[i k] - 2 t[i j] + 4 u[i k] + 1]: the first group
    sums to zero, the second to [7 u[i k]], the last term has no
    tensor. *)
Definition merge_input : WickExpr.t :=
  [term_t_ij;
   term_u_ik;
   WickString.mk (WickString.tensors term_t_ij)
                 (WickString.ctr_indices term_t_ij) (-2)%float;
   WickString.mk (WickString.tensors term_u_ik)
                 (WickString.ctr_indices term_u_ik) 4%float;
   WickString.mk [] [] 1%float].

(** * Theorems *)

(** * Facts about the helpers *)

Lemma list_eqb_eq {A} (eqb : A -> A -> bool) :
  (forall x y, eqb x y = true <-> x = y) ->
  forall a b, list_eqb eqb a b = true <-> a = b.
Proof.
  intros H a; induction a as [|x a IH]; intros [|y b]; simpl;
    try (split; congruence).
  rewrite andb_true_iff, H, IH. split.
  - intros [-> ->]; reflexivity.
  - intros E; inversion E; auto.
Qed.

Lemma wrap16_small z : -32768 <= z < 32768 -> wrap16 z = z.
Proof. intros H. unfold wrap16. rewrite Z.mod_small; lia. Qed.

Lemma zth_nth {A} (l : list A) (i : nat) d : zth l (Z.of_nat i) d = nth i l d.
Proof.
  unfold zth. destruct (Z.ltb_spec (Z.of_nat i) 0); [lia|].
  now rewrite Nat2Z.id.
Qed.

Lemma zth_in_range {A} (l : list A) z d :
  0 <= z < Z.of_nat (List.length l) -> zth l z d = nth (Z.to_nat z) l d.
Proof. intros H. unfold zth. destruct (Z.ltb_spec z 0); [lia|reflexivity]. Qed.

Lemma map_nth_seq {A} (l : list A) d :
  map (fun i => nth i l d) (seq 0 (List.length l)) = l.
Proof.
  apply nth_ext with (d := d) (d' := d).
  - now rewrite length_map, length_seq.
  - intros k Hk. rewrite length_map, length_seq in Hk.
    rewrite (nth_indep _ d (nth 0 l d)) by now rewrite length_map, length_seq.
    rewrite (map_nth (fun i => nth i l d) (seq 0 (List.length l)) 0%nat k).
    now rewrite seq_nth.
Qed.

Lemma nth_map_seq {A} (f : nat -> A) (n i : nat) (d : A) :
  (i < n)%nat -> nth i (map f (seq 0 n)) d = f i.
Proof.
  intros H. rewrite (nth_indep _ d (f 0%nat)) by now rewrite length_map, length_seq.
  rewrite (map_nth f (seq 0 n) 0%nat i). now rewrite seq_nth.
Qed.

(** * [WickPermutation]: the closure computed by [complete_set] *)
Module PermutationFacts.
Import WickPermutation.

Lemma perm_eqb_eq a b : eqb a b = true <-> a = b.
Proof.
  unfold eqb. rewrite andb_true_iff, (list_eqb_eq Z.eqb Z.eqb_eq).
  destruct a as [da na], b as [db nb]; simpl.
  rewrite Bool.eqb_true_iff. split.
  - intros [-> ->]; reflexivity.
  - intros E; inversion E; auto.
Qed.

Lemma existsb_eqb_In h l : existsb (eqb h) l = true <-> In h l.
Proof.
  rewrite existsb_exists. split.
  - intros (x & Hx & E). apply perm_eqb_eq in E. now subst.
  - intros H. exists h. split; [assumption|now apply perm_eqb_eq].
Qed.

Lemma ident_length n : List.length (ident n) = n.
Proof. unfold ident. now rewrite length_map, length_seq. Qed.

Lemma ident_small n : Z.of_nat n <= 32768 -> ident n = map Z.of_nat (seq 0 n).
Proof.
  intros Hn. unfold ident. apply map_ext_in. intros i Hi.
  apply in_seq in Hi. apply wrap16_small. lia.
Qed.

Lemma mul_length a b : List.length (data (mul a b)) = List.length (data a).
Proof. unfold mul; simpl. now rewrite length_map, length_seq. Qed.

(** When the right factor has the size of the left one, the product reads
    the left factor at the entries of the right one. *)
Lemma mul_data a b :
  List.length (data b) = List.length (data a) ->
  data (mul a b) = map (fun x => zth (data a) x 0) (data b).
Proof.
  intros H. unfold mul; simpl. rewrite <- H.
  transitivity (map (fun x => zth (data a) x 0)
                    (map (fun i => nth i (data b) 0)
                         (seq 0 (List.length (data b))))).
  - rewrite map_map. apply map_ext. intros i. now rewrite zth_nth.
  - now rewrite map_nth_seq.
Qed.

(** ** One pass of the inner loop *)

Lemma extend_app g def : forall vwp, exists l, extend g def vwp = vwp ++ l.
Proof.
  unfold extend. induction def as [|d def IH]; intros vwp; simpl.
  - exists []. now rewrite app_nil_r.
  - destruct (existsb (eqb (mul g d)) vwp).
    + apply IH.
    + destruct (IH (vwp ++ [mul g d])) as [l Hl]. rewrite Hl.
      exists (mul g d :: l). now rewrite <- app_assoc.
Qed.

Lemma extend_incl g def vwp x : In x vwp -> In x (extend g def vwp).
Proof.
  intros H. destruct (extend_app g def vwp) as [l ->].
  apply in_or_app; now left.
Qed.

Lemma extend_complete g def : forall vwp d,
  In d def -> In (mul g d) (extend g def vwp).
Proof.
  unfold extend. induction def as [|d0 def IH]; intros vwp d Hd;
    [destruct Hd|]. destruct Hd as [->|Hd]; simpl.
  - destruct (existsb (eqb (mul g d)) vwp) eqn:E.
    + apply existsb_eqb_In in E. now apply (extend_incl g def).
    + apply (extend_incl g def). apply in_or_app; right; now left.
  - now apply IH.
Qed.

Lemma extend_sound g def : forall vwp x,
  In x (extend g def vwp) -> In x vwp \/ exists d, In d def /\ x = mul g d.
Proof.
  unfold extend. induction def as [|d0 def IH]; intros vwp x H; simpl in H.
  - now left.
  - destruct (existsb (eqb (mul g d0)) vwp).
    + destruct (IH _ _ H) as [?|(d & ? & ?)]; [now left|].
      right; exists d; split; [now right|assumption].
    + destruct (IH _ _ H) as [Hin|(d & ? & ?)].
      * apply in_app_or in Hin. destruct Hin as [?|[<-|[]]]; [now left|].
        right; exists d0; split; [now left|reflexivity].
      * right; exists d; split; [now right|assumption].
Qed.

Lemma extend_NoDup g def : forall vwp, NoDup vwp -> NoDup (extend g def vwp).
Proof.
  unfold extend. induction def as [|d0 def IH]; intros vwp H; simpl; auto.
  destruct (existsb (eqb (mul g d0)) vwp) eqn:E; auto.
  apply IH. apply NoDup_app; repeat split; auto.
  - constructor; [intros []|constructor].
  - intros x Hx [<-|[]]. apply existsb_eqb_In in Hx. congruence.
Qed.

(** ** The universe bounds the length of [vwp] *)

Lemma all_lists_length E m :
  List.length (all_lists E m) = (List.length E ^ m)%nat.
Proof.
  induction m as [|m IH]; simpl; auto.
  rewrite length_flat_map.
  assert (H : forall F : list Z,
             list_sum (map (fun x => List.length (map (cons x) (all_lists E m))) F)
             = (List.length F * List.length (all_lists E m))%nat).
  { induction F as [|y F IHF]; simpl; auto.
    rewrite IHF, length_map. reflexivity. }
  rewrite H, IH. reflexivity.
Qed.

Lemma all_lists_In E m l :
  List.length l = m -> Forall (fun x => In x E) l -> In l (all_lists E m).
Proof.
  revert l. induction m as [|m IH]; intros [|x l] Hl HF; simpl in *;
    try discriminate; auto.
  inversion HF; subst. apply in_flat_map. exists x. split; auto.
  apply in_map. apply IH; auto.
Qed.

Lemma universe_length n : List.length (universe n) = (2 * S n ^ n)%nat.
Proof.
  unfold universe. rewrite length_flat_map.
  assert (H : forall F : list (list Z),
             list_sum (map (fun l => List.length [mk l false; mk l true]) F)
             = (2 * List.length F)%nat).
  { induction F as [|y F IHF]; simpl in *; auto. rewrite IHF. lia. }
  rewrite H, all_lists_length. simpl List.length. now rewrite ident_length.
Qed.

Lemma universe_In n p :
  List.length (data p) = n ->
  Forall (fun x => In x (0 :: ident n)) (data p) ->
  In p (universe n).
Proof.
  intros Hl HF. unfold universe. apply in_flat_map. exists (data p). split.
  - now apply all_lists_In.
  - destruct p as [d [|]]; simpl; auto.
Qed.

(** Every entry of a product is an entry of the left factor, or the
    default 0. *)
Lemma mul_entries a b x :
  In x (data (mul a b)) -> x = 0 \/ In x (data a).
Proof.
  unfold mul; simpl. rewrite in_map_iff. intros (i & <- & _).
  generalize (zth (data b) (Z.of_nat i) 0). intros z.
  unfold zth. destruct (z <? 0); [now left|].
  destruct (nth_in_or_default (Z.to_nat z) (data a) 0); auto.
Qed.

Lemma generated_length n def p :
  generated n def p -> List.length (data p) = n.
Proof.
  induction 1.
  - apply ident_length.
  - now rewrite mul_length.
Qed.

Lemma generated_universe n def p : generated n def p -> In p (universe n).
Proof.
  intros G. apply universe_In; [eapply generated_length; eauto|].
  induction G.
  - apply Forall_forall. intros x Hx. now right.
  - apply Forall_forall. intros x Hx.
    destruct (mul_entries _ _ _ Hx) as [->|Hin]; [now left|].
    rewrite Forall_forall in IHG. now apply IHG.
Qed.

(** ** The outer loop *)

Lemma loop_inv_step n def k vwp g :
  loop_inv n def k vwp -> nth_error vwp k = Some g ->
  loop_inv n def (S k) (extend g def vwp).
Proof.
  intros [Hnd Hgen Hdone Hle Hhd] Hg. split.
  - now apply extend_NoDup.
  - intros x Hx. destruct (extend_sound _ _ _ _ Hx) as [?|(d & Hd & ->)]; auto.
    constructor; auto. apply Hgen. eapply nth_error_In; eauto.
  - intros i g' d Hi Hg' Hd.
    destruct (extend_app g def vwp) as [l El].
    assert (Hik : (i < List.length vwp)%nat).
    { apply nth_error_Some. intros E.
      assert (k < List.length vwp)%nat by (apply nth_error_Some; congruence).
      apply nth_error_None in E. lia. }
    rewrite El, nth_error_app1 in Hg' by assumption.
    destruct (Nat.eq_dec i k) as [->|Hne].
    + assert (g' = g) by congruence. subst. now apply extend_complete.
    + apply extend_incl. apply (Hdone i); auto. lia.
  - destruct (extend_app g def vwp) as [l ->]. rewrite length_app.
    assert (k < List.length vwp)%nat by (apply nth_error_Some; congruence).
    lia.
  - now apply extend_incl.
Qed.

Lemma loop_inv_bound n def k vwp :
  loop_inv n def k vwp -> (List.length vwp <= 2 * S n ^ n)%nat.
Proof.
  intros H. rewrite <- universe_length.
  apply NoDup_incl_length; [apply H|].
  intros x Hx. eapply generated_universe. eapply inv_gen; eauto.
Qed.

(** The result of the loop: every element has been multiplied by every
    generator, whatever the budget above the bound. *)
Lemma complete_loop_closed n def : forall fuel k vwp,
  loop_inv n def k vwp ->
  (2 * S n ^ n < fuel + k)%nat ->
  let r := complete_loop fuel def k vwp in
  loop_inv n def (List.length r) r.
Proof.
  induction fuel as [|fuel IH]; intros k vwp Hinv Hfuel; simpl.
  - pose proof (loop_inv_bound _ _ _ _ Hinv). pose proof (inv_le _ _ _ _ Hinv).
    lia.
  - destruct (nth_error vwp k) as [g|] eqn:E.
    + apply IH; [now apply loop_inv_step|lia].
    + apply nth_error_None in E. pose proof (inv_le _ _ _ _ Hinv).
      assert (k = List.length vwp) by lia. now subst.
Qed.

Lemma loop_inv_init n def : loop_inv n def 0 [mk (ident n) false].
Proof.
  split; simpl; auto.
  - constructor; [intros []|constructor].
  - intros x [<-|[]]. constructor.
  - intros; lia.
Qed.

Lemma complete_set_inv n def :
  loop_inv n def (List.length (complete_set n def)) (complete_set n def).
Proof.
  unfold complete_set, complete_budget.
  apply complete_loop_closed; [apply loop_inv_init|lia].
Qed.

(** More budget changes nothing: the loop has stopped by itself. *)
Lemma complete_loop_stable n def : forall fuel k vwp extra,
  loop_inv n def k vwp ->
  (2 * S n ^ n < fuel + k)%nat ->
  complete_loop (fuel + extra) def k vwp = complete_loop fuel def k vwp.
Proof.
  induction fuel as [|fuel IH]; intros k vwp extra Hinv Hfuel.
  - pose proof (loop_inv_bound _ _ _ _ Hinv). pose proof (inv_le _ _ _ _ Hinv).
    lia.
  - simpl. destruct (nth_error vwp k) as [g|] eqn:E; auto.
    apply IH; [now apply loop_inv_step|lia].
Qed.

Lemma complete_set_closed_right n def g d :
  In g (complete_set n def) -> In d def -> In (mul g d) (complete_set n def).
Proof.
  intros Hg Hd. destruct (In_nth_error _ _ Hg) as [i Hi].
  eapply (inv_done _ _ _ _ (complete_set_inv n def)); eauto.
  apply nth_error_Some. congruence.
Qed.

(** ** Permutations *)

Lemma bijection_in_range n l x :
  bijection_on n l -> In x l -> 0 <= x < Z.of_nat n.
Proof. intros (_ & _ & F) Hx. rewrite Forall_forall in F. now apply F. Qed.

Lemma ident_bijection n : Z.of_nat n <= 32768 -> bijection_on n (ident n).
Proof.
  intros Hn. rewrite ident_small by assumption. repeat split.
  - now rewrite length_map, length_seq.
  - apply NoDup_map_NoDup_ForallPairs; [|apply seq_NoDup].
    intros x y _ _ E. lia.
  - apply Forall_forall. intros x Hx. apply in_map_iff in Hx.
    destruct Hx as (i & <- & Hi). apply in_seq in Hi. lia.
Qed.

Lemma mul_bijection n a b :
  bijection_on n (data a) -> bijection_on n (data b) ->
  bijection_on n (data (mul a b)).
Proof.
  intros Ha Hb. pose proof Ha as (La & Na & Fa). pose proof Hb as (Lb & Nb & Fb).
  rewrite mul_data by congruence. repeat split.
  - now rewrite length_map.
  - apply NoDup_map_NoDup_ForallPairs; auto.
    intros x y Hx Hy E.
    pose proof (bijection_in_range _ _ _ Hb Hx).
    pose proof (bijection_in_range _ _ _ Hb Hy).
    rewrite !zth_in_range in E by lia.
    apply (proj1 (NoDup_nth (data a) 0) Na) in E; lia.
  - apply Forall_forall. intros y Hy. apply in_map_iff in Hy.
    destruct Hy as (x & <- & Hx).
    pose proof (bijection_in_range _ _ _ Hb Hx).
    rewrite zth_in_range by lia.
    apply (bijection_in_range _ _ _ Ha). apply nth_In. lia.
Qed.

Lemma generated_bijection n def p :
  Z.of_nat n <= 32768 ->
  Forall (fun d => bijection_on n (data d)) def ->
  generated n def p -> bijection_on n (data p).
Proof.
  intros Hn Hdef G. induction G.
  - now apply ident_bijection.
  - apply mul_bijection; auto. rewrite Forall_forall in Hdef. now apply Hdef.
Qed.

(** ** The group operation *)

Lemma t_eq a b : data a = data b -> negative a = negative b -> a = b.
Proof. destruct a, b; simpl; congruence. Qed.

Lemma mul_ident_r n p :
  Z.of_nat n <= 32768 -> List.length (data p) = n ->
  mul p (mk (ident n) false) = p.
Proof.
  intros Hn Hl. apply t_eq.
  - rewrite mul_data by (simpl; rewrite ident_length; congruence).
    simpl. rewrite ident_small by assumption. rewrite map_map.
    transitivity (map (fun i => nth i (data p) 0)
                      (seq 0 (List.length (data p)))).
    + rewrite Hl. apply map_ext. intros i. apply zth_nth.
    + apply map_nth_seq.
  - simpl. apply xorb_false_r.
Qed.

Lemma mul_assoc n a b c :
  List.length (data a) = n -> List.length (data b) = n ->
  bijection_on n (data c) ->
  mul a (mul b c) = mul (mul a b) c.
Proof.
  intros La Lb Hc. pose proof Hc as (Lc & _ & _). apply t_eq.
  - rewrite (mul_data a (mul b c)) by (rewrite mul_length; congruence).
    rewrite (mul_data b c) by congruence.
    rewrite (mul_data (mul a b) c) by (rewrite mul_length; congruence).
    rewrite map_map. apply map_ext_in. intros x Hx.
    pose proof (bijection_in_range _ _ _ Hc Hx).
    rewrite mul_data by congruence.
    rewrite (zth_in_range (map _ _)) by (rewrite length_map; lia).
    rewrite (nth_indep _ 0 (zth (data a) 0 0)) by (rewrite length_map; lia).
    rewrite (map_nth (fun x => zth (data a) x 0)).
    f_equal. apply zth_in_range. lia.
  - simpl. now rewrite xorb_assoc.
Qed.

Lemma complete_set_closed n def :
  Z.of_nat n <= 32768 ->
  Forall (fun d => bijection_on n (data d)) def ->
  forall q, generated n def q ->
  forall p, In p (complete_set n def) -> In (mul p q) (complete_set n def).
Proof.
  intros Hn Hdef q G. induction G; intros p Hp.
  - rewrite mul_ident_r; auto.
    eapply generated_length, inv_gen; [apply complete_set_inv|eassumption].
  - assert (Lp : List.length (data p) = n).
    { eapply generated_length, inv_gen; [apply complete_set_inv|eassumption]. }
    rewrite (mul_assoc n); auto.
    + apply complete_set_closed_right; auto.
    + eapply generated_length; eauto.
    + rewrite Forall_forall in Hdef. now apply Hdef.
Qed.

(** C4.  For a list [G] of generators that are permutations of
    [{0..n-1}] (with [n] small enough for [int16_t] to hold the indices),
    [complete_set n G] contains the identity, each of its elements is a
    bijection on [{0..n-1}], and the product of any two of its elements is
    one of its elements. *)
Theorem complete_set_is_closed_group (n : nat) (G : list WickPermutation.t) :
  Z.of_nat n <= 32768 ->
  Forall (fun d => bijection_on n (data d)) G ->
  In (identity_perm n) (complete_set n G)
  /\ (forall p, In p (complete_set n G) -> bijection_on n (data p))
  /\ (forall p q, In p (complete_set n G) -> In q (complete_set n G) ->
                  In (mul p q) (complete_set n G)).
Proof.
  intros Hn HG. pose proof (complete_set_inv n G) as Hinv. repeat split.
  - unfold identity_perm. rewrite <- ident_small by assumption. apply Hinv.
  - eapply generated_length, inv_gen; eauto.
  - eapply generated_bijection; eauto. eapply inv_gen; eauto.
  - eapply generated_bijection; eauto. eapply inv_gen; eauto.
  - intros p q Hp Hq. apply complete_set_closed; auto.
    eapply inv_gen; eauto.
Qed.

Lemma complete_set_is_closed_group_witness :
  In (identity_perm 4) (complete_set 4 four_anti)
  /\ (forall p, In p (complete_set 4 four_anti) -> bijection_on 4 (data p))
  /\ (forall p q, In p (complete_set 4 four_anti) ->
                  In q (complete_set 4 four_anti) ->
                  In (mul p q) (complete_set 4 four_anti)).
Proof.
  apply (complete_set_is_closed_group 4 four_anti).
  - simpl; lia.
  - unfold four_anti, bijection_on.
    repeat constructor; simpl; try lia;
      try (intros H; repeat (destruct H as [H|H]; try discriminate H); exact H).
Defined.
End PermutationFacts.

(** * Orders on names, indices and index tuples *)

Lemma ascii_compare_lt_trans a b c :
  Ascii.compare a b = Lt -> Ascii.compare b c = Lt -> Ascii.compare a c = Lt.
Proof.
  unfold Ascii.compare. rewrite !N.compare_lt_iff. lia.
Qed.

Lemma ascii_compare_refl a : Ascii.compare a a = Eq.
Proof. unfold Ascii.compare. apply N.compare_refl. Qed.

Lemma string_compare_refl s : String.compare s s = Eq.
Proof.
  induction s as [|a s IH]; simpl; auto. now rewrite ascii_compare_refl.
Qed.

Lemma string_compare_lt_trans : forall s1 s2 s3,
  String.compare s1 s2 = Lt -> String.compare s2 s3 = Lt ->
  String.compare s1 s3 = Lt.
Proof.
  induction s1 as [|a s1 IH]; intros [|b s2] [|c s3]; simpl; try congruence.
  destruct (Ascii.compare a b) eqn:Eab; try discriminate;
    destruct (Ascii.compare b c) eqn:Ebc; try discriminate; intros H1 H2.
  - apply Ascii.compare_eq_iff in Eab, Ebc. subst.
    rewrite ascii_compare_refl. eapply IH; eauto.
  - apply Ascii.compare_eq_iff in Eab. subst. now rewrite Ebc.
  - apply Ascii.compare_eq_iff in Ebc. subst. now rewrite Eab.
  - now rewrite (ascii_compare_lt_trans _ _ _ Eab Ebc).
Qed.

Lemma string_ltb_irrefl s : String.ltb s s = false.
Proof. unfold String.ltb. now rewrite string_compare_refl. Qed.

Lemma string_ltb_trans s1 s2 s3 :
  String.ltb s1 s2 = true -> String.ltb s2 s3 = true -> String.ltb s1 s3 = true.
Proof.
  unfold String.ltb.
  destruct (String.compare s1 s2) eqn:E1; try discriminate.
  destruct (String.compare s2 s3) eqn:E2; try discriminate.
  now rewrite (string_compare_lt_trans _ _ _ E1 E2).
Qed.

Lemma string_ltb_total s1 s2 :
  String.ltb s1 s2 = false -> String.ltb s2 s1 = false -> s1 = s2.
Proof.
  unfold String.ltb. rewrite (String.compare_antisym s2 s1).
  destruct (String.compare s1 s2) eqn:E; simpl; try discriminate.
  intros _ _. now apply String.compare_eq_iff.
Qed.

Module IndexOrder.
Import WickIndex.

Lemma index_eqb_eq a b : eqb a b = true <-> a = b.
Proof.
  unfold eqb. rewrite andb_true_iff, String.eqb_eq, Z.eqb_eq.
  destruct a, b; simpl. split; [intros [-> ->]; reflexivity|].
  intros E; inversion E; auto.
Qed.

Lemma eqb_refl a : eqb a a = true.
Proof. now apply index_eqb_eq. Qed.

Lemma neqb_negb a b : neqb a b = negb (eqb a b).
Proof. unfold neqb, eqb. now rewrite negb_andb. Qed.

Lemma ltb_irrefl a : ltb a a = false.
Proof. unfold ltb. rewrite Z.eqb_refl. apply string_ltb_irrefl. Qed.

Lemma ltb_trans a b c : ltb a b = true -> ltb b c = true -> ltb a c = true.
Proof.
  unfold ltb.
  destruct (Z.eqb_spec (types a) (types b)) as [E1|N1];
    destruct (Z.eqb_spec (types b) (types c)) as [E2|N2];
    destruct (Z.eqb_spec (types a) (types c)) as [E3|N3];
    rewrite ?Z.ltb_lt; try lia; try congruence.
  apply string_ltb_trans.
Qed.

Lemma ltb_total a b : ltb a b = false -> ltb b a = false -> a = b.
Proof.
  unfold ltb. rewrite (Z.eqb_sym (types b)).
  destruct (Z.eqb_spec (types a) (types b)) as [E|N].
  - intros H1 H2. destruct a, b; simpl in *. subst.
    f_equal. now apply string_ltb_total.
  - rewrite !Z.ltb_ge. lia.
Qed.
End IndexOrder.

Section Lexicographic.
Context {A : Type} (ltb : A -> A -> bool).
Hypothesis ltb_irrefl : forall a, ltb a a = false.
Hypothesis ltb_trans :
  forall a b c, ltb a b = true -> ltb b c = true -> ltb a c = true.
Hypothesis ltb_total : forall a b, ltb a b = false -> ltb b a = false -> a = b.

Lemma lex_ltb_irrefl l : lex_ltb ltb l l = false.
Proof. induction l as [|x l IH]; simpl; auto. now rewrite ltb_irrefl. Qed.

Lemma lex_ltb_trans : forall l1 l2 l3,
  lex_ltb ltb l1 l2 = true -> lex_ltb ltb l2 l3 = true ->
  lex_ltb ltb l1 l3 = true.
Proof.
  induction l1 as [|x l1 IH]; intros [|y l2] [|z l3]; simpl;
    try congruence.
  destruct (ltb x y) eqn:Exy.
  - intros _. destruct (ltb y z) eqn:Eyz.
    + intros _. now rewrite (ltb_trans _ _ _ Exy Eyz).
    + destruct (ltb z y) eqn:Ezy; [discriminate|].
      rewrite (ltb_total _ _ Eyz Ezy) in Exy. now rewrite Exy.
  - destruct (ltb y x) eqn:Eyx; [discriminate|].
    rewrite (ltb_total _ _ Exy Eyx). intros H1.
    destruct (ltb y z); auto. destruct (ltb z y); [discriminate|]. eauto.
Qed.
End Lexicographic.

Lemma tuple_ltb_irrefl l : tuple_ltb l l = false.
Proof. exact (lex_ltb_irrefl _ IndexOrder.ltb_irrefl l). Qed.

Lemma tuple_ltb_trans l1 l2 l3 :
  tuple_ltb l1 l2 = true -> tuple_ltb l2 l3 = true -> tuple_ltb l1 l3 = true.
Proof.
  exact (lex_ltb_trans _ IndexOrder.ltb_trans IndexOrder.ltb_total l1 l2 l3).
Qed.

(** * [WickTensor::sort] *)
Module TensorSortFacts.
Import WickTensor.

Local Abbreviation pdata := WickPermutation.data.

Lemma mul_indices a p :
  indices (mul a p)
  = map (fun i => idx_at (indices a) (zth (pdata p) (Z.of_nat i) 0))
        (seq 0 (List.length (indices a))).
Proof. reflexivity. Qed.

Lemma mul_indices_length a p :
  List.length (indices (mul a p)) = List.length (indices a).
Proof. rewrite mul_indices. now rewrite length_map, length_seq. Qed.

Lemma mul_perms a p :
  perms (mul a p)
  = reset_permutations (indices (mul a p))
      (WickPermutation.complete_set (List.length (indices (mul a p))) (perms a)).
Proof. reflexivity. Qed.

Lemma sort_fold_kept a : forall l seen st,
  (forall p, In p l -> In p (perms a)) ->
  kept a seen st ->
  kept a (seen ++ l) (fold_left (sort_step a) l st).
Proof.
  induction l as [|q l IH]; intros seen st Hl Hk; simpl.
  - now rewrite app_nil_r.
  - replace (seen ++ q :: l) with ((seen ++ [q]) ++ l)
      by now rewrite <- app_assoc.
    apply IH; [intros; apply Hl; now right|].
    destruct Hk as [Hshape Hmin]. unfold sort_step.
    fold tuple_ltb.
    destruct (tuple_ltb (indices (mul a q)) (indices (fst st))) eqn:E.
    + split; simpl.
      * right. exists q. split; [apply Hl; now left|reflexivity].
      * intros p Hp. apply in_app_or in Hp. destruct Hp as [Hp|[<-|[]]].
        -- destruct (tuple_ltb (indices (mul a p)) (indices (mul a q))) eqn:F;
             auto.
           pose proof (tuple_ltb_trans _ _ _ F E) as T.
           rewrite (Hmin p Hp) in T. discriminate.
        -- apply tuple_ltb_irrefl.
    + split; auto.
      intros p Hp. apply in_app_or in Hp. destruct Hp as [Hp|[<-|[]]]; auto.
Qed.

Lemma sort_fold_fixed a : forall l st,
  (forall p, In p l ->
     tuple_ltb (indices (mul a p)) (indices (fst st)) = false) ->
  fold_left (sort_step a) l st = st.
Proof.
  induction l as [|q l IH]; intros st H; simpl; auto.
  unfold sort_step at 2. fold tuple_ltb. rewrite (H q) by now left.
  apply IH. intros p Hp. apply H. now right.
Qed.

(** With a closed list of in-range permutations, the closure adds at
    most the identity. *)
Lemma generated_closed a q :
  Z.of_nat (List.length (indices a)) <= 32768 ->
  perms_in_range a -> perms_closed a ->
  generated (List.length (indices a)) (perms a) q ->
  q = WickPermutation.mk (WickPermutation.ident (List.length (indices a))) false
  \/ In q (perms a).
Proof.
  intros Hn Hr Hc G. induction G as [|g d G IH Hd]; [now left|].
  right. destruct IH as [->|Hg]; [|now apply Hc].
  replace (WickPermutation.mul _ d) with d; auto.
  destruct (Hr d Hd) as [Ld Fd]. symmetry.
  apply PermutationFacts.t_eq; [|reflexivity].
  rewrite PermutationFacts.mul_data
    by (simpl; now rewrite PermutationFacts.ident_length).
  simpl. rewrite PermutationFacts.ident_small by assumption.
  transitivity (map (fun x : Z => x) (pdata d)); [|apply map_id].
  apply map_ext_in. intros x Hx.
  rewrite Forall_forall in Fd. specialize (Fd x Hx).
  rewrite zth_in_range by (rewrite length_map, length_seq; lia).
  rewrite nth_map_seq by lia. lia.
Qed.

Lemma idx_at_nth l z :
  0 <= z < Z.of_nat (List.length l) ->
  idx_at l z = nth (Z.to_nat z) l default_index.
Proof. intros H. unfold idx_at. now apply zth_in_range. Qed.

(** Permuting the image of [a] under [p] by [q] is permuting [a] by the
    product. *)
Lemma mul_mul_indices a p q :
  List.length (pdata p) = List.length (indices a) ->
  List.length (pdata q) = List.length (indices a) ->
  Forall (fun x => 0 <= x < Z.of_nat (List.length (indices a))) (pdata q) ->
  indices (mul (mul a p) q) = indices (mul a (WickPermutation.mul p q)).
Proof.
  intros Lp Lq Fq. rewrite (mul_indices (mul a p)), mul_indices_length.
  rewrite (mul_indices a (WickPermutation.mul p q)).
  apply map_ext_in. intros i Hi. apply in_seq in Hi.
  rewrite zth_nth.
  assert (Hx : 0 <= nth i (pdata q) 0 < Z.of_nat (List.length (indices a))).
  { rewrite Forall_forall in Fq. apply Fq, nth_In. lia. }
  rewrite idx_at_nth by (rewrite mul_indices_length; lia).
  rewrite mul_indices, nth_map_seq by lia.
  rewrite Z2Nat.id by lia. f_equal.
  unfold WickPermutation.mul. cbn [WickPermutation.data].
  rewrite zth_nth, nth_map_seq by lia. now rewrite zth_nth.
Qed.

Lemma mul_ident_indices a :
  Z.of_nat (List.length (indices a)) <= 32768 ->
  indices (mul a (WickPermutation.mk
                    (WickPermutation.ident (List.length (indices a))) false))
  = indices a.
Proof.
  intros Hn. rewrite mul_indices. cbn [WickPermutation.data].
  rewrite PermutationFacts.ident_small by assumption.
  transitivity (map (fun i => nth i (indices a) default_index)
                    (seq 0 (List.length (indices a))));
    [|apply map_nth_seq].
  apply map_ext_in. intros i Hi. apply in_seq in Hi.
  rewrite zth_nth, nth_map_seq by lia.
  unfold idx_at. now rewrite zth_nth.
Qed.

Lemma sort_sort (a : WickTensor.t) (f : float) :
  Z.of_nat (List.length (indices a)) <= 32768 ->
  perms_in_range a -> perms_closed a ->
  sort (fst (sort a f)) (snd (sort a f)) = sort a f.
Proof.
  intros Hn Hr Hc. unfold sort at 2 3 4.
  pose proof (sort_fold_kept a (perms a) [] (a, false) (fun p H => H)) as K.
  destruct (fold_left (sort_step a) (perms a) (a, false)) as [x neg] eqn:E.
  simpl fst; simpl snd.
  destruct K as [Hshape Hmin]; [split; [now left|intros p []]|].
  simpl in Hshape, Hmin.
  unfold sort.
  rewrite (sort_fold_fixed x (perms x) (x, false)); [reflexivity|].
  simpl fst. intros q Hq.
  destruct Hshape as [[-> _]|(p0 & Hp0 & ->)].
  - now apply Hmin.
  - rewrite mul_perms in Hq. apply filter_In in Hq. destruct Hq as [Hq _].
    rewrite mul_indices_length in Hq.
    pose proof (inv_gen _ _ _ _
                  (PermutationFacts.complete_set_inv _ (perms a)) q Hq) as G.
    destruct (generated_closed a q Hn Hr Hc G) as [->|Hqa].
    + rewrite <- (mul_indices_length a p0) at 1.
      rewrite mul_ident_indices by (rewrite mul_indices_length; assumption).
      apply tuple_ltb_irrefl.
    + destruct (Hr p0 Hp0) as [Lp _]. destruct (Hr q Hqa) as [Lq Fq].
      rewrite mul_mul_indices by assumption.
      apply Hmin. now apply Hc.
Qed.

(** C6 (amended).  For a tensor whose permutation list is closed under
    the product and made of in-range permutations (as the constructor
    builds it when the index types filter no permutation out), sorting the
    sorted tensor returns the same tensor and the same factor. *)
Theorem sort_idempotent_closed (a : WickTensor.t) (f : float) :
  Z.of_nat (List.length (indices a)) <= 32768 ->
  perms_in_range a -> perms_closed a ->
  let '(t1, f1) := sort a f in
  sort t1 f1 = (t1, f1) /\ eqb (fst (sort t1 f1)) t1 = true.
Proof.
  intros Hn Hr Hc. pose proof (sort_sort a f Hn Hr Hc) as H.
  destruct (sort a f) as [t1 f1]. simpl in H. rewrite H. split; auto.
  simpl. unfold eqb. rewrite String.eqb_refl.
  rewrite (proj2 (list_eqb_eq _ IndexOrder.index_eqb_eq _ _) eq_refl).
  unfold WickTensorTypes.eqb. now rewrite Z.eqb_refl.
Qed.

Lemma sort_idempotent_closed_witness :
  let '(t1, f1) := sort v_badc 1%float in
  sort t1 f1 = (t1, f1) /\ eqb (fst (sort t1 f1)) t1 = true.
Proof.
  apply (sort_idempotent_closed v_badc 1%float).
  - simpl. lia.
  - intros p Hp. vm_compute in Hp.
    repeat (destruct Hp as [<-|Hp]; [split; [reflexivity|];
                                     repeat constructor; simpl; lia|]).
    destruct Hp.
  - intros p q Hp Hq. vm_compute in Hp, Hq.
    repeat (destruct Hp as [<-|Hp];
            [repeat (destruct Hq as [<-|Hq]; [vm_compute; tauto|]);
             destruct Hq|]).
    destruct Hp.
Defined.

(** C6 as stated fails: the sorted [t_bac] has the index tuple [a b c],
    and sorting it again gives [a c b]. *)
Lemma sort_not_idempotent :
  let '(t1, f1) := sort t_bac 1%float in
  map WickIndex.name (indices t1) = ["a"; "b"; "c"]%string
  /\ map WickIndex.name (indices (fst (sort t1 f1))) = ["a"; "c"; "b"]%string
  /\ eqb (fst (sort t1 f1)) t1 = false.
Proof. vm_compute. repeat split. Qed.

(** The constructor gives such a permutation list whenever the indices
    are typeless: no permutation of the closure is filtered out. *)
Lemma perm_valid_typeless ixs p :
  Forall (fun i => WickIndex.types i = WickIndexTypes.None) ixs ->
  perm_valid ixs p = true.
Proof.
  intros Hty. unfold perm_valid. apply forallb_forall. intros i Hi.
  apply in_seq in Hi. unfold slot_conflict.
  rewrite Forall_forall in Hty.
  rewrite (Hty (nth i ixs default_index)) by (apply nth_In; lia).
  now rewrite Z.eqb_refl, andb_false_r.
Qed.

Lemma make_typeless_closed name ixs G ty :
  Z.of_nat (List.length ixs) <= 32768 ->
  Forall (fun d => bijection_on (List.length ixs) (pdata d)) G ->
  Forall (fun i => WickIndex.types i = WickIndexTypes.None) ixs ->
  perms_in_range (make name ixs G ty) /\ perms_closed (make name ixs G ty).
Proof.
  intros Hn HG Hty.
  assert (Hperms : perms (make name ixs G ty)
                   = WickPermutation.complete_set (List.length ixs) G).
  { cbn [make perms]. unfold reset_permutations.
    apply forallb_filter_id. apply forallb_forall.
    intros p _. now apply perm_valid_typeless. }
  pose proof (PermutationFacts.complete_set_inv (List.length ixs) G) as Hinv.
  split.
  - intros p Hp. rewrite Hperms in Hp. cbn [make indices].
    destruct (PermutationFacts.generated_bijection _ _ p Hn HG
                (inv_gen _ _ _ _ Hinv p Hp)) as (Hl & _ & Hr).
    auto.
  - intros p q Hp Hq. rewrite Hperms in *.
    apply PermutationFacts.complete_set_closed; auto.
    exact (inv_gen _ _ _ _ Hinv q Hq).
Qed.

Lemma sort_sort_typeless name ixs G ty f :
  Z.of_nat (List.length ixs) <= 32768 ->
  Forall (fun d => bijection_on (List.length ixs) (pdata d)) G ->
  Forall (fun i => WickIndex.types i = WickIndexTypes.None) ixs ->
  let a := make name ixs G ty in
  sort (fst (sort a f)) (snd (sort a f)) = sort a f.
Proof.
  intros Hn HG Hty a.
  destruct (make_typeless_closed name ixs G ty Hn HG Hty) as [Hr Hc].
  apply sort_sort; auto.
Qed.
End TensorSortFacts.

(** * [WickString::simplify_delta] *)
Module DeltaFacts.
Import WickString.

Lemma is_delta_set_indices w l : is_delta (set_indices w l) = is_delta w.
Proof. reflexivity. Qed.

Lemma delta_step_other st k :
  is_delta (nth k (xtensors st) default_tensor) = false ->
  delta_step st k
  = mk_delta_state (xtensors st) (xctr_indices st) (xfactor st)
                   (xidxs st ++ [k]).
Proof. intros H. unfold delta_step. now rewrite H. Qed.

Lemma fold_delta_step_others : forall len start st,
  (forall k, (start <= k < start + len)%nat ->
             is_delta (nth k (xtensors st) default_tensor) = false) ->
  fold_left delta_step (seq start len) st
  = mk_delta_state (xtensors st) (xctr_indices st) (xfactor st)
                   (xidxs st ++ seq start len).
Proof.
  induction len as [|len IH]; intros start st H; simpl.
  - rewrite app_nil_r. now destruct st.
  - rewrite delta_step_other by (apply H; lia).
    rewrite IH; simpl.
    + now rewrite <- app_assoc.
    + intros k Hk. apply H. lia.
Qed.

Lemma replace_except_app ia ib ic pre d post :
  replace_except (List.length pre) ia ib ic (pre ++ d :: post)
  = map (fun v => set_indices v
                    (map (replace_index ia ib ic) (WickTensor.indices v))) pre
    ++ d :: map (fun v => set_indices v
                            (map (replace_index ia ib ic)
                                 (WickTensor.indices v))) post.
Proof. induction pre as [|w pre IH]; simpl; auto. now rewrite IH. Qed.

Lemma map_nth_prefix {A} (pre post : list A) d :
  map (fun j => nth j (pre ++ post) d) (seq 0 (List.length pre)) = pre.
Proof.
  transitivity (map (fun j => nth j pre d) (seq 0 (List.length pre)));
    [|apply map_nth_seq].
  apply map_ext_in. intros j Hj. apply in_seq in Hj.
  apply app_nth1. lia.
Qed.

Lemma map_seq_add {A} (f : nat -> A) (a : nat) : forall n s,
  map f (seq (a + s) n) = map (fun j => f (a + j)%nat) (seq s n).
Proof.
  induction n as [|n IH]; intros s; simpl; auto.
  f_equal. rewrite <- IH. now rewrite Nat.add_succ_r.
Qed.

Lemma map_nth_suffix {A} (pre post : list A) x d :
  map (fun j => nth j (pre ++ x :: post) d)
      (seq (S (List.length pre)) (List.length post)) = post.
Proof.
  transitivity (map (fun j => nth j post d) (seq 0 (List.length post)));
    [|apply map_nth_seq].
  replace (S (List.length pre)) with (S (List.length pre) + 0)%nat by lia.
  rewrite map_seq_add. apply map_ext. intros j.
  rewrite app_nth2 by lia.
  now replace (S (List.length pre) + j - List.length pre)%nat with (S j) by lia.
Qed.

Lemma nth_nondelta l k :
  Forall (fun w => is_delta w = false) l -> (k < List.length l)%nat ->
  is_delta (nth k l default_tensor) = false.
Proof.
  intros F Hk. rewrite Forall_forall in F. apply F. now apply nth_In.
Qed.

(** The run of the loop on a term whose only delta is [d], when the two
    indices of [d] differ, do not conflict, and one is summed. *)
Lemma simplify_delta_one pre d post ctr f :
  Forall (fun w => is_delta w = false) pre ->
  Forall (fun w => is_delta w = false) post ->
  is_delta d = true ->
  WickIndex.neqb (index0 d) (index1 d) = true ->
  types_conflict (index0 d) (index1 d) = false ->
  negb (IndexSet.count ctr (index0 d)) && negb (IndexSet.count ctr (index1 d))
  = false ->
  let ty := WickIndexTypes.and (WickIndex.types (index0 d))
                               (WickIndex.types (index1 d)) in
  let ic := if IndexSet.count ctr (index0 d)
            then WickIndex.mk (WickIndex.name (index1 d)) ty
            else WickIndex.mk (WickIndex.name (index0 d)) ty in
  let sub := fun v => set_indices v
                        (map (replace_index (index0 d) (index1 d) ic)
                             (WickTensor.indices v)) in
  simplify_delta (mk (pre ++ d :: post) ctr f)
  = mk (map sub pre ++ map sub post)
       (if IndexSet.count ctr (index0 d)
        then IndexSet.erase (index0 d) ctr
        else IndexSet.erase (index1 d) ctr)
       f.
Proof.
  intros Fpre Fpost Hd Hne Hnc Hsum ty ic sub.
  unfold simplify_delta. cbn [tensors ctr_indices factor].
  rewrite length_app. cbn [List.length].
  rewrite seq_app, fold_left_app. cbn [Nat.add seq fold_left].
  set (ctr' := if IndexSet.count ctr (index0 d)
               then IndexSet.erase (index0 d) ctr
               else IndexSet.erase (index1 d) ctr).
  assert (E1 : fold_left delta_step (seq 0 (List.length pre))
                 (mk_delta_state (pre ++ d :: post) ctr f [])
               = mk_delta_state (pre ++ d :: post) ctr f
                                (seq 0 (List.length pre))).
  { rewrite fold_delta_step_others; [reflexivity|].
    cbn [xtensors]. intros k Hk. rewrite app_nth1 by lia.
    apply nth_nondelta; auto. lia. }
  rewrite E1. clear E1.
  assert (E2 : delta_step (mk_delta_state (pre ++ d :: post) ctr f
                                          (seq 0 (List.length pre)))
                          (List.length pre)
               = mk_delta_state (map sub pre ++ d :: map sub post) ctr' f
                                (seq 0 (List.length pre))).
  { unfold delta_step. cbn [xtensors xctr_indices xfactor xidxs].
    rewrite nth_middle, Hd, Hne, Hnc, Hsum.
    fold ty. unfold ctr', sub, ic.
    destruct (IndexSet.count ctr (index0 d));
      cbn [xtensors]; now rewrite replace_except_app. }
  rewrite E2. clear E2.
  rewrite fold_delta_step_others; cbn [xtensors xctr_indices xfactor xidxs].
  2:{ intros k Hk.
      rewrite app_nth2 by (rewrite length_map; lia). rewrite length_map.
      destruct (k - List.length pre)%nat as [|m] eqn:Em; [lia|].
      cbn [nth].
      rewrite (nth_indep _ default_tensor (sub default_tensor))
        by (rewrite length_map; lia).
      rewrite map_nth. unfold sub. rewrite is_delta_set_indices.
      apply nth_nondelta; auto. lia. }
  f_equal. rewrite map_app. f_equal.
  - rewrite <- (length_map sub pre). apply map_nth_prefix.
  - rewrite <- (length_map sub pre), <- (length_map sub post).
    apply map_nth_suffix.
Qed.

Lemma count_differ_neqb ctr i j :
  IndexSet.count ctr i = true -> IndexSet.count ctr j = false ->
  WickIndex.neqb i j = true /\ WickIndex.neqb j i = true.
Proof.
  intros Hi Hj. rewrite !IndexOrder.neqb_negb.
  destruct (WickIndex.eqb i j) eqn:E.
  - apply IndexOrder.index_eqb_eq in E. congruence.
  - split; auto. destruct (WickIndex.eqb j i) eqn:F; auto.
    apply IndexOrder.index_eqb_eq in F. subst. rewrite IndexOrder.eqb_refl in E.
    discriminate.
Qed.

Lemma types_conflict_sym i j : types_conflict i j = types_conflict j i.
Proof.
  unfold types_conflict, WickIndexTypes.and.
  now rewrite Z.land_comm, orb_comm.
Qed.

(** ** A delta between conflicting types zeroes the term *)

Lemma clash_conflict w :
  clash w ->
  WickIndex.neqb (index0 w) (index1 w) = true
  /\ types_conflict (index0 w) (index1 w) = true.
Proof.
  intros [_ H]. split; [|assumption].
  rewrite IndexOrder.neqb_negb.
  destruct (WickIndex.eqb (index0 w) (index1 w)) eqn:E; auto.
  apply IndexOrder.index_eqb_eq in E. rewrite <- E in H.
  unfold types_conflict, WickIndexTypes.and, WickIndexTypes.None in H.
  rewrite Z.land_diag, orb_diag in H.
  destruct (WickIndex.types (index0 w) =? 0); discriminate.
Qed.

Lemma land_land_zero a b c : Z.land a c = 0 -> Z.land (Z.land a b) c = 0.
Proof.
  intros H. rewrite <- Z.land_assoc, (Z.land_comm b c), Z.land_assoc, H.
  apply Z.land_0_l.
Qed.

(** A substitution done for another, non-conflicting delta keeps the
    clash. *)
Lemma clash_replace ia ib ic_name w :
  types_conflict ia ib = false ->
  clash w ->
  clash (set_indices w
           (map (replace_index ia ib
                   (WickIndex.mk ic_name
                      (WickIndexTypes.and (WickIndex.types ia)
                                          (WickIndex.types ib))))
                (WickTensor.indices w))).
Proof.
  intros Hnc [Hd Hw].
  unfold clash, index0, index1 in *. rewrite is_delta_set_indices.
  split; [assumption|].
  cbn [set_indices WickTensor.indices].
  assert (Hx : forall z, WickIndex.eqb z ia || WickIndex.eqb z ib = true ->
                 z = ia \/ z = ib).
  { intros z Hz. apply orb_true_iff in Hz.
    destruct Hz as [Hz|Hz]; apply IndexOrder.index_eqb_eq in Hz; auto. }
  assert (Hnth : forall k,
             nth k (map (replace_index ia ib
                           (WickIndex.mk ic_name
                              (WickIndexTypes.and (WickIndex.types ia)
                                                  (WickIndex.types ib))))
                        (WickTensor.indices w)) WickTensor.default_index
             = let z := nth k (WickTensor.indices w) WickTensor.default_index in
               if (k <? List.length (WickTensor.indices w))%nat
               then replace_index ia ib
                      (WickIndex.mk ic_name
                         (WickIndexTypes.and (WickIndex.types ia)
                                             (WickIndex.types ib))) z
               else z).
  { intros k. cbv zeta.
    destruct (Nat.ltb_spec k (List.length (WickTensor.indices w))).
    - rewrite (nth_indep _ _ (replace_index ia ib
                                (WickIndex.mk ic_name
                                   (WickIndexTypes.and (WickIndex.types ia)
                                                       (WickIndex.types ib)))
                                WickTensor.default_index))
        by now rewrite length_map.
      apply map_nth.
    - rewrite !nth_overflow; auto. now rewrite length_map. }
  rewrite !Hnth. cbv zeta. clear Hnth. revert Hw.
  generalize (nth 0 (WickTensor.indices w) WickTensor.default_index),
             (nth 1 (WickTensor.indices w) WickTensor.default_index).
  intros x y Hw.
  unfold types_conflict, WickIndexTypes.and, WickIndexTypes.None in *.
  assert (Hnc' : (WickIndex.types ia = 0 /\ WickIndex.types ib = 0)
                 \/ Z.land (WickIndex.types ia) (WickIndex.types ib) <> 0).
  { apply andb_false_iff in Hnc. destruct Hnc as [Hnc|Hnc].
    - left. apply orb_false_iff in Hnc. destruct Hnc as [Ha Hb].
      apply negb_false_iff, Z.eqb_eq in Ha, Hb. auto.
    - right. now apply Z.eqb_neq. }
  apply andb_true_iff in Hw. destruct Hw as [Hty Hland].
  apply Z.eqb_eq in Hland.
  assert (Hty' : WickIndex.types x <> 0 \/ WickIndex.types y <> 0).
  { apply orb_true_iff in Hty.
    destruct Hty as [H|H]; apply negb_true_iff, Z.eqb_neq in H; auto. }
  clear Hty Hnc.
  assert (Hgoal : forall tx ty : Z,
             (tx <> 0 \/ ty <> 0) -> Z.land tx ty = 0 ->
             (negb (tx =? 0) || negb (ty =? 0)) && (Z.land tx ty =? 0) = true).
  { intros tx ty Ht Hl. rewrite Hl, Z.eqb_refl, andb_true_r.
    apply orb_true_iff.
    destruct Ht as [H|H]; [left|right]; now apply negb_true_iff, Z.eqb_neq. }
  assert (Hmerge : forall z u, z = ia \/ z = ib ->
             Z.land (WickIndex.types z) u = 0 ->
             Z.land (Z.land (WickIndex.types ia) (WickIndex.types ib)) u = 0).
  { intros z u [->| ->] Hu.
    - now apply land_land_zero.
    - rewrite (Z.land_comm (WickIndex.types ia)). now apply land_land_zero. }
  assert (Htyped : forall z, z = ia \/ z = ib -> WickIndex.types z <> 0 ->
             Z.land (WickIndex.types ia) (WickIndex.types ib) <> 0).
  { intros z Hz Hzt. destruct Hnc' as [[Ha Hb]|H]; [|assumption].
    destruct Hz; subst; contradiction. }
  unfold replace_index.
  destruct (0 <? List.length (WickTensor.indices w))%nat;
    destruct (1 <? List.length (WickTensor.indices w))%nat;
    try (destruct (WickIndex.eqb x ia || WickIndex.eqb x ib) eqn:Ex);
    try (destruct (WickIndex.eqb y ia || WickIndex.eqb y ib) eqn:Ey);
    cbn [WickIndex.types];
    first
      [ apply Hgoal; assumption
      | (* only the first side is replaced *)
        solve [apply Hx in Ex; apply Hgoal;
               [destruct Hty' as [H|H];
                [left; now apply (Htyped x)|now right]
               |now apply (Hmerge x)]]
      | (* only the second side is replaced *)
        solve [apply Hx in Ey; apply Hgoal;
               [destruct Hty' as [H|H];
                [now left|right; now apply (Htyped y)]
               |rewrite Z.land_comm; apply (Hmerge y); auto;
                now rewrite Z.land_comm]]
      | (* both sides replaced: the two deltas have the same sides *)
        exfalso; apply Hx in Ex, Ey;
        destruct Ex as [-> | ->], Ey as [-> | ->];
        rewrite ?Z.land_diag in Hland;
        try rewrite (Z.land_comm (WickIndex.types ib) (WickIndex.types ia))
          in Hland;
        destruct Hnc' as [[Ha Hb]|Hn]; destruct Hty' as [H|H];
        congruence ].
Qed.

Lemma replace_except_length i ia ib ic : forall l,
  List.length (replace_except i ia ib ic l) = List.length l.
Proof.
  revert i. induction i as [|i IH]; intros [|w l]; simpl; auto.
  now rewrite length_map.
Qed.

Lemma replace_except_nth ia ib ic : forall i l p,
  nth p (replace_except i ia ib ic l) default_tensor
  = if (p =? i)%nat then nth p l default_tensor
    else if (p <? List.length l)%nat
         then set_indices (nth p l default_tensor)
                (map (replace_index ia ib ic)
                     (WickTensor.indices (nth p l default_tensor)))
         else default_tensor.
Proof.
  induction i as [|i IH]; intros [|w l] [|p]; simpl; auto;
    try (destruct (p =? i)%nat; reflexivity).
  - set (sub := fun v => set_indices v (map (replace_index ia ib ic)
                                           (WickTensor.indices v))).
    destruct (Nat.ltb_spec (S p) (S (List.length l))).
    + rewrite (nth_indep _ default_tensor (sub default_tensor))
        by (rewrite length_map; lia).
      now rewrite map_nth.
    + apply nth_overflow. rewrite length_map. lia.
Qed.

Lemma delta_step_zero st k : xfactor st = 0%float ->
  xfactor (delta_step st k) = 0%float.
Proof.
  intros H. unfold delta_step.
  repeat match goal with
         | |- context [if ?c then _ else _] => destruct c
         | |- context [let '(_, _) := ?c in _] => destruct c
         end; simpl; auto.
Qed.

Lemma delta_step_pending p st k :
  (k < p)%nat -> clash_pending p st -> clash_pending p (delta_step st k).
Proof.
  intros Hk [Hz|[Hp Hc]]; [left; now apply delta_step_zero|].
  unfold delta_step.
  destruct (is_delta (nth k (xtensors st) default_tensor));
    [|right; now split].
  destruct (WickIndex.neqb _ _); [|right; now split].
  destruct (types_conflict _ _) eqn:Hnc; [now left|].
  destruct (negb _ && negb _).
  - destruct (existsb _ _); right; now split.
  - right.
    destruct (IndexSet.count _ _); cbn [xtensors];
      rewrite replace_except_length, replace_except_nth;
      (split; [assumption|]);
      replace (p =? k)%nat with false by (symmetry; apply Nat.eqb_neq; lia);
      replace (p <? List.length (xtensors st))%nat with true
        by (symmetry; now apply Nat.ltb_lt);
      now apply clash_replace.
Qed.

Lemma delta_step_clash p st :
  clash_pending p st -> xfactor (delta_step st p) = 0%float.
Proof.
  intros [Hz|[Hp Hc]]; [now apply delta_step_zero|].
  destruct (clash_conflict _ Hc) as [Hne Hcf]. destruct Hc as [Hd _].
  unfold delta_step. now rewrite Hd, Hne, Hcf.
Qed.

Lemma fold_delta_step_zero : forall l st,
  xfactor st = 0%float -> xfactor (fold_left delta_step l st) = 0%float.
Proof.
  induction l as [|k l IH]; intros st H; simpl; auto.
  apply IH. now apply delta_step_zero.
Qed.

Lemma fold_delta_step_pending p : forall len start st,
  (start + len <= p)%nat -> clash_pending p st ->
  clash_pending p (fold_left delta_step (seq start len) st).
Proof.
  induction len as [|len IH]; intros start st H Hc; simpl; auto.
  apply IH; [lia|]. apply delta_step_pending; [lia|assumption].
Qed.

Lemma simplify_delta_clash_zero (s : t) (p : nat) :
  (p < List.length (tensors s))%nat ->
  clash (nth p (tensors s) default_tensor) ->
  factor (simplify_delta s) = 0%float.
Proof.
  intros Hp Hc. unfold simplify_delta. cbn [factor].
  replace (List.length (tensors s)) with (p + S (List.length (tensors s) - S p))%nat
    by lia.
  rewrite seq_app, fold_left_app. cbn [Nat.add seq fold_left].
  apply fold_delta_step_zero. apply delta_step_clash.
  apply fold_delta_step_pending; [lia|]. right. now split.
Qed.

(** C3 (amended).  In a term whose only Kronecker delta is [delta[i, j]]
    (in either slot order) with [i] summed, [j] not summed and types that
    do not conflict, [simplify_delta] erases [i] from the summed indices,
    replaces [i] and [j] in the other tensors by the index with the name
    of [j] and the common types, drops the delta and keeps the factor.
    And a term with a delta whose two sides have no type in common, one
    of them at least being typed, gets the factor zero, whether its
    sides are summed or not. *)
Theorem simplify_delta_eliminates :
  (forall (pre post : list WickTensor.t) (d : WickTensor.t)
          (ctr : IndexSet.t) (f : float) (i j : WickIndex.t),
      Forall (fun w => is_delta w = false) pre ->
      Forall (fun w => is_delta w = false) post ->
      is_delta d = true ->
      WickTensor.indices d = [i; j] \/ WickTensor.indices d = [j; i] ->
      IndexSet.count ctr i = true ->
      IndexSet.count ctr j = false ->
      types_conflict i j = false ->
      simplify_delta (mk (pre ++ d :: post) ctr f)
      = mk (map (substituted i j) (pre ++ post)) (IndexSet.erase i ctr) f)
  /\ (forall (s : t) (p : nat),
         (p < List.length (tensors s))%nat ->
         clash (nth p (tensors s) default_tensor) ->
         factor (simplify_delta s) = 0%float).
Proof.
  split; [|exact simplify_delta_clash_zero].
  intros pre post d ctr f i j Fpre Fpost Hd Hidx Hi Hj Hnc.
  destruct (count_differ_neqb ctr i j Hi Hj) as [Hij Hji].
  destruct Hidx as [E|E].
  - rewrite (simplify_delta_one pre d post ctr f); auto;
      unfold index0, index1; rewrite E; cbn [nth]; auto.
    + rewrite Hi, map_app. reflexivity.
    + now rewrite Hi.
  - rewrite (simplify_delta_one pre d post ctr f); auto;
      unfold index0, index1; rewrite E; cbn [nth]; auto.
    + rewrite Hj. f_equal. rewrite map_app. f_equal; apply map_ext; intros w;
        unfold substituted, replace_index, merged_index, WickIndexTypes.and;
        f_equal; apply map_ext; intros wi;
        now rewrite orb_comm, Z.land_comm.
    + now rewrite types_conflict_sym.
    + now rewrite Hi, Hj.
Qed.

Lemma simplify_delta_eliminates_witness :
  simplify_delta term_delta_plain
  = mk [substituted (WickIndex.of_name "i") (WickIndex.of_name "j")
          (WickTensor.make "t" [WickIndex.of_name "i"; WickIndex.of_name "j"]
                           [] WickTensorTypes.Tensor)]
       [] 1%float
  /\ factor (simplify_delta term_delta_clash) = 0%float.
Proof.
  split.
  - apply (proj1 simplify_delta_eliminates []
             [WickTensor.make "t" [WickIndex.of_name "i"; WickIndex.of_name "j"]
                              [] WickTensorTypes.Tensor]
             (WickTensor.kronecker_delta (WickIndex.of_name "i")
                                         (WickIndex.of_name "j"))
             [WickIndex.of_name "i"] 1%float
             (WickIndex.of_name "i") (WickIndex.of_name "j"));
      try reflexivity.
    + constructor.
    + repeat constructor.
    + left; reflexivity.
  - apply (proj2 simplify_delta_eliminates term_delta_clash 0%nat).
    + simpl; lia.
    + split; reflexivity.
Defined.

(** C3 as stated fails: in [delta[i, j] t[i]] summed over [i], with [i]
    inactive and [j] active, [i] is summed and [j] is not, yet [i] stays
    summed and [t[i]] keeps its index; only the factor changes. *)
Lemma simplify_delta_keeps_summed_index :
  let i := WickIndex.mk "i" WickIndexTypes.Inactive in
  let j := WickIndex.mk "j" WickIndexTypes.Active in
  IndexSet.count (ctr_indices term_delta_clash) i = true
  /\ IndexSet.count (ctr_indices term_delta_clash) j = false
  /\ IndexSet.count (ctr_indices (simplify_delta term_delta_clash)) i = true
  /\ map WickTensor.indices (tensors (simplify_delta term_delta_clash)) = [[i]].
Proof. vm_compute. repeat split. Qed.

(** Why the substitution is stated for a term with one delta: the deltas
    are handled in turn, each on the term as the earlier ones left it.  In
    [delta[i, k] delta[i, j] t[i]] the first delta turns [i] into [k], so
    that [delta[i, j]] becomes [delta[k, j]] between two free indices and
    stays, and [t[i]] becomes [t[k]], not [t[j]]. *)
Lemma simplify_delta_in_turn :
  map (fun w => (WickTensor.name w,
                 map WickIndex.name (WickTensor.indices w)))
      (tensors (simplify_delta term_two_deltas))
  = [("delta", ["k"; "j"]); ("t", ["k"])]%string
  /\ ctr_indices (simplify_delta term_two_deltas) = [].
Proof. vm_compute. split; reflexivity. Qed.
End DeltaFacts.

(** * [std::set<WickIndex>] *)
Module IndexSetFacts.
Import IndexSet.

Lemma count_In s x : count s x = true <-> In x s.
Proof.
  unfold count. rewrite existsb_exists. split.
  - intros (y & Hy & E). apply IndexOrder.index_eqb_eq in E. now subst.
  - intros H. exists x. split; [assumption|apply IndexOrder.eqb_refl].
Qed.

Lemma count_not_In s x : count s x = false <-> ~ In x s.
Proof.
  rewrite <- count_In. destruct (count s x); split; congruence.
Qed.

Lemma insert_In x y : forall s, In y (insert x s) <-> y = x \/ In y s.
Proof.
  induction s as [|z s IH]; simpl.
  - split; intros [H|H]; auto.
  - destruct (WickIndex.ltb x z) eqn:E1; [simpl; intuition|].
    destruct (WickIndex.ltb z x) eqn:E2; simpl.
    + rewrite IH. intuition.
    + rewrite (IndexOrder.ltb_total _ _ E1 E2). intuition.
Qed.

Lemma insert_all_In y : forall l s,
  In y (insert_all l s) <-> In y l \/ In y s.
Proof.
  unfold insert_all. induction l as [|x l IH]; intros s; simpl.
  - intuition.
  - rewrite IH, insert_In. intuition.
Qed.

Lemma inter_In a b x : In x (inter a b) <-> In x a /\ In x b.
Proof. unfold inter. now rewrite filter_In, count_In. Qed.
End IndexSetFacts.

(** * [WickString::operator*] *)
Module ProductFacts.
Import WickString.

Lemma used_indices_In a x : In x (used_indices a) <-> occurs_in x a.
Proof.
  unfold used_indices, occurs_in.
  assert (H : forall l r,
             In x (fold_left
                     (fun r ts => IndexSet.insert_all (WickTensor.indices ts) r)
                     l r)
             <-> (exists w, In w l /\ In x (WickTensor.indices w)) \/ In x r).
  { induction l as [|w l IH]; intros r; simpl.
    - split; [now right|]. intros [(w & [] & _)|H]; auto.
    - rewrite IH, IndexSetFacts.insert_all_In. split.
      + intros [(v & Hv & Hx)|[Hx|Hx]]; eauto.
      + intros [(v & [<-|Hv] & Hx)|Hx]; eauto. }
  rewrite H. simpl. split; [intros [?|[]]; auto|now left].
Qed.

Lemma fresh_from_unused used idx : forall n i g,
  fresh_from used idx i n = Some g -> ~ In g used.
Proof.
  induction n as [|n IH]; intros i g; simpl; [discriminate|].
  destruct (IndexSet.count used (bump i idx)) eqn:E.
  - apply IH.
  - intros H. inversion H; subst. now apply IndexSetFacts.count_not_In.
Qed.

Lemma map_find_In m k v : map_find m k = Some v -> In (k, v) m.
Proof.
  induction m as [|[k' v'] m IH]; simpl; [discriminate|].
  destruct (WickIndex.eqb k k') eqn:E.
  - apply IndexOrder.index_eqb_eq in E. intros H; inversion H; subst. now left.
  - intros H. right. now apply IH.
Qed.

Lemma rename_step_inv u0 xa xb st idx :
  renaming_inv u0 st -> renaming_inv u0 (rename_step xa xb st idx).
Proof.
  intros (Hu & Hv & Hnd). unfold rename_step.
  destruct (IndexSet.count xa idx || IndexSet.count xb idx); [|now split].
  destruct (fresh_from (fst st) idx 1 99) as [g|] eqn:E; [|now split].
  pose proof (fresh_from_unused _ _ _ _ _ E) as Hg.
  unfold renaming_inv. cbn [fst snd]. rewrite map_app. cbn [map snd].
  split; [|split].
  - intros x Hx. apply IndexSetFacts.insert_In. right. now apply Hu.
  - intros v H. apply in_app_or in H. rewrite IndexSetFacts.insert_In.
    destruct H as [H|[<-|[]]].
    + destruct (Hv v H). split; auto.
    + split; [now left|]. intros Hin. apply Hg. now apply Hu.
  - apply NoDup_app; [assumption| |].
    + constructor; [intros []|constructor].
    + intros x Hx [<-|[]]. apply Hg. now apply Hv.
Qed.

Lemma rename_fold_inv u0 xa xb : forall l st,
  renaming_inv u0 st ->
  renaming_inv u0 (fold_left (rename_step xa xb) l st).
Proof.
  induction l as [|idx l IH]; intros st H; simpl; auto.
  apply IH. now apply rename_step_inv.
Qed.

(** The table [mp_idxs]: its values are unused by both operands, and two
    different keys never get the same value. *)
Lemma collisions_table a b :
  let '(mp, xa, xb, xc) := collisions a b in
  (forall k v, map_find mp k = Some v ->
               ~ occurs_in v a /\ ~ occurs_in v b)
  /\ (forall k1 k2 v, map_find mp k1 = Some v -> map_find mp k2 = Some v ->
                      k1 = k2).
Proof.
  unfold collisions.
  set (u0 := IndexSet.insert_all (used_indices b) (used_indices a)).
  set (xa := IndexSet.inter _ (used_indices b)).
  set (xb := IndexSet.inter _ (used_indices a)).
  pose proof (rename_fold_inv u0 xa xb u0 (u0, [])) as H.
  destruct (fold_left (rename_step xa xb) u0 (u0, [])) as [used mp].
  cbn [snd fst] in *.
  destruct H as (Hu & Hv & Hnd).
  { repeat split; simpl; auto; try contradiction. constructor. }
  split.
  - intros k v Hk. apply map_find_In in Hk.
    assert (Hin : In v (map snd mp)) by (apply in_map_iff; now exists (k, v)).
    destruct (Hv v Hin) as [_ Hnot].
    split; intros Ho; apply Hnot; apply IndexSetFacts.insert_all_In;
      [right|left]; now apply used_indices_In.
  - intros k1 k2 v H1 H2. apply map_find_In in H1, H2.
    clear - H1 H2 Hnd. induction mp as [|[k' v'] mp IH]; [destruct H1|].
    simpl in Hnd. inversion Hnd as [|? ? Hnotin Hnd']; subst.
    destruct H1 as [E1|H1], H2 as [E2|H2].
    + congruence.
    + inversion E1; subst. exfalso. apply Hnotin.
      apply in_map_iff. now exists (k2, v).
    + inversion E2; subst. exfalso. apply Hnotin.
      apply in_map_iff. now exists (k1, v).
    + now apply IH.
Qed.

Lemma insert_all_nil_In y l : In y (IndexSet.insert_all l []) <-> In y l.
Proof. rewrite IndexSetFacts.insert_all_In. simpl. intuition. Qed.

(** Under the two side conditions, an index of the left operand and an
    index of the right operand, one of them summed, never end up equal. *)
Lemma renamings_apart a b :
  summed_are_used a -> summed_are_used b -> renaming_found a b ->
  forall x y, occurs_in x a -> occurs_in y b ->
    In x (ctr_indices a) \/ In y (ctr_indices b) ->
    left_renaming a b x <> right_renaming a b y.
Proof.
  intros Ha Hb Hf x y Hx Hy Hsum.
  pose proof (collisions_table a b) as Htab.
  unfold renaming_found, left_renaming, right_renaming in *.
  assert (Hsets : exists mp,
             collisions a b
             = (mp, IndexSet.inter (ctr_indices a) (used_indices b),
                IndexSet.inter (ctr_indices b) (used_indices a),
                IndexSet.inter (ctr_indices a) (ctr_indices b))).
  { unfold collisions. eexists. reflexivity. }
  destruct Hsets as [mp E]. rewrite E in *. clear E.
  destruct Htab as [Hfresh Hinj].
  set (xa := IndexSet.inter (ctr_indices a) (used_indices b)) in *.
  set (xb := IndexSet.inter (ctr_indices b) (used_indices a)) in *.
  set (xc := IndexSet.inter (ctr_indices a) (ctr_indices b)) in *.
  assert (Hxa : forall z, In z xa <-> In z (ctr_indices a) /\ occurs_in z b).
  { intros z. unfold xa. now rewrite IndexSetFacts.inter_In, used_indices_In. }
  assert (Hxb : forall z, In z xb <-> In z (ctr_indices b) /\ occurs_in z a).
  { intros z. unfold xb. now rewrite IndexSetFacts.inter_In, used_indices_In. }
  assert (Hxc : forall z, In z xc
                          <-> In z (ctr_indices a) /\ In z (ctr_indices b)).
  { intros z. unfold xc. now rewrite IndexSetFacts.inter_In. }
  unfold rename_a, rename_b. intros Heq.
  destruct (map_find mp x) as [g|] eqn:Fx;
    destruct (map_find mp y) as [g'|] eqn:Fy.
  - (* both in the table *)
    destruct (IndexSet.count xa x && negb (IndexSet.count xc x)) eqn:Cx;
      destruct (IndexSet.count xb y) eqn:Cy.
    + subst g'. pose proof (Hinj _ _ _ Fx Fy). subst y.
      apply andb_true_iff in Cx. destruct Cx as [Cx1 Cx2].
      apply IndexSetFacts.count_In in Cx1, Cy.
      apply negb_true_iff, IndexSetFacts.count_not_In in Cx2.
      apply Cx2, Hxc. split; [apply Hxa in Cx1|apply Hxb in Cy]; tauto.
    + subst. destruct (Hfresh _ _ Fx); contradiction.
    + subst. destruct (Hfresh _ _ Fy); contradiction.
    + subst y. apply IndexSetFacts.count_not_In in Cy.
      apply andb_false_iff in Cx.
      destruct Hsum as [Hs|Hs]; [|apply Cy, Hxb; now split].
      destruct Cx as [Cx|Cx].
      * apply IndexSetFacts.count_not_In in Cx. apply Cx, Hxa. now split.
      * apply negb_false_iff, IndexSetFacts.count_In, Hxc in Cx.
        apply Cy, Hxb. split; [tauto|assumption].
  - destruct (IndexSet.count xa x && negb (IndexSet.count xc x)) eqn:Cx.
    + subst. destruct (Hfresh _ _ Fx); contradiction.
    + subst y. apply andb_false_iff in Cx.
      assert (Hny : ~ In x xb).
      { intros Hin. apply (Hf x); auto. }
      destruct Hsum as [Hs|Hs]; [|apply Hny, Hxb; now split].
      destruct Cx as [Cx|Cx].
      * apply IndexSetFacts.count_not_In in Cx. apply Cx, Hxa. now split.
      * apply negb_false_iff, IndexSetFacts.count_In, Hxc in Cx.
        apply Hny, Hxb. split; [tauto|assumption].
  - destruct (IndexSet.count xb y) eqn:Cy.
    + subst. destruct (Hfresh _ _ Fy); contradiction.
    + subst y. apply IndexSetFacts.count_not_In in Cy.
      assert (Hnx : ~ In x xa).
      { intros Hin. apply (Hf x); auto. }
      destruct Hsum as [Hs|Hs]; [apply Hnx, Hxa|apply Cy, Hxb]; now split.
  - subst y.
    destruct Hsum as [Hs|Hs].
    + apply (Hf x); auto. left. apply Hxa. now split.
    + apply (Hf x); auto. right. apply Hxb. now split.
Qed.

(** C2 (amended).  When every summed index of each operand occurs in a
    tensor of that operand and the renaming loop finds an unused name for
    every index it has to rename, the product has the product of the
    factors, the tensors of [a] then those of [b], each with its indices
    renamed by the operand's renaming, the renamed summed indices of both
    as its summed indices, and no renamed summed index of one operand is
    equal to a renamed index, summed or not, of the other. *)
Theorem mul_keeps_operands_apart (a b : WickString.t) :
  summed_are_used a -> summed_are_used b -> renaming_found a b ->
  let ra := left_renaming a b in
  let rb := right_renaming a b in
  factor (mul a b) = PrimFloat.mul (factor a) (factor b)
  /\ tensors (mul a b)
     = map (renamed ra) (tensors a) ++ map (renamed rb) (tensors b)
  /\ (forall z, In z (ctr_indices (mul a b))
                <-> (exists x, In x (ctr_indices a) /\ z = ra x)
                    \/ (exists y, In y (ctr_indices b) /\ z = rb y))
  /\ (forall x y, In x (ctr_indices a) ->
                  occurs_in y b \/ In y (ctr_indices b) -> ra x <> rb y)
  /\ (forall y x, In y (ctr_indices b) ->
                  occurs_in x a \/ In x (ctr_indices a) -> rb y <> ra x).
Proof.
  intros Ha Hb Hf ra rb.
  pose proof (renamings_apart a b Ha Hb Hf) as Hapart.
  unfold ra, rb, left_renaming, right_renaming, mul in *.
  destruct (collisions a b) as [[[mp xa] xb] xc].
  cbn [factor tensors ctr_indices].
  repeat split.
  - intros Hz. apply IndexSetFacts.insert_all_In in Hz.
    destruct Hz as [Hz|Hz].
    + right. apply in_map_iff in Hz. destruct Hz as (y & <- & Hy). eauto.
    + left. apply insert_all_nil_In, in_map_iff in Hz.
      destruct Hz as (x & <- & Hx). eauto.
  - intros [(x & Hx & ->)|(y & Hy & ->)];
      apply IndexSetFacts.insert_all_In.
    + right. apply insert_all_nil_In. now apply in_map.
    + left. now apply in_map.
  - intros x y Hx Hy. apply Hapart; auto.
    destruct Hy; auto.
  - intros y x Hy Hx Heq. symmetry in Heq. revert Heq. apply Hapart; auto.
    destruct Hx; auto.
Qed.

Lemma mul_keeps_operands_apart_witness :
  let ra := left_renaming term_t_ij term_u_ik in
  let rb := right_renaming term_t_ij term_u_ik in
  factor (mul term_t_ij term_u_ik)
  = PrimFloat.mul (factor term_t_ij) (factor term_u_ik)
  /\ tensors (mul term_t_ij term_u_ik)
     = map (renamed ra) (tensors term_t_ij)
       ++ map (renamed rb) (tensors term_u_ik)
  /\ (forall z, In z (ctr_indices (mul term_t_ij term_u_ik))
                <-> (exists x, In x (ctr_indices term_t_ij) /\ z = ra x)
                    \/ (exists y, In y (ctr_indices term_u_ik) /\ z = rb y))
  /\ (forall x y, In x (ctr_indices term_t_ij) ->
                  occurs_in y term_u_ik \/ In y (ctr_indices term_u_ik) ->
                  ra x <> rb y)
  /\ (forall y x, In y (ctr_indices term_u_ik) ->
                  occurs_in x term_t_ij \/ In x (ctr_indices term_t_ij) ->
                  rb y <> ra x).
Proof.
  apply (mul_keeps_operands_apart term_t_ij term_u_ik).
  - intros x [<-|[]]. eexists. split; [left; reflexivity|now left].
  - intros x [<-|[]]. eexists. split; [left; reflexivity|now left].
  - unfold renaming_found.
    intros idx [[<-|[]]|[<-|[]]]; discriminate.
Defined.

(** C2 as stated fails: [A] is summed in [t[A]] and free in the second
    term; every name the loop tries for it, [B] to the hundredth letter,
    is taken, so [A] stays and the product sums over an index of the
    second operand. *)
Lemma mul_captures_free_index :
  let c := mul term_t_A term_hundred in
  IndexSet.count (ctr_indices term_t_A) (letter 0) = true
  /\ IndexSet.count (used_indices term_hundred) (letter 0) = true
  /\ IndexSet.count (ctr_indices c) (letter 0) = true
  /\ existsb (fun w => IndexSet.count (WickTensor.indices w) (letter 0))
             (skipn 1 (tensors c)) = true
  /\ left_renaming term_t_A term_hundred (letter 0)
     = right_renaming term_t_A term_hundred (letter 0).
Proof. vm_compute. repeat split. Qed.
End ProductFacts.

(** * When the renaming loop of [operator*] succeeds *)
Module RenamingFacts.
Import WickString.

Lemma bump_inj idx i j :
  WickIndex.name idx <> EmptyString ->
  (i < 256)%nat -> (j < 256)%nat -> bump i idx = bump j idx -> i = j.
Proof.
  intros Hne Hi Hj. unfold bump.
  destruct (WickIndex.name idx) as [|c rest]; [contradiction|].
  intros H. injection H as H.
  apply (f_equal N_of_ascii) in H.
  rewrite !N_ascii_embedding in H by (apply N.mod_lt; discriminate).
  pose proof (N_ascii_bounded c) as Hc.
  apply (f_equal Z.of_N) in H. rewrite !N2Z.inj_mod, !N2Z.inj_add in H.
  rewrite !nat_N_Z in H. simpl Z.of_N in H.
  assert (Hc' : 0 <= Z.of_N (N_of_ascii c) < 256) by lia.
  revert H. generalize (Z.of_N (N_of_ascii c)) Hc'. intros z Hz H.
  apply Nat2Z.inj.
  Z.div_mod_to_equations. lia.
Qed.

Lemma fresh_from_none used idx : forall n i,
  fresh_from used idx i n = None ->
  forall k, (i <= k < i + n)%nat -> In (bump k idx) used.
Proof.
  induction n as [|n IH]; intros i H k Hk; [lia|]. simpl in H.
  destruct (IndexSet.count used (bump i idx)) eqn:E; [|discriminate].
  destruct (Nat.eq_dec k i) as [->|Hne].
  - now apply IndexSetFacts.count_In.
  - apply (IH (S i)); auto. lia.
Qed.

Lemma fresh_from_found used idx :
  WickIndex.name idx <> EmptyString ->
  (List.length used < 99)%nat ->
  exists g, fresh_from used idx 1 99 = Some g.
Proof.
  intros Hne Hlen.
  destruct (fresh_from used idx 1 99) as [g|] eqn:E; [eauto|exfalso].
  pose proof (fresh_from_none _ _ _ _ E) as Hall.
  assert (Hnd : NoDup (map (fun k => bump k idx) (seq 1 99))).
  { apply Finite.Injective_map_NoDup_in; [|apply seq_NoDup].
    intros i j Hi Hj. apply in_seq in Hi, Hj.
    apply bump_inj; auto; lia. }
  assert (Hincl : incl (map (fun k => bump k idx) (seq 1 99)) used).
  { intros x Hx. apply in_map_iff in Hx. destruct Hx as (k & <- & Hk).
    apply in_seq in Hk. apply Hall. lia. }
  pose proof (NoDup_incl_length Hnd Hincl) as Hle.
  rewrite length_map, length_seq in Hle. lia.
Qed.

Lemma insert_length x : forall s,
  (List.length (IndexSet.insert x s) <= S (List.length s))%nat.
Proof.
  induction s as [|y s IH]; simpl; [lia|].
  destruct (WickIndex.ltb x y); simpl; [lia|].
  destruct (WickIndex.ltb y x); simpl; lia.
Qed.

Lemma map_find_snoc m k v k' :
  map_find m k' <> None -> map_find (m ++ [(k, v)]) k' <> None.
Proof.
  induction m as [|[k0 v0] m IH]; simpl; [contradiction|].
  destruct (WickIndex.eqb k' k0); auto.
Qed.

Lemma map_find_last m k v : map_find (m ++ [(k, v)]) k <> None.
Proof.
  induction m as [|[k0 v0] m IH]; simpl.
  - rewrite IndexOrder.eqb_refl. discriminate.
  - destruct (WickIndex.eqb k k0); [discriminate|assumption].
Qed.

Lemma rename_fold_found xa xb : forall l st,
  (List.length (fst st) + List.length l <= 98)%nat ->
  (forall x, In x l -> WickIndex.name x <> EmptyString) ->
  forall idx,
    (In idx l /\ (In idx xa \/ In idx xb)) \/ map_find (snd st) idx <> None ->
    map_find (snd (fold_left (rename_step xa xb) l st)) idx <> None.
Proof.
  induction l as [|x l IH]; intros st Hlen Hne idx H; simpl.
  - destruct H as [[[] _]|H]; assumption.
  - cbn [List.length] in Hlen. apply IH.
    + unfold rename_step, IndexSet.t in *.
      destruct (IndexSet.count xa x || IndexSet.count xb x); [|lia].
      destruct (fresh_from (fst st) x 1 99) as [g|]; [|lia].
      cbn [fst]. pose proof (insert_length g (fst st)).
      unfold IndexSet.t in *. lia.
    + intros y Hy. apply Hne. now right.
    + unfold rename_step.
      destruct H as [[[<-|Hin] Hx]|H].
      * right.
        assert (E : IndexSet.count xa x || IndexSet.count xb x = true).
        { apply orb_true_iff.
          destruct Hx; [left|right]; now apply IndexSetFacts.count_In. }
        rewrite E.
        destruct (fresh_from _ x 1 99) as [g|] eqn:Eg.
        -- cbn [snd]. apply map_find_last.
        -- exfalso. destruct (fresh_from_found (fst st) x) as [g Hg];
             [apply Hne; now left|unfold IndexSet.t in *; lia|].
           unfold IndexSet.t in *. congruence.
      * left. now split.
      * right.
        destruct (IndexSet.count xa x || IndexSet.count xb x); [|assumption].
        destruct (fresh_from _ x 1 99) as [g|]; [|assumption].
        cbn [snd]. now apply map_find_snoc.
Qed.

(** The loop finds a name for every index it has to rename when the two
    operands use at most 49 indices between them, none with an empty
    name: at most 98 names are then taken, fewer than the 99 the loop
    tries. *)
Lemma renaming_found_few_names (a b : t) :
  (forall x, occurs_in x a \/ occurs_in x b ->
             WickIndex.name x <> EmptyString) ->
  (List.length (IndexSet.insert_all (used_indices b) (used_indices a)) <= 49)%nat ->
  renaming_found a b.
Proof.
  intros Hne Hlen. unfold renaming_found, collisions.
  set (u0 := IndexSet.insert_all (used_indices b) (used_indices a)) in *.
  intros idx Hidx. apply rename_fold_found.
  - cbn [fst]. lia.
  - intros x Hx. apply Hne. unfold u0 in Hx.
    apply IndexSetFacts.insert_all_In in Hx.
    rewrite !ProductFacts.used_indices_In in Hx. tauto.
  - left. split; [|assumption]. unfold u0.
    apply IndexSetFacts.insert_all_In.
    destruct Hidx as [H|H]; apply IndexSetFacts.inter_In in H; tauto.
Qed.
(** Why the summed indices have to occur in the tensors: [operator*]
    looks for collisions among the indices of the tensors only.  A sum
    over [i] that no tensor uses keeps its name beside [t[i j]] summed
    over [i]; and [i] of [t[i]] is renamed to [j], the name of an unused
    summed index of the other operand. *)
Lemma mul_unused_sums_collide :
  let i := WickIndex.of_name "i" in
  let j := WickIndex.of_name "j" in
  (summed_are_used term_sum_i -> False)
  /\ left_renaming term_sum_i term_t_ij i = i
  /\ right_renaming term_sum_i term_t_ij i = i
  /\ ctr_indices (mul term_sum_i term_t_ij) = [i]
  /\ (summed_are_used term_u_i_sum_j -> False)
  /\ left_renaming term_t_i term_u_i_sum_j i = j
  /\ right_renaming term_t_i term_u_i_sum_j j = j
  /\ ctr_indices (mul term_t_i term_u_i_sum_j) = [j].
Proof.
  cbv zeta. split; [|split; [|split; [|split; [|split; [|split; [|split]]]]]];
    try (vm_compute; reflexivity).
  - intros H. destruct (H (WickIndex.of_name "i")) as (w & [] & _).
    now left.
  - intros H. destruct (H (WickIndex.of_name "j")) as (w & [<-|[]] & Hw).
    + now left.
    + vm_compute in Hw. destruct Hw as [Hw|[]]. discriminate.
Qed.
End RenamingFacts.

(** * Sorting keeps the elements *)

Lemma insert_by_In {A} (ltb : A -> A -> bool) x y : forall l,
  In y (insert_by ltb x l) <-> y = x \/ In y l.
Proof.
  induction l as [|z l IH]; simpl.
  - intuition.
  - destruct (ltb x z); simpl; [intuition|]. rewrite IH. intuition.
Qed.

Lemma sort_by_In {A} (ltb : A -> A -> bool) (l : list A) y :
  In y (sort_by ltb l) <-> In y l.
Proof.
  unfold sort_by.
  assert (H : forall l acc,
             In y (fold_left (fun acc x => insert_by ltb x acc) l acc)
             <-> In y l \/ In y acc).
  { clear l. induction l as [|x l IH]; intros acc; simpl.
    - intuition.
    - rewrite IH, insert_by_In. intuition. }
  rewrite H. simpl. intuition.
Qed.

Lemma insert_by_Permutation {A} (ltb : A -> A -> bool) x : forall l,
  Permutation (insert_by ltb x l) (x :: l).
Proof.
  induction l as [|z l IH]; simpl; auto.
  destruct (ltb x z); auto.
  rewrite IH. apply perm_swap.
Qed.

Lemma sort_by_Permutation {A} (ltb : A -> A -> bool) (l : list A) :
  Permutation (sort_by ltb l) l.
Proof.
  unfold sort_by.
  assert (H : forall l acc,
             Permutation (fold_left (fun acc x => insert_by ltb x acc) l acc)
                         (l ++ acc)).
  { clear l. induction l as [|x l IH]; intros acc; simpl; auto.
    rewrite IH, insert_by_Permutation. symmetry. apply Permutation_middle. }
  rewrite H. now rewrite app_nil_r.
Qed.

(** * [WickExpr::simplify_merge] *)
Module MergeFacts.
Import WickExpr.

Lemma keeps_spec rr :
  keeps rr = true ->
  (1 <= List.length (WickString.tensors rr))%nat
  /\ PrimFloat.ltb epsilon (PrimFloat.abs (WickString.factor rr)) = true.
Proof.
  unfold keeps. rewrite andb_true_iff, negb_true_iff, Nat.eqb_neq.
  intros [H1 H2]. split; [lia|assumption].
Qed.

Lemma simplify_merge_kept quick_sort e rr :
  In rr (simplify_merge quick_sort e) -> keeps rr = true.
Proof.
  unfold simplify_merge, simplify_zero. rewrite sort_by_In, filter_In. tauto.
Qed.

End MergeFacts.

(** * Normal ordering *)
Module NormalOrderFacts.
Import WickExpr.

(** C1 (amended).  With typeless indices, [C[i] D[j]] is already in
    normal order and [expand] returns it as its only term; the two-term
    result of the claim is what [expand] returns for the reversed product
    [D[i] C[j]], and for [C[i] D[j]] when both indices are inactive. *)
Theorem expand_creation_destroy (i j : string) (fuel : nat) :
  (2 <= fuel)%nat ->
  expand fuel (cre_des (WickIndex.of_name i) (WickIndex.of_name j)) (-1) false
  = Ok [WickString.mk [WickTensor.cre (WickIndex.of_name i);
                       WickTensor.des (WickIndex.of_name j)] [] 1%float]
  /\ expand fuel (des_cre (WickIndex.of_name i) (WickIndex.of_name j))
            (-1) false
     = Ok [WickString.mk [WickTensor.cre (WickIndex.of_name j);
                          WickTensor.des (WickIndex.of_name i)] []
                         (-1)%float;
           WickString.mk [WickTensor.kronecker_delta (WickIndex.of_name i)
                                                     (WickIndex.of_name j)]
                         [] 1%float]
  /\ expand fuel (cre_des (WickIndex.mk i WickIndexTypes.Inactive)
                          (WickIndex.mk j WickIndexTypes.Inactive))
            (-1) false
     = Ok [WickString.mk
             [WickTensor.des (WickIndex.mk j WickIndexTypes.Inactive);
              WickTensor.cre (WickIndex.mk i WickIndexTypes.Inactive)] []
             (-1)%float;
           WickString.mk
             [WickTensor.kronecker_delta
                (WickIndex.mk i WickIndexTypes.Inactive)
                (WickIndex.mk j WickIndexTypes.Inactive)]
             [] 1%float].
Proof.
  intros H. destruct fuel as [|[|[|fuel]]]; try lia;
    (split; [|split]); vm_compute; reflexivity.
Qed.

Lemma expand_creation_destroy_witness :
  expand 2 (cre_des (WickIndex.of_name "i") (WickIndex.of_name "j")) (-1) false
  = Ok [WickString.mk [WickTensor.cre (WickIndex.of_name "i");
                       WickTensor.des (WickIndex.of_name "j")] [] 1%float]
  /\ expand 2 (des_cre (WickIndex.of_name "i") (WickIndex.of_name "j"))
            (-1) false
     = Ok [WickString.mk [WickTensor.cre (WickIndex.of_name "j");
                          WickTensor.des (WickIndex.of_name "i")] []
                         (-1)%float;
           WickString.mk [WickTensor.kronecker_delta (WickIndex.of_name "i")
                                                     (WickIndex.of_name "j")]
                         [] 1%float]
  /\ expand 2 (cre_des (WickIndex.mk "i" WickIndexTypes.Inactive)
                       (WickIndex.mk "j" WickIndexTypes.Inactive))
            (-1) false
     = Ok [WickString.mk
             [WickTensor.des (WickIndex.mk "j" WickIndexTypes.Inactive);
              WickTensor.cre (WickIndex.mk "i" WickIndexTypes.Inactive)] []
             (-1)%float;
           WickString.mk
             [WickTensor.kronecker_delta
                (WickIndex.mk "i" WickIndexTypes.Inactive)
                (WickIndex.mk "j" WickIndexTypes.Inactive)]
             [] 1%float].
Proof. apply (expand_creation_destroy "i" "j" 2). lia. Defined.

(** C1 as stated fails: for the typeless indices [i] and [j], [expand]
    of [C[i] D[j]] has one term, not two. *)
Lemma expand_creation_destroy_one_term :
  expand 10 (cre_des (WickIndex.of_name "i") (WickIndex.of_name "j"))
         (-1) false
  = Ok [WickString.mk [WickTensor.cre (WickIndex.of_name "i");
                       WickTensor.des (WickIndex.of_name "j")] [] 1%float].
Proof. vm_compute. reflexivity. Qed.

(** ** The assertion on mixed terms *)

Lemma type_eqb_eq a b : WickTensorTypes.eqb a b = true <-> a = b.
Proof. destruct a, b; simpl; split; intros H; try discriminate; auto. Qed.

Lemma exists_cd x :
  existsb is_cd (WickString.tensors x) = true
  <-> exists w, In w (WickString.tensors x)
                /\ (WickTensor.type w = WickTensorTypes.CreationOperator
                    \/ WickTensor.type w = WickTensorTypes.DestroyOperator).
Proof.
  rewrite existsb_exists. unfold is_cd.
  split; intros (w & Hw & H); exists w; split; auto.
  - apply orb_true_iff in H. now rewrite !type_eqb_eq in H.
  - apply orb_true_iff. now rewrite !type_eqb_eq.
Qed.

Lemma exists_sf x :
  existsb is_sf (WickString.tensors x) = true
  <-> exists w, In w (WickString.tensors x)
                /\ WickTensor.type w = WickTensorTypes.SpinFreeOperator.
Proof.
  rewrite existsb_exists. unfold is_sf.
  split; intros (w & Hw & H); exists w; split; auto; now apply type_eqb_eq.
Qed.

Lemma mixes_spec x :
  existsb is_cd (WickString.tensors x) && existsb is_sf (WickString.tensors x)
  = true <-> mixes x.
Proof. unfold mixes. now rewrite andb_true_iff, exists_cd, exists_sf. Qed.

(** The loop itself ends with a result or runs out of budget: it holds
    no assertion. *)
Lemma traverse_no_assertion : forall fuel s w which,
  traverse fuel s w <> AssertionFailed which.
Proof.
  induction fuel as [|fuel IH]; intros s w which; simpl;
    destruct (que w) as [|[l j] rest]; try discriminate.
  apply IH.
Qed.

(** C8.  [normal_order_impl_new] stops at its first assertion exactly
    for the terms that hold both a raw creation or destroy operator and a
    spin-free operator; for every other term that assertion is not
    reached. *)
Theorem mixed_term_fails_assertion (fuel : nat) (x : WickString.t)
        (max_unctr : Z) (no_ctr : bool) :
  normal_order_impl_new fuel x max_unctr no_ctr = AssertionFailed NotMixed
  <-> mixes x.
Proof.
  rewrite <- mixes_spec. unfold normal_order_impl_new.
  destruct (existsb is_cd (WickString.tensors x)
            && existsb is_sf (WickString.tensors x)); [tauto|].
  split; [|discriminate]. intros H. exfalso. revert H.
  destruct (candidate_table _ _) as [ctr_idxs ctr_cd_idxs].
  destruct (negb (max_unctr =? 0) || _);
    [destruct (existsb is_sf (WickString.tensors x));
     [destruct (forallb _ _)|]|];
    try discriminate; apply traverse_no_assertion.
Qed.

(** ** An odd number of operators and no operator left over *)

Lemma collect_step_count st w :
  List.length (cd_tensors (collect_step st w))
  = (List.length (cd_tensors st) + elementary_count w)%nat.
Proof.
  unfold collect_step, elementary_count.
  destruct (is_cd w); cbn [cd_tensors].
  - now rewrite length_app.
  - destruct (is_sf w); cbn [cd_tensors]; [|lia].
    rewrite !length_app, !length_map, !length_seq. lia.
Qed.

Lemma collect_count x :
  List.length (cd_tensors (collect x)) = elementary_operators x.
Proof.
  unfold collect, elementary_operators.
  assert (H : forall l st,
             List.length (cd_tensors (fold_left collect_step l st))
             = (List.length (cd_tensors st)
                + list_sum (map elementary_count l))%nat).
  { induction l as [|w l IH]; intros st; simpl; [lia|].
    rewrite IH, collect_step_count. lia. }
  rewrite H. reflexivity.
Qed.

Lemma odd_mod2 n : Nat.odd n = true -> (Nat.modulo n 2 =? 0)%nat = false.
Proof.
  intros H. apply Nat.odd_spec in H. destruct H as [m ->].
  apply Nat.eqb_neq.
  rewrite Nat.add_comm, Nat.mul_comm, Nat.Div0.mod_add. discriminate.
Qed.

(** C10 (amended).  For a term that does not mix raw and spin-free
    operators and whose number of elementary operators is odd, normal
    ordering with [max_unctr = 0] returns the empty expression. *)
Theorem odd_operators_give_no_term (fuel : nat) (x : WickString.t)
        (no_ctr : bool) :
  ~ mixes x ->
  Nat.odd (elementary_operators x) = true ->
  normal_order_impl_new fuel x 0 no_ctr = Ok [].
Proof.
  intros Hmix Hodd. unfold normal_order_impl_new.
  destruct (existsb is_cd (WickString.tensors x)
            && existsb is_sf (WickString.tensors x)) eqn:E.
  - exfalso. apply Hmix. now apply mixes_spec.
  - destruct (candidate_table _ _) as [ctr_idxs ctr_cd_idxs].
    rewrite collect_count, (odd_mod2 _ Hodd). cbn [Z.eqb negb orb].
    destruct fuel; reflexivity.
Qed.

Lemma odd_operators_give_no_term_witness :
  normal_order_impl_new 5
    (WickString.mk [WickTensor.cre (WickIndex.of_name "i")] [] 1%float)
    0 false
  = Ok [].
Proof.
  apply odd_operators_give_no_term.
  - intros [_ (w & [<-|[]] & Hw)]. discriminate.
  - reflexivity.
Defined.

(** C10 as stated fails: [C[i] E1[j, k]] has three elementary
    operators, and normal ordering with [max_unctr = 0] stops at the
    assertion instead of returning the empty expression. *)
Lemma odd_operators_mixed_term_fails :
  elementary_operators term_mixed = 3%nat
  /\ normal_order_impl_new 5 term_mixed 0 false = AssertionFailed NotMixed.
Proof. vm_compute. split; reflexivity. Qed.
End NormalOrderFacts.

(** * Vectors read and written at [int] positions *)

Lemma bind_Ok {A B} (m : outcome A) (f : A -> outcome B) r :
  bind m f = Ok r -> exists a, m = Ok a /\ f a = Ok r.
Proof. destruct m; simpl; try discriminate. eauto. Qed.

Lemma upd_length {A} (l : list A) i x : List.length (upd l i x) = List.length l.
Proof.
  revert i. induction l as [|y l IH]; intros [|i]; simpl; auto.
Qed.

Lemma nth_error_upd {A} (l : list A) x : forall i k,
  (i < List.length l)%nat ->
  nth_error (upd l i x) k = if (k =? i)%nat then Some x else nth_error l k.
Proof.
  induction l as [|y l IH]; intros [|i] [|k] H; simpl in *; try lia; auto.
  apply IH. lia.
Qed.

Module TrieFacts.
Import TRIE.

Lemma at_Ok {A} (l : list A) i x :
  at_ l i = Ok x
  <-> 0 <= i < Z.of_nat (List.length l) /\ nth_error l (Z.to_nat i) = Some x.
Proof.
  unfold at_. destruct (Z.ltb_spec i 0).
  - split; [discriminate|lia].
  - destruct (nth_error l (Z.to_nat i)) as [y|] eqn:E.
    + assert (Z.to_nat i < List.length l)%nat
        by (apply nth_error_Some; congruence).
      split; [intros [= ->]|intros [_ [= ->]]]; auto. split; [lia|auto].
    + split; [discriminate|intros [_ ?]; discriminate].
Qed.

Lemma at_range {A} (l : list A) i x :
  at_ l i = Ok x -> 0 <= i < Z.of_nat (List.length l).
Proof. intros H. now apply at_Ok in H. Qed.

Lemma at_defined {A} (l : list A) i :
  0 <= i < Z.of_nat (List.length l) -> exists x, at_ l i = Ok x.
Proof.
  intros H. destruct (nth_error l (Z.to_nat i)) as [x|] eqn:E.
  - exists x. apply at_Ok. auto.
  - apply nth_error_None in E. lia.
Qed.

Lemma at_upd {A} (l : list A) i x k :
  0 <= i < Z.of_nat (List.length l) ->
  at_ (upd l (Z.to_nat i) x) k = if k =? i then Ok x else at_ l k.
Proof.
  intros H. unfold at_. destruct (Z.ltb_spec k 0).
  - destruct (Z.eqb_spec k i); [lia|reflexivity].
  - rewrite nth_error_upd by lia.
    destruct (Z.eqb_spec k i) as [->|Hne].
    + now rewrite Nat.eqb_refl.
    + destruct (Nat.eqb_spec (Z.to_nat k) (Z.to_nat i)); [lia|reflexivity].
Qed.

Lemma at_snoc {A} (l : list A) y k :
  at_ (l ++ [y]) k = if k =? Z.of_nat (List.length l) then Ok y else at_ l k.
Proof.
  unfold at_. destruct (Z.ltb_spec k 0).
  - destruct (Z.eqb_spec k (Z.of_nat (List.length l))); [lia|reflexivity].
  - destruct (Z.eqb_spec k (Z.of_nat (List.length l))) as [->|Hne].
    + rewrite Nat2Z.id, nth_error_app2, Nat.sub_diag by lia. reflexivity.
    + destruct (Nat.lt_ge_cases (Z.to_nat k) (List.length l)).
      * now rewrite nth_error_app1.
      * rewrite (proj2 (nth_error_None l _)) by lia.
        rewrite (proj2 (nth_error_None (l ++ [y]) _)); auto.
        rewrite length_app; simpl. lia.
Qed.

Lemma set_at_Ok {A} (l : list A) i x l' :
  set_at l i x = Ok l'
  <-> 0 <= i < Z.of_nat (List.length l) /\ l' = upd l (Z.to_nat i) x.
Proof.
  unfold set_at. destruct (Z.leb_spec 0 i); destruct (Z.ltb_spec i (Z.of_nat (List.length l))); simpl;
    (split; [try discriminate; intros [= <-]; auto|intros [? ->]; auto; lia]).
Qed.

Lemma int_size_small {A} (l : list A) :
  Z.of_nat (List.length l) < 2147483648 ->
  int_size l = Z.of_nat (List.length l).
Proof.
  intros H. unfold int_size, wrap32. rewrite Z.mod_small; lia.
Qed.

Lemma empty_node_at j c : at_ empty_node j = Ok c -> c = 0.
Proof.
  intros H. apply at_Ok in H. destruct H as [_ H].
  apply nth_error_In in H. unfold empty_node in H.
  now apply repeat_spec in H.
Qed.

(** ** Paths and walks *)

Section Paths.
Variables (data : list (list Z)) (path : Z -> list Z).
Hypothesis Hinv : data_inv data path.

Lemma link_positive p node j c :
  at_ data p = Ok node -> at_ node j = Ok c -> c <> 0 -> 0 < c.
Proof.
  intros Hp Hj Hc. pose proof (at_range _ _ _ Hp).
  destruct (inv_link _ _ Hinv _ _ _ _ Hp Hj Hc). lia.
Qed.

Lemma path_nonroot c :
  0 < c < Z.of_nat (List.length data) -> path c <> [].
Proof.
  intros Hc. destruct (inv_parent _ _ Hinv c Hc) as (p & node & j & Hp & Hj).
  destruct (inv_link _ _ Hinv _ _ _ _ Hp Hj) as [_ E]; [lia|].
  rewrite E. intros F. now apply app_eq_nil in F.
Qed.

Lemma path_length c :
  0 <= c < Z.of_nat (List.length data) ->
  Z.of_nat (List.length (path c)) <= c.
Proof.
  intros Hc. assert (H : forall m c, (Z.to_nat c < m)%nat ->
             0 <= c < Z.of_nat (List.length data) ->
             Z.of_nat (List.length (path c)) <= c).
  { clear c Hc. induction m as [|m IH]; intros c Hm Hc; [lia|].
    destruct (Z.eq_dec c 0) as [->|Hne].
    - rewrite (inv_root _ _ Hinv). simpl. lia.
    - destruct (inv_parent _ _ Hinv c) as (p & node & j & Hp & Hj); [lia|].
      destruct (inv_link _ _ Hinv _ _ _ _ Hp Hj Hne) as [Hpc E].
      pose proof (at_range _ _ _ Hp).
      rewrite E, length_app. simpl.
      specialize (IH p). lia. }
  apply (H (S (Z.to_nat c))); auto.
Qed.

Lemma path_inj : forall n c1 c2,
  List.length (path c1) = n ->
  0 <= c1 < Z.of_nat (List.length data) ->
  0 <= c2 < Z.of_nat (List.length data) ->
  path c1 = path c2 -> c1 = c2.
Proof.
  induction n as [|n IH]; intros c1 c2 Hn H1 H2 E.
  - destruct (Z.eq_dec c1 0) as [->|N1], (Z.eq_dec c2 0) as [->|N2]; auto.
    + exfalso. apply (path_nonroot c2); [lia|].
      rewrite <- E. now apply length_zero_iff_nil.
    + exfalso. apply (path_nonroot c1); [lia|]. now apply length_zero_iff_nil.
    + exfalso. apply (path_nonroot c1); [lia|]. now apply length_zero_iff_nil.
  - assert (N1 : c1 <> 0).
    { intros ->. rewrite (inv_root _ _ Hinv) in Hn. discriminate. }
    assert (N2 : c2 <> 0).
    { intros ->. rewrite E, (inv_root _ _ Hinv) in Hn. discriminate. }
    destruct (inv_parent _ _ Hinv c1) as (p1 & node1 & j1 & Hp1 & Hj1); [lia|].
    destruct (inv_parent _ _ Hinv c2) as (p2 & node2 & j2 & Hp2 & Hj2); [lia|].
    destruct (inv_link _ _ Hinv _ _ _ _ Hp1 Hj1 N1) as [_ E1].
    destruct (inv_link _ _ Hinv _ _ _ _ Hp2 Hj2 N2) as [_ E2].
    rewrite E1, E2 in E. apply app_inj_tail in E. destruct E as [Ep Ej].
    assert (p1 = p2).
    { apply IH; auto; [|eapply at_range; eauto|eapply at_range; eauto].
      rewrite E1, length_app in Hn. simpl in Hn. lia. }
    subst. congruence.
Qed.

Lemma walk_sound : forall d c0 c,
  0 <= c0 < Z.of_nat (List.length data) ->
  walk data c0 d = Ok (Some c) ->
  0 <= c < Z.of_nat (List.length data) /\ path c = path c0 ++ d.
Proof.
  induction d as [|j d IH]; intros c0 c H0 H; simpl in H.
  - inversion H; subst. now rewrite app_nil_r.
  - apply bind_Ok in H. destruct H as (node & Hn & H).
    apply bind_Ok in H. destruct H as (child & Hc & H).
    destruct (Z.eqb_spec child 0); [discriminate|].
    destruct (inv_link _ _ Hinv _ _ _ _ Hn Hc) as [Hr E]; auto.
    destruct (IH child c) as [Hcr Ep]; auto; [lia|].
    split; auto. rewrite Ep, E, <- app_assoc. reflexivity.
Qed.

Lemma walk_defined : forall d c0,
  0 <= c0 < Z.of_nat (List.length data) ->
  Forall (fun j => 0 <= j < Z.of_nat L) d ->
  exists r, walk data c0 d = Ok r.
Proof.
  induction d as [|j d IH]; intros c0 H0 Hd; simpl; eauto.
  inversion Hd as [|? ? Hj Hd']; subst.
  destruct (at_defined data c0 H0) as [node Hn]. rewrite Hn. simpl.
  pose proof (inv_arity _ _ Hinv _ _ Hn) as Hlen.
  destruct (at_defined node j) as [child Hc]; [lia|]. rewrite Hc. simpl.
  destruct (Z.eqb_spec child 0); eauto.
  apply IH; auto.
  destruct (inv_link _ _ Hinv _ _ _ _ Hn Hc); auto. lia.
Qed.

Lemma walk_app : forall d1 d2 c0,
  walk data c0 (d1 ++ d2)
  = bind (walk data c0 d1)
         (fun r => match r with
                   | None => Ok None
                   | Some c => walk data c d2
                   end).
Proof.
  induction d1 as [|j d1 IH]; intros d2 c0; simpl; auto.
  destruct (at_ data c0) as [node| | |]; simpl; auto.
  destruct (at_ node j) as [child| | |]; simpl; auto.
  destruct (child =? 0); simpl; auto.
Qed.

Lemma walk_complete : forall d c0 c,
  0 <= c0 < Z.of_nat (List.length data) ->
  0 <= c < Z.of_nat (List.length data) ->
  path c = path c0 ++ d ->
  walk data c0 d = Ok (Some c).
Proof.
  induction d as [|j d IH] using rev_ind; intros c0 c H0 Hc E.
  - rewrite app_nil_r in E. simpl. f_equal. f_equal.
    symmetry. eapply path_inj; eauto.
  - assert (N : c <> 0).
    { intros ->. rewrite (inv_root _ _ Hinv) in E.
      symmetry in E. apply app_eq_nil in E. destruct E as [_ E].
      now apply app_eq_nil in E. }
    destruct (inv_parent _ _ Hinv c) as (p & node & j' & Hp & Hj); [lia|].
    destruct (inv_link _ _ Hinv _ _ _ _ Hp Hj N) as [_ E'].
    rewrite E', app_assoc in E. apply app_inj_tail in E. destruct E as [Ep ->].
    rewrite walk_app, (IH c0 p); auto; [|eapply at_range; eauto].
    simpl. rewrite Hp. simpl. rewrite Hj. simpl.
    destruct (Z.eqb_spec c 0); [contradiction|reflexivity].
Qed.
End Paths.

(** ** [push_back]: the walk that adds nodes *)

Lemma insert_path_grows : forall det data cur data' cur',
  insert_path data cur det = Ok (data', cur') ->
  (List.length data <= List.length data')%nat.
Proof.
  induction det as [|j det IH]; intros data cur data' cur' H; simpl in H.
  - inversion H; subst. lia.
  - apply bind_Ok in H. destruct H as (node & Hn & H).
    apply bind_Ok in H. destruct H as (child & Hc & H).
    destruct (child =? 0).
    + apply bind_Ok in H. destruct H as (node' & Hn' & H).
      apply bind_Ok in H. destruct H as (data1 & Hd1 & H).
      apply IH in H. apply set_at_Ok in Hd1. destruct Hd1 as [_ ->].
      rewrite length_app, upd_length in H. simpl in H. lia.
    + eapply IH; eauto.
Qed.

(** The node array after a new node is hung below slot [j] of [cur]. *)
Lemma data_inv_extend data path cur node j :
  data_inv data path ->
  Z.of_nat (List.length data) + 1 < 2147483648 ->
  at_ data cur = Ok node -> at_ node j = Ok 0 ->
  let fresh := Z.of_nat (List.length data) in
  let data1 := upd data (Z.to_nat cur) (upd node (Z.to_nat j) fresh)
               ++ [empty_node] in
  let path1 := fun c => if c =? fresh then path cur ++ [j] else path c in
  data_inv data1 path1
  /\ (forall p nd j0 c, at_ data p = Ok nd -> at_ nd j0 = Ok c -> c <> 0 ->
        exists nd', at_ data1 p = Ok nd' /\ at_ nd' j0 = Ok c).
Proof.
  intros Hinv Hsize Hn Hj fresh data1 path1.
  pose proof (at_range _ _ _ Hn) as Hcur.
  pose proof (at_range _ _ _ Hj) as Hjr.
  pose proof (inv_size _ _ Hinv) as Hsz.
  assert (Hlen1 : Z.of_nat (List.length data1)
                  = Z.of_nat (List.length data) + 1).
  { unfold data1. rewrite length_app, upd_length. simpl. lia. }
  assert (Hat1 : forall p, at_ data1 p
                 = if p =? fresh then Ok empty_node
                   else if p =? cur then Ok (upd node (Z.to_nat j) fresh)
                        else at_ data p).
  { intros p. unfold data1. rewrite at_snoc, upd_length. fold fresh.
    destruct (p =? fresh); auto. now rewrite at_upd. }
  assert (Hnode' : forall j0, at_ (upd node (Z.to_nat j) fresh) j0
                   = if j0 =? j then Ok fresh else at_ node j0).
  { intros j0. now rewrite at_upd. }
  assert (Hkeep : forall p nd j0 c,
             at_ data p = Ok nd -> at_ nd j0 = Ok c -> c <> 0 ->
             exists nd', at_ data1 p = Ok nd' /\ at_ nd' j0 = Ok c).
  { intros p nd j0 c Hp Hj0 Hc. pose proof (at_range _ _ _ Hp).
    rewrite Hat1. destruct (Z.eqb_spec p fresh); [unfold fresh in *; lia|].
    destruct (Z.eqb_spec p cur) as [->|]; [|eauto].
    eexists. split; [reflexivity|]. rewrite Hnode'.
    assert (nd = node) by congruence. subst nd.
    destruct (Z.eqb_spec j0 j) as [->|]; [congruence|assumption]. }
  split; [|exact Hkeep]. split.
  - lia.
  - intros p nd Hp. rewrite Hat1 in Hp.
    destruct (p =? fresh); [inversion Hp; apply repeat_length|].
    destruct (p =? cur).
    + inversion Hp. rewrite upd_length. eapply inv_arity; eauto.
    + eapply inv_arity; eauto.
  - unfold path1. destruct (Z.eqb_spec 0 fresh); [unfold fresh in *; lia|].
    apply Hinv.
  - intros p nd j0 c Hp Hj0 Hc. rewrite Hat1 in Hp. unfold path1.
    destruct (Z.eqb_spec p fresh) as [->|Hpf].
    { inversion Hp; subst. apply empty_node_at in Hj0. contradiction. }
    destruct (Z.eqb_spec p cur) as [->|Hpc].
    + inversion Hp; subst nd. rewrite Hnode' in Hj0.
      destruct (Z.eqb_spec j0 j) as [->|Hjj].
      * inversion Hj0; subst c. rewrite Z.eqb_refl. split; [lia|reflexivity].
      * destruct (inv_link _ _ Hinv _ _ _ _ Hn Hj0 Hc) as [Hr E].
        destruct (Z.eqb_spec c fresh); [unfold fresh in *; lia|].
        split; [lia|assumption].
    + destruct (inv_link _ _ Hinv _ _ _ _ Hp Hj0 Hc) as [Hr E].
      destruct (Z.eqb_spec c fresh); [unfold fresh in *; lia|].
      split; [lia|assumption].
  - intros c Hc. destruct (Z.eq_dec c fresh) as [->|Hne].
    + exists cur, (upd node (Z.to_nat j) fresh), j. split.
      * rewrite Hat1.
        destruct (Z.eqb_spec cur fresh); [unfold fresh in *; lia|].
        now rewrite Z.eqb_refl.
      * rewrite Hnode'. now rewrite Z.eqb_refl.
    + destruct (inv_parent _ _ Hinv c) as (p & nd & j0 & Hp & Hj0);
        [unfold fresh in *; lia|].
      destruct (Hkeep p nd j0 c Hp Hj0) as (nd' & ? & ?); [lia|].
      exists p, nd', j0. auto.
Qed.

Lemma insert_path_spec : forall det data cur path data' cur',
  data_inv data path ->
  0 <= cur < Z.of_nat (List.length data) ->
  insert_path data cur det = Ok (data', cur') ->
  Z.of_nat (List.length data') < 2147483648 ->
  exists path',
    data_inv data' path'
    /\ (forall c, 0 <= c < Z.of_nat (List.length data) -> path' c = path c)
    /\ 0 <= cur' < Z.of_nat (List.length data')
    /\ path' cur' = path cur ++ det
    /\ (forall p nd j c, at_ data p = Ok nd -> at_ nd j = Ok c -> c <> 0 ->
          exists nd', at_ data' p = Ok nd' /\ at_ nd' j = Ok c)
    /\ (forall c, Z.of_nat (List.length data) <= c
                  < Z.of_nat (List.length data') ->
          exists pre rest, det = pre ++ rest /\ path' c = path cur ++ pre)
    /\ Forall (fun j => 0 <= j < Z.of_nat L) det.
Proof.
  induction det as [|j det IH]; intros data cur path data' cur' Hinv Hcur H Hb;
    simpl in H.
  - inversion H; subst. exists path.
    split; [assumption|]. split; [reflexivity|]. split; [assumption|].
    split; [now rewrite app_nil_r|]. split; [eauto|].
    split; [intros c Hc; lia|constructor].
  - apply bind_Ok in H. destruct H as (node & Hn & H).
    apply bind_Ok in H. destruct H as (child & Hc & H).
    pose proof (inv_arity _ _ Hinv _ _ Hn) as Harity.
    pose proof (at_range _ _ _ Hc) as Hjr. rewrite Harity in Hjr.
    destruct (Z.eqb_spec child 0) as [->|Hne].
    + apply bind_Ok in H. destruct H as (node' & Hn' & H).
      apply bind_Ok in H. destruct H as (data1 & Hd1 & H).
      apply set_at_Ok in Hn'. destruct Hn' as [_ ->].
      apply set_at_Ok in Hd1. destruct Hd1 as [_ ->].
      pose proof (insert_path_grows _ _ _ _ _ H) as Hgrow.
      rewrite length_app, upd_length in Hgrow. simpl in Hgrow.
      rewrite int_size_small in H by lia.
      destruct (data_inv_extend data path cur node j Hinv) as [Hinv1 Hkeep1];
        auto; [lia|].
      cbv zeta in Hinv1, Hkeep1.
      set (fresh := Z.of_nat (List.length data)) in *.
      set (data1 := upd data (Z.to_nat cur) (upd node (Z.to_nat j) fresh)
                    ++ [empty_node]) in *.
      set (path1 := fun c => if c =? fresh then path cur ++ [j] else path c)
        in *.
      assert (Hlen1 : Z.of_nat (List.length data1)
                      = Z.of_nat (List.length data) + 1).
      { unfold data1. rewrite length_app, upd_length. simpl. lia. }
      destruct (IH data1 fresh path1 data' cur' Hinv1) as
          (path' & Hinv' & Hagree & Hcur' & Hpath & Hkeep & Hnew & Hlab);
        auto; [unfold fresh; lia|].
      exists path'. split; [assumption|]. split; [|split; [assumption|]].
      { intros c Hcr. rewrite Hagree by lia. unfold path1.
        destruct (Z.eqb_spec c fresh); [unfold fresh in *; lia|reflexivity]. }
      split.
      { rewrite Hpath. unfold path1. rewrite Z.eqb_refl.
        now rewrite <- app_assoc. }
      split.
      { intros p nd j0 c Hp Hj0 Hcn.
        destruct (Hkeep1 p nd j0 c Hp Hj0 Hcn) as (nd1 & ? & ?). eauto. }
      split; [|constructor; [lia|assumption]].
      intros c Hcr. destruct (Z.eq_dec c fresh) as [->|Hcf].
      * exists [j], det. split; auto. rewrite Hagree by lia.
        unfold path1. now rewrite Z.eqb_refl.
      * destruct (Hnew c) as (pre & rest & -> & Ep); [unfold fresh in *; lia|].
        exists (j :: pre), rest. split; auto. rewrite Ep. unfold path1.
        rewrite Z.eqb_refl. now rewrite <- app_assoc.
    + destruct (inv_link _ _ Hinv _ _ _ _ Hn Hc Hne) as [Hr E].
      destruct (IH data child path data' cur' Hinv) as
          (path' & Hinv' & Hagree & Hcur' & Hpath & Hkeep & Hnew & Hlab);
        auto; [lia|].
      exists path'. split; [assumption|]. split; [assumption|].
      split; [assumption|]. split.
      { rewrite Hpath, E. now rewrite <- app_assoc. }
      split; [assumption|]. split; [|constructor; [lia|assumption]].
      intros c Hcr. destruct (Hnew c Hcr) as (pre & rest & -> & Ep).
      exists (j :: pre), rest. split; auto. rewrite Ep, E.
      now rewrite <- app_assoc.
Qed.

Lemma at_resize {A} (l : list A) n d c x :
  at_ l c = Ok x -> (Z.to_nat c < n)%nat -> at_ (resize l n d) c = Ok x.
Proof.
  intros H Hn. apply at_Ok in H. destruct H as [Hr H]. apply at_Ok.
  unfold resize. split.
  - rewrite length_app, length_firstn, repeat_length. lia.
  - rewrite nth_error_app1 by (rewrite length_firstn; lia).
    now rewrite nth_error_firstn, (proj2 (Nat.ltb_lt _ _) Hn).
Qed.

Lemma resize_length {A} (l : list A) n d : List.length (resize l n d) = n.
Proof.
  unfold resize. rewrite length_app, length_firstn, repeat_length. lia.
Qed.

Section Parents.
Variables (data : list (list Z)) (path : Z -> list Z).
Hypothesis Hinv : data_inv data path.

Lemma parent_recorded_upd invs child cur node j c :
  at_ data cur = Ok node -> at_ node j = Ok child ->
  0 <= child < Z.of_nat (List.length invs) ->
  parent_recorded data invs c ->
  parent_recorded data (upd invs (Z.to_nat child) cur) c.
Proof.
  intros Hn Hc Hr (p & nd & j0 & Hi & Hp & Hj0).
  destruct (Z.eq_dec c child) as [->|Hne].
  - exists cur, node, j. rewrite at_upd, Z.eqb_refl by assumption. auto.
  - exists p, nd, j0. rewrite at_upd by assumption.
    destruct (Z.eqb_spec c child); [contradiction|auto].
Qed.

Lemma record_parents_spec : forall det invs cur leaf,
  List.length invs = List.length data ->
  0 <= cur < Z.of_nat (List.length data) ->
  walk data cur det = Ok (Some leaf) ->
  exists invs',
    record_parents data invs cur det = Ok invs'
    /\ List.length invs' = List.length invs
    /\ (forall c, parent_recorded data invs c -> parent_recorded data invs' c)
    /\ (forall pre rest c, det = pre ++ rest -> pre <> [] ->
          walk data cur pre = Ok (Some c) -> parent_recorded data invs' c).
Proof.
  induction det as [|j det IH]; intros invs cur leaf Hlen Hcur Hw; simpl in *.
  - exists invs. split; [reflexivity|]. split; [reflexivity|].
    split; [auto|]. intros pre rest c E Hpre.
    symmetry in E. apply app_eq_nil in E. destruct E. contradiction.
  - apply bind_Ok in Hw. destruct Hw as (node & Hn & Hw).
    apply bind_Ok in Hw. destruct Hw as (child & Hc & Hw).
    destruct (Z.eqb_spec child 0) as [|Hne]; [discriminate|].
    destruct (inv_link _ _ Hinv _ _ _ _ Hn Hc Hne) as [Hr E].
    rewrite Hn. simpl. rewrite Hc. simpl.
    assert (Hset : set_at invs child cur
                   = Ok (upd invs (Z.to_nat child) cur)).
    { apply set_at_Ok. split; [lia|reflexivity]. }
    rewrite Hset. simpl.
    destruct (IH (upd invs (Z.to_nat child) cur) child leaf)
      as (invs' & Hrec & Hlen' & Hold & Hnew); auto.
    { rewrite upd_length. assumption. }
    { lia. }
    exists invs'. split; [assumption|]. split.
    { rewrite Hlen', upd_length. reflexivity. }
    assert (Hchild : parent_recorded data (upd invs (Z.to_nat child) cur)
                                     child).
    { exists cur, node, j. rewrite at_upd, Z.eqb_refl by lia. auto. }
    split.
    + intros c Hp. apply Hold.
      eapply parent_recorded_upd; eauto. lia.
    + intros pre rest c Ed Hpre Hwalk.
      destruct pre as [|j0 pre]; [contradiction|].
      simpl in Ed. injection Ed as <- Ed.
      simpl in Hwalk. rewrite Hn in Hwalk. simpl in Hwalk.
      rewrite Hc in Hwalk. simpl in Hwalk.
      destruct (Z.eqb_spec child 0); [contradiction|].
      destruct pre as [|j1 pre].
      * simpl in Hwalk. injection Hwalk as <-. apply Hold. assumption.
      * eapply Hnew; eauto. discriminate.
Qed.

Lemma branch_to_first : forall node c j0 j,
  nth_error node j = Some c ->
  exists j', branch_to node c j0 = Some (j0 + Z.of_nat j')
             /\ nth_error node j' = Some c.
Proof.
  induction node as [|x node IH]; intros c j0 [|j] H; simpl in *;
    try discriminate.
  - injection H as ->. rewrite Z.eqb_refl. exists O. split; [f_equal; lia|auto].
  - destruct (Z.eqb_spec x c) as [->|Hne].
    + exists O. split; [f_equal; lia|auto].
    + destruct (IH c (j0 + 1) j H) as (j' & Hb & Hn).
      exists (S j'). split; [rewrite Hb; f_equal; lia|auto].
Qed.

Lemma skipn_upd {A} (x : A) : forall r i,
  (i < List.length r)%nat -> skipn i (upd r i x) = x :: skipn (S i) r.
Proof.
  induction r as [|y r IH]; intros [|i] H; simpl in *; try lia; auto.
  apply IH. lia.
Qed.

Lemma firstn_upd {A} (x : A) : forall r i,
  firstn i (upd r i x) = firstn i r.
Proof.
  induction r as [|y r IH]; intros [|i]; simpl; auto. now rewrite IH.
Qed.
End Parents.

(** ** Sorted leaves *)

Lemma sorted_last : forall l x,
  StronglySorted Z.lt l -> In x l -> x <= last l 0.
Proof.
  induction l as [|y l IH]; intros x Hs Hin; [contradiction|].
  apply StronglySorted_inv in Hs. destruct Hs as [Hs' Hall].
  destruct l as [|z l]; [destruct Hin as [<-|[]]; simpl; lia|].
  change (last (y :: z :: l) 0) with (last (z :: l) 0).
  destruct Hin as [<-|Hin]; [|now apply IH].
  assert (y < z) by (inversion Hall; assumption).
  specialize (IH z Hs' (or_introl eq_refl)). lia.
Qed.

Lemma sorted_snoc : forall l y,
  StronglySorted Z.lt l -> (forall x, In x l -> x < y) ->
  StronglySorted Z.lt (l ++ [y]).
Proof.
  induction l as [|z l IH]; intros y Hs Hy; simpl.
  - repeat constructor.
  - apply StronglySorted_inv in Hs. destruct Hs as [Hs' Hall]. constructor.
    + apply IH; auto. intros x Hx. apply Hy. now right.
    + apply Forall_app. split; [assumption|].
      constructor; [|constructor]. apply Hy. now left.
Qed.

Lemma sorted_length : forall l lo hi,
  StronglySorted Z.lt l -> Forall (fun x => lo <= x < hi) l ->
  lo <= hi -> Z.of_nat (List.length l) <= hi - lo.
Proof.
  induction l as [|y l IH]; intros lo hi Hs Hall Hle; simpl; [lia|].
  apply StronglySorted_inv in Hs. destruct Hs as [Hs' Hlt].
  pose proof (Forall_inv Hall) as Hy. simpl in Hy.
  pose proof (Forall_inv_tail Hall) as Hall'.
  assert (Z.of_nat (List.length l) <= hi - (y + 1)); [|lia].
  apply IH; auto; [|lia].
  rewrite Forall_forall in *. intros x Hx.
  specialize (Hlt x Hx). specialize (Hall' x Hx). simpl in *. lia.
Qed.

Lemma lower_bound_nth : forall l k x,
  StronglySorted Z.lt l -> nth_error l k = Some x -> lower_bound l x = k.
Proof.
  induction l as [|y l IH]; intros [|k] x Hs H; simpl in *; try discriminate.
  - injection H as ->. now rewrite Z.ltb_irrefl.
  - apply StronglySorted_inv in Hs. destruct Hs as [Hs' Hlt].
    rewrite Forall_forall in Hlt.
    specialize (Hlt x (nth_error_In _ _ H)).
    destruct (Z.ltb_spec y x); [|lia]. f_equal. now apply IH.
Qed.

(** ** [push_back] keeps the trie well formed *)

Lemma push_back_grows tr det tr' :
  push_back tr det = Ok tr' ->
  (List.length (data tr) <= List.length (data tr'))%nat
  /\ n_sites tr' = n_sites tr /\ enable_look_up tr' = enable_look_up tr.
Proof.
  unfold push_back. intros H.
  destruct (negb (int_size det =? n_sites tr)); [discriminate|].
  apply bind_Ok in H. destruct H as ([data' cur] & Hi & H).
  apply insert_path_grows in Hi.
  destruct (negb _); [discriminate|].
  destruct (enable_look_up tr) eqn:El.
  - apply bind_Ok in H. destruct H as (invs' & Hr & H).
    injection H as <-. simpl. auto.
  - injection H as <-. simpl. auto.
Qed.

Lemma push_back_assemble tr ds path det data' cur path' invs' :
  trie_inv tr ds path ->
  int_size det = n_sites tr ->
  (List.length (dets tr) =? 0)%nat || (cur >? last_det (dets tr)) = true ->
  data_inv data' path' ->
  (List.length (data tr) <= List.length data')%nat ->
  (forall c, 0 <= c < Z.of_nat (List.length (data tr)) -> path' c = path c) ->
  0 <= cur < Z.of_nat (List.length data') ->
  path' cur = det ->
  (forall c, Z.of_nat (List.length (data tr)) <= c
             < Z.of_nat (List.length data') ->
     exists pre rest, det = pre ++ rest /\ path' c = pre) ->
  Forall (fun j => 0 <= j < Z.of_nat L) det ->
  (enable_look_up tr = true ->
   forall c, 0 < c < Z.of_nat (List.length data') ->
             parent_recorded data' invs' c) ->
  trie_inv (mk data' (dets tr ++ [cur]) invs' (vals tr) (n_sites tr)
               (enable_look_up tr))
           (ds ++ [det]) path'.
Proof.
  intros Ht Hsz Hord Hinv' Hgrow Hagree Hcur Hpath Hnew Hlab Hinvs.
  split; simpl.
  - assumption.
  - intros d Hd. apply in_app_or in Hd. destruct Hd as [Hd|[<-|[]]].
    + eapply tinv_dets; eauto.
    + split; [|assumption].
      pose proof (path_length _ _ Hinv' cur Hcur) as Hlen.
      rewrite Hpath in Hlen. pose proof (inv_size _ _ Hinv').
      rewrite <- Hsz. symmetry. apply int_size_small. lia.
  - rewrite !length_app. simpl. now rewrite (tinv_count _ _ _ Ht).
  - intros k d Hk.
    destruct (Nat.lt_ge_cases k (List.length ds)) as [Hlt|Hge].
    + rewrite nth_error_app1 in Hk by assumption.
      destruct (tinv_leaf _ _ _ Ht k d Hk) as (leaf & Hl & Hr & Hp).
      exists leaf. split; [|split; [lia|]].
      * rewrite nth_error_app1; auto. rewrite (tinv_count _ _ _ Ht). assumption.
      * rewrite Hagree; auto.
    + rewrite nth_error_app2 in Hk by assumption.
      destruct (k - List.length ds)%nat as [|m] eqn:Ek;
        [|destruct m; discriminate].
      injection Hk as <-. exists cur. split; [|auto].
      rewrite nth_error_app2 by (rewrite (tinv_count _ _ _ Ht); lia).
      rewrite (tinv_count _ _ _ Ht), Ek. reflexivity.
  - apply sorted_snoc; [eapply tinv_sorted; eauto|].
    intros x Hx. apply orb_true_iff in Hord. destruct Hord as [Hord|Hord].
    + apply Nat.eqb_eq in Hord. apply length_zero_iff_nil in Hord.
      rewrite Hord in Hx. contradiction.
    + pose proof (sorted_last _ _ (tinv_sorted _ _ _ Ht) Hx).
      unfold last_det in Hord. lia.
  - intros c Hc.
    destruct (Z.lt_ge_cases c (Z.of_nat (List.length (data tr)))) as [Hlt|Hge].
    + destruct (tinv_prefix _ _ _ Ht c) as (d & rest & Hd & E); [lia|].
      exists d, rest. split; [apply in_or_app; now left|].
      rewrite Hagree by lia. assumption.
    + destruct (Hnew c) as (pre & rest & E & Ep); [lia|].
      exists det, rest. split; [apply in_or_app; right; now left|].
      rewrite Ep. assumption.
  - assumption.
Qed.

Lemma push_back_inv tr ds path det tr' :
  trie_inv tr ds path -> push_back tr det = Ok tr' ->
  Z.of_nat (List.length (data tr')) < 2147483648 ->
  exists path', trie_inv tr' (ds ++ [det]) path'.
Proof.
  intros Ht H Hb. pose proof (tinv_data _ _ _ Ht) as Hinv.
  pose proof (inv_size _ _ Hinv) as Hsize.
  unfold push_back in H.
  destruct (Z.eqb_spec (int_size det) (n_sites tr)) as [Hsz|];
    [|discriminate]. simpl in H.
  apply bind_Ok in H. destruct H as ([data' cur] & Hi & H).
  destruct (negb _) eqn:Hord in H; [discriminate|].
  apply negb_false_iff in Hord.
  assert (Hb' : Z.of_nat (List.length data') < 2147483648).
  { destruct (enable_look_up tr).
    - apply bind_Ok in H. destruct H as (? & _ & H). now injection H as <-.
    - now injection H as <-. }
  pose proof (insert_path_grows _ _ _ _ _ Hi) as Hgrow.
  destruct (insert_path_spec det (data tr) 0 path data' cur Hinv)
    as (path' & Hinv' & Hagree & Hcur & Hpath & Hkeep & Hnew & Hlab);
    auto; [lia|].
  rewrite (inv_root _ _ Hinv) in Hpath, Hnew. simpl in Hpath, Hnew.
  exists path'. destruct (enable_look_up tr) eqn:El.
  - apply bind_Ok in H. destruct H as (invs' & Hr & H). injection H as <-.
    rewrite <- El. apply push_back_assemble with (path := path); auto.
    intros _ c Hc.
    assert (Hw : walk data' 0 det = Ok (Some cur)).
    { apply (walk_complete _ _ Hinv'); auto; [lia|].
      rewrite (inv_root _ _ Hinv'). assumption. }
    destruct (record_parents_spec data' path' Hinv' det
                (resize (invs tr) (List.length data') 0) 0 cur)
      as (invs2 & Hr2 & _ & Hold & Hvisit); auto.
    { apply resize_length. }
    { lia. }
    assert (invs2 = invs') by congruence. subst invs2.
    destruct (Z.lt_ge_cases c (Z.of_nat (List.length (data tr)))) as [Hlt|Hge].
    + apply Hold.
      destruct (tinv_invs _ _ _ Ht El c) as (p & nd & j & Hp & Hnd & Hj);
        [lia|].
      destruct (Hkeep p nd j c Hnd Hj) as (nd' & Hnd' & Hj'); [lia|].
      exists p, nd', j. split; [|auto]. apply at_resize; auto. lia.
    + destruct (Hnew c) as (pre & rest & E & Ep); [lia|].
      apply (Hvisit pre rest c E).
      * intros ->. apply (path_nonroot _ _ Hinv' c Hc). assumption.
      * apply (walk_complete _ _ Hinv'); auto; [lia|lia|].
        rewrite (inv_root _ _ Hinv'). assumption.
  - injection H as <-. rewrite <- El.
    apply push_back_assemble with (path := path); auto.
    rewrite El. discriminate.
Qed.

Lemma make_inv n look : trie_inv (make n look) [] (fun _ => []).
Proof.
  assert (Hat : forall p node, at_ [empty_node] p = Ok node ->
                               node = empty_node).
  { intros p node H. apply at_Ok in H. destruct H as [_ H].
    apply nth_error_In in H. destruct H as [<-|[]]. reflexivity. }
  split; simpl.
  - split; simpl.
    + lia.
    + intros p node H. rewrite (Hat _ _ H). apply repeat_length.
    + reflexivity.
    + intros p node j c H Hj Hc. rewrite (Hat _ _ H) in Hj.
      apply empty_node_at in Hj. contradiction.
    + intros c Hc. lia.
  - intros d [].
  - reflexivity.
  - intros [|k] d H; discriminate.
  - constructor.
  - intros c Hc. lia.
  - intros _ c Hc. lia.
Qed.

Lemma fold_push_back_fails : forall ds (acc : outcome t) tr,
  (forall tr0, acc <> Ok tr0) ->
  fold_left (fun acc det => tr <- acc ;; push_back tr det) ds acc <> Ok tr.
Proof.
  induction ds as [|d ds IH]; intros acc tr Hacc; simpl.
  - apply Hacc.
  - apply IH. intros tr0. destruct acc; simpl; try discriminate.
    exfalso. eapply Hacc; eauto.
Qed.

Lemma fold_push_back_inv : forall ds tr0 ds0 path0 tr,
  trie_inv tr0 ds0 path0 ->
  fold_left (fun acc det => tr <- acc ;; push_back tr det) ds (Ok tr0)
  = Ok tr ->
  Z.of_nat (List.length (data tr)) < 2147483648 ->
  (List.length (data tr0) <= List.length (data tr))%nat
  /\ n_sites tr = n_sites tr0 /\ enable_look_up tr = enable_look_up tr0
  /\ exists path, trie_inv tr (ds0 ++ ds) path.
Proof.
  induction ds as [|d ds IH]; intros tr0 ds0 path0 tr Ht H Hb; simpl in H.
  - injection H as <-. rewrite app_nil_r. eauto.
  - destruct (push_back tr0 d) as [tr1| | |] eqn:Hp;
      try (exfalso; revert H; apply fold_push_back_fails; discriminate).
    destruct (push_back_grows _ _ _ Hp) as (Hg1 & Hn1 & Hl1).
    assert (Hgrow : (List.length (data tr1) <= List.length (data tr))%nat).
    { clear - H. revert tr1 H.
      induction ds as [|d' ds IH']; intros tr1 H; simpl in H.
      - injection H as <-. lia.
      - destruct (push_back tr1 d') as [tr2| | |] eqn:Hp;
          try (exfalso; revert H; apply fold_push_back_fails; discriminate).
        apply push_back_grows in Hp. apply IH' in H. lia. }
    destruct (push_back_inv tr0 ds0 path0 d tr1 Ht Hp) as [path1 Ht1]; [lia|].
    destruct (IH tr1 (ds0 ++ [d]) path1 tr Ht1 H Hb)
      as (Hg & Hn & Hl & path & Hfin).
    rewrite <- app_assoc in Hfin. simpl in Hfin.
    split; [lia|]. split; [congruence|]. split; [congruence|eauto].
Qed.

(** ** [find] and [operator[]] on a well-formed trie *)

Section Lookup.
Variables (tr : t) (ds : list (list Z)) (path : Z -> list Z).
Hypothesis Ht : trie_inv tr ds path.

Lemma leaves_in_range :
  Forall (fun x => 0 <= x < Z.of_nat (List.length (data tr))) (dets tr).
Proof.
  apply Forall_forall. intros x Hx.
  apply In_nth_error in Hx. destruct Hx as [k Hk].
  assert (Hlt : (k < List.length ds)%nat).
  { rewrite <- (tinv_count _ _ _ Ht). apply nth_error_Some. congruence. }
  destruct (nth_error ds k) as [d|] eqn:Ed;
    [|apply nth_error_None in Ed; lia].
  destruct (tinv_leaf _ _ _ Ht k d Ed) as (leaf & Hl & Hr & _).
  congruence.
Qed.

Lemma leaves_count :
  Z.of_nat (List.length (dets tr)) <= Z.of_nat (List.length (data tr)).
Proof.
  pose proof (sorted_length (dets tr) 0 (Z.of_nat (List.length (data tr)))
                (tinv_sorted _ _ _ Ht) leaves_in_range).
  lia.
Qed.

Lemma det_size d : is_det (n_sites tr) d -> n_sites tr < 2147483648 ->
  int_size d = n_sites tr.
Proof.
  intros [Hlen _] Hn. rewrite int_size_small; lia.
Qed.

Lemma find_inserted k d :
  nth_error ds k = Some d -> find tr d = Ok (Z.of_nat k).
Proof.
  intros Hk. pose proof (tinv_data _ _ _ Ht) as Hinv.
  pose proof (inv_size _ _ Hinv) as Hsize.
  destruct (tinv_leaf _ _ _ Ht k d Hk) as (leaf & Hl & Hr & Hp).
  destruct (tinv_dets _ _ _ Ht d (nth_error_In _ _ Hk)) as [Hlen Hlab].
  pose proof (path_length _ _ Hinv leaf Hr) as Hpl. rewrite Hp in Hpl.
  pose proof leaves_count as Hcount.
  assert (Hkl : (k < List.length (dets tr))%nat).
  { apply nth_error_Some. congruence. }
  unfold find. rewrite int_size_small by lia.
  rewrite Hlen, Z.eqb_refl. simpl.
  rewrite (walk_complete _ _ Hinv d 0 leaf); auto; [|lia|].
  2:{ rewrite (inv_root _ _ Hinv). assumption. }
  simpl. rewrite (lower_bound_nth _ k leaf (tinv_sorted _ _ _ Ht) Hl).
  assert (Hw : wrap32 (Z.of_nat k) = Z.of_nat k).
  { unfold wrap32. rewrite Z.mod_small; lia. }
  rewrite Hw, int_size_small by lia.
  destruct (Z.ltb_spec (Z.of_nat k) (Z.of_nat (List.length (dets tr))));
    [|lia].
  assert (Hat : at_ (dets tr) (Z.of_nat k) = Ok leaf).
  { apply at_Ok. rewrite Nat2Z.id. split; [lia|assumption]. }
  rewrite Hat. simpl. now rewrite Z.eqb_refl.
Qed.

Lemma find_absent d :
  n_sites tr < 2147483648 -> is_det (n_sites tr) d -> ~ In d ds ->
  find tr d = Ok (-1).
Proof.
  intros Hn Hd Hnot. pose proof (tinv_data _ _ _ Ht) as Hinv.
  pose proof (inv_size _ _ Hinv) as Hsize.
  unfold find. rewrite (det_size d Hd Hn), Z.eqb_refl. simpl.
  destruct Hd as [Hlen Hlab].
  destruct (walk_defined _ _ Hinv d 0) as [[c|] Hw]; auto; [lia| |];
    rewrite Hw; simpl; [|reflexivity].
  destruct (walk_sound _ _ Hinv d 0 c) as [Hc Hp]; auto; [lia|].
  rewrite (inv_root _ _ Hinv) in Hp. simpl in Hp.
  destruct (Z.eq_dec c 0) as [->|Hne].
  - rewrite (inv_root _ _ Hinv) in Hp. subst d.
    assert (Hds : ds = []).
    { destruct ds as [|d' ds']; [reflexivity|]. exfalso. apply Hnot.
      destruct (tinv_dets _ _ _ Ht d' (or_introl eq_refl)) as [Hl' _].
      simpl in Hlen. rewrite <- Hlen in Hl'.
      destruct d'; [now left|discriminate]. }
    pose proof (tinv_count _ _ _ Ht) as Hcount. rewrite Hds in Hcount.
    apply length_zero_iff_nil in Hcount. rewrite Hcount. reflexivity.
  - exfalso. destruct (tinv_prefix _ _ _ Ht c) as (d' & rest & Hin & E);
      [lia|].
    destruct (tinv_dets _ _ _ Ht d' Hin) as [Hl' _].
    rewrite Hp in E. assert (rest = []).
    { apply length_zero_iff_nil. rewrite E, length_app in Hl'. lia. }
    subst rest. rewrite app_nil_r in E. subst d'. contradiction.
Qed.

Hypothesis Hlook : enable_look_up tr = true.

Lemma climb_spec : forall i c r,
  0 <= c < Z.of_nat (List.length (data tr)) ->
  List.length (path c) = i -> (i <= List.length r)%nat ->
  climb tr c i r = Ok (path c ++ skipn i r).
Proof.
  pose proof (tinv_data _ _ _ Ht) as Hinv.
  induction i as [|i IH]; intros c r Hc Hlen Hr; simpl.
  - apply length_zero_iff_nil in Hlen. now rewrite Hlen.
  - assert (Hne : c <> 0).
    { intros ->. rewrite (inv_root _ _ Hinv) in Hlen. discriminate. }
    destruct (tinv_invs _ _ _ Ht Hlook c) as (p & nd & j & Hp & Hnd & Hj);
      [lia|].
    destruct (inv_link _ _ Hinv _ _ _ _ Hnd Hj Hne) as [Hpc E].
    pose proof (at_range _ _ _ Hnd) as Hpr.
    rewrite Hp. simpl. rewrite Hnd. simpl.
    apply at_Ok in Hj. destruct Hj as [Hjr Hj].
    destruct (branch_to_first nd c 0 _ Hj) as (j' & Hb & Hj').
    assert (Hat : at_ nd (Z.of_nat j') = Ok c).
    { apply at_Ok. rewrite Nat2Z.id. split; [|assumption].
      assert (j' < List.length nd)%nat by (apply nth_error_Some; congruence).
      lia. }
    destruct (inv_link _ _ Hinv _ _ _ _ Hnd Hat Hne) as [_ E'].
    rewrite E in E'. apply app_inj_tail in E'. destruct E' as [_ Ej].
    rewrite Hb, Z.add_0_l, <- Ej.
    rewrite E, length_app in Hlen. simpl in Hlen.
    rewrite IH; [|lia|lia|rewrite upd_length; lia].
    rewrite skipn_upd by lia. rewrite E, <- app_assoc. reflexivity.
Qed.

Lemma get_inserted k d :
  nth_error ds k = Some d -> get tr (Z.of_nat k) = Ok d.
Proof.
  intros Hk. pose proof (tinv_data _ _ _ Ht) as Hinv.
  pose proof (inv_size _ _ Hinv) as Hsize.
  destruct (tinv_leaf _ _ _ Ht k d Hk) as (leaf & Hl & Hr & Hp).
  destruct (tinv_dets _ _ _ Ht d (nth_error_In _ _ Hk)) as [Hlen Hlab].
  pose proof leaves_count as Hcount.
  assert (Hkl : (k < List.length (dets tr))%nat).
  { apply nth_error_Some. congruence. }
  unfold get. rewrite Hlook. unfold to_size_t. rewrite Z.mod_small by lia.
  destruct (Z.ltb_spec (Z.of_nat k) (Z.of_nat (List.length (dets tr))));
    [|lia]. simpl.
  assert (Hat : at_ (dets tr) (Z.of_nat k) = Ok leaf).
  { apply at_Ok. rewrite Nat2Z.id. split; [lia|assumption]. }
  rewrite Hat. simpl. rewrite <- Hlen, Nat2Z.id.
  rewrite climb_spec; auto.
  - rewrite Hp, skipn_all2 by (rewrite repeat_length; lia).
    now rewrite app_nil_r.
  - now rewrite Hp.
  - rewrite repeat_length. lia.
Qed.
End Lookup.

(** C7.  A trie built by successive [push_back] calls, none of which
    fails an assertion (determinants of [n_sites] entries, arriving in
    the order of their leaves) and whose node count fits an [int]:
    [find] returns the insertion position of every inserted
    determinant, [operator[]] at that position gives the determinant
    back when look-up is enabled, and [find] returns -1 for every
    determinant of [n_sites] branch labels that was not inserted. *)
Theorem trie_round_trip n look ds tr :
  n < 2147483648 ->
  build n look ds = Ok tr ->
  Z.of_nat (List.length (data tr)) < 2147483648 ->
  (forall k d, nth_error ds k = Some d ->
     find tr d = Ok (Z.of_nat k)
     /\ (look = true -> get tr (Z.of_nat k) = Ok d))
  /\ (forall d, is_det n d -> ~ In d ds -> find tr d = Ok (-1)).
Proof.
  intros Hn Hb Hsize. unfold build in Hb.
  destruct (fold_push_back_inv ds (make n look) [] (fun _ => []) tr
              (make_inv n look) Hb Hsize)
    as (_ & Hsites & Hl & path & Ht).
  simpl in Hsites, Hl, Ht. split.
  - intros k d Hk. split.
    + eapply find_inserted; eauto.
    + intros ->. eapply get_inserted; eauto.
  - intros d Hd Hnot. eapply find_absent; eauto; rewrite Hsites; auto.
Qed.

Lemma trie_round_trip_witness :
  (forall k d, nth_error dets3 k = Some d ->
     find trie3 d = Ok (Z.of_nat k)
     /\ (true = true -> get trie3 (Z.of_nat k) = Ok d))
  /\ (forall d, is_det 3 d -> ~ In d dets3 -> find trie3 d = Ok (-1)).
Proof.
  apply (trie_round_trip 3 true dets3 trie3);
    [reflexivity|vm_compute; reflexivity|vm_compute; reflexivity].
Defined.
End TrieFacts.

(** * Delayed dispatch *)

Module DispatchFacts.
Import DelayedTensorFunctions.

Section ZeroNode.
Variables OpElement Label Matrix Info World : Type.
Variable abs_value : OpElement -> OpElement.
Variable is_delayed : Matrix -> World -> bool.
Variable build : Matrix -> World -> Matrix * World.
Variable deallocate : Matrix -> World -> World.
Variable info_of : Matrix -> World -> Info.
Variable new_matrix : Info -> World -> Matrix * World.
Variable opf_tensor_product :
  Z -> Matrix -> Matrix -> Matrix -> float -> World -> World.
Variable opf_tensor_product_multiply :
  Z -> Matrix -> Matrix -> Matrix -> Matrix -> Label -> float ->
  World -> World.
Variable opf_tensor_product_diagonal :
  Z -> Matrix -> Matrix -> Matrix -> Label -> float -> World -> World.
Variable opf_iadd : Matrix -> Matrix -> float -> bool -> World -> World.
Variable seq_is_simple : World -> bool.
Variable simple_perform : World -> World.

(** C9.  On a [Zero] node the three evaluation functions return at
    once: whatever the operand maps, the matrices and the kernels are,
    the call succeeds and the memory, which holds the output matrix
    and the matrices of both operand maps, is the one it started
    from. *)
Theorem zero_node_is_no_op (lop rop : op_map OpElement Matrix)
        (mat cmat vmat : Matrix) (opdq : Label) (w : World) :
  tensor_product OpElement Matrix Info World abs_value is_delayed build
                 deallocate info_of new_matrix opf_tensor_product
                 opf_iadd seq_is_simple simple_perform
                 Zero lop rop mat w = Ok w
  /\ tensor_product_multiply OpElement Label Matrix World is_delayed
                             build deallocate
                             opf_tensor_product_multiply
                             Zero lop rop cmat vmat opdq w = Ok w
  /\ tensor_product_diagonal OpElement Label Matrix World is_delayed
                             build deallocate
                             opf_tensor_product_diagonal
                             Zero lop rop mat opdq w = Ok w.
Proof. split; [|split]; reflexivity. Qed.

(** A sum of [Zero] nodes does nothing either. *)
Lemma sum_of_zero_nodes (lop rop : op_map OpElement Matrix) (mat : Matrix)
      (w : World) (k : nat) :
  tensor_product OpElement Matrix Info World abs_value is_delayed build
                 deallocate info_of new_matrix opf_tensor_product
                 opf_iadd seq_is_simple simple_perform
                 (Sum _ (repeat Zero k)) lop rop mat w = Ok w.
Proof.
  simpl. induction k as [|k IH]; simpl; auto.
Qed.
End ZeroNode.
End DispatchFacts.

(** * Further properties of indices and permutations *)

Lemma lex_ltb_total {A} (ltb : A -> A -> bool) :
  (forall a b, ltb a b = false -> ltb b a = false -> a = b) ->
  forall l1 l2, lex_ltb ltb l1 l2 = false -> lex_ltb ltb l2 l1 = false ->
                l1 = l2.
Proof.
  intros Htot. induction l1 as [|x l1 IH]; intros [|y l2]; simpl;
    try discriminate; auto.
  destruct (ltb x y) eqn:Exy; [discriminate|].
  destruct (ltb y x) eqn:Eyx; [discriminate|].
  intros H1 H2. rewrite (Htot _ _ Exy Eyx).
  f_equal. now apply IH.
Qed.

Module OrderFacts.

(** X1.  [WickIndex::operator<] is a strict total order that agrees with
    [operator==]: no index is below itself, the order is transitive,
    and two indices neither of which is below the other are equal. *)
Theorem index_order_strict_total :
  (forall a, WickIndex.ltb a a = false)
  /\ (forall a b c, WickIndex.ltb a b = true -> WickIndex.ltb b c = true ->
                    WickIndex.ltb a c = true)
  /\ (forall a b, WickIndex.ltb a b = false -> WickIndex.ltb b a = false ->
                  WickIndex.eqb a b = true)
  /\ (forall a b, WickIndex.eqb a b = true <-> a = b).
Proof.
  split; [exact IndexOrder.ltb_irrefl|].
  split; [exact IndexOrder.ltb_trans|].
  split; [|exact IndexOrder.index_eqb_eq].
  intros a b H1 H2. apply IndexOrder.index_eqb_eq.
  now apply IndexOrder.ltb_total.
Qed.

Lemma Zltb_irrefl a : (a <? a) = false.
Proof. apply Z.ltb_irrefl. Qed.

Lemma Zltb_trans a b c : (a <? b) = true -> (b <? c) = true -> (a <? c) = true.
Proof. rewrite !Z.ltb_lt. lia. Qed.

Lemma Zltb_total a b : (a <? b) = false -> (b <? a) = false -> a = b.
Proof. rewrite !Z.ltb_ge. lia. Qed.

(** X5.  [WickPermutation::operator<] is a strict total order that
    agrees with [operator==]. *)
Theorem permutation_order_strict_total :
  (forall a, WickPermutation.ltb a a = false)
  /\ (forall a b c, WickPermutation.ltb a b = true ->
                    WickPermutation.ltb b c = true ->
                    WickPermutation.ltb a c = true)
  /\ (forall a b, WickPermutation.ltb a b = false ->
                  WickPermutation.ltb b a = false ->
                  WickPermutation.eqb a b = true).
Proof.
  unfold WickPermutation.ltb. split; [|split].
  - intros a. rewrite Bool.eqb_reflx. apply lex_ltb_irrefl, Zltb_irrefl.
  - intros [da na] [db nb] [dc nc]; simpl.
    destruct na, nb, nc; simpl; try discriminate; auto;
      apply (lex_ltb_trans _ Zltb_trans Zltb_total).
  - intros [da na] [db nb]; simpl. unfold WickPermutation.eqb; simpl.
    destruct na, nb; simpl; try discriminate; intros H1 H2;
      apply (list_eqb_eq _ Z.eqb_eq);
      now apply (lex_ltb_total _ Zltb_total).
Qed.
End OrderFacts.

(** * Further properties of [WickPermutation] *)
Module GroupFacts.
Import WickPermutation.

Lemma mul_ident_l n p :
  Z.of_nat n <= 32768 -> bijection_on n (data p) ->
  mul (mk (ident n) false) p = p.
Proof.
  intros Hn (Hl & _ & Hr). apply PermutationFacts.t_eq; [|reflexivity].
  rewrite PermutationFacts.mul_data
    by (simpl; now rewrite PermutationFacts.ident_length).
  simpl. rewrite PermutationFacts.ident_small by assumption.
  transitivity (map (fun x => x) (data p)); [|apply map_id].
  apply map_ext_in. intros x Hx. rewrite Forall_forall in Hr.
  specialize (Hr x Hx). simpl in Hr.
  rewrite zth_in_range by (rewrite length_map, length_seq; lia).
  rewrite nth_map_seq by lia. lia.
Qed.

(** X2.  On permutations of [{0..n-1}] the product of [operator*] is
    associative, and the identity permutation with positive sign is
    neutral on both sides. *)
Theorem permutation_product_laws (n : nat) (a b c : t) :
  Z.of_nat n <= 32768 ->
  bijection_on n (data a) -> bijection_on n (data b) ->
  bijection_on n (data c) ->
  mul a (mul b c) = mul (mul a b) c
  /\ mul a (mk (ident n) false) = a
  /\ mul (mk (ident n) false) a = a
  /\ bijection_on n (data (mul a b)).
Proof.
  intros Hn Ha Hb Hc. split; [|split; [|split]].
  - apply (PermutationFacts.mul_assoc n); auto; [apply Ha|apply Hb].
  - apply PermutationFacts.mul_ident_r; auto. apply Ha.
  - now apply mul_ident_l.
  - now apply PermutationFacts.mul_bijection.
Qed.

Lemma four_anti_bijections :
  Forall (fun d => bijection_on 4 (data d)) four_anti.
Proof.
  unfold four_anti, bijection_on.
  repeat constructor; simpl; try lia;
    try (intros H; repeat (destruct H as [H|H]; try discriminate H); exact H).
Qed.

Lemma permutation_product_laws_witness :
  let a := mk [1; 0; 2; 3] true in
  let b := mk [0; 1; 3; 2] true in
  mul a (mul b a) = mul (mul a b) a
  /\ mul a (mk (ident 4) false) = a
  /\ mul (mk (ident 4) false) a = a
  /\ bijection_on 4 (data (mul a b)).
Proof.
  cbv zeta.
  pose proof four_anti_bijections as H. unfold four_anti in H.
  pose proof (Forall_inv H) as Ha.
  pose proof (Forall_inv (Forall_inv_tail H)) as Hb.
  apply (permutation_product_laws 4); auto. simpl. lia.
Defined.

Lemma complete_loop_head : forall fuel def k vwp x,
  hd_error vwp = Some x -> hd_error (complete_loop fuel def k vwp) = Some x.
Proof.
  induction fuel as [|fuel IH]; intros def k vwp x H; simpl; auto.
  destruct (nth_error vwp k) as [g|]; auto.
  apply IH. destruct (PermutationFacts.extend_app g def vwp) as [l ->].
  destruct vwp; [discriminate|assumption].
Qed.

(** X3.  [complete_set] returns a list without repetitions that starts
    with the identity and holds every generator that is a permutation
    of [{0..n-1}]. *)
Theorem complete_set_lists_generators (n : nat) (G : list t) :
  Z.of_nat n <= 32768 ->
  Forall (fun d => bijection_on n (data d)) G ->
  NoDup (complete_set n G)
  /\ hd_error (complete_set n G) = Some (identity_perm n)
  /\ (forall g, In g G -> In g (complete_set n G)).
Proof.
  intros Hn HG. pose proof (PermutationFacts.complete_set_inv n G) as Hinv.
  split; [apply Hinv|]. split.
  - unfold identity_perm. rewrite <- PermutationFacts.ident_small by assumption.
    unfold complete_set. now apply complete_loop_head.
  - intros g Hg. rewrite Forall_forall in HG.
    rewrite <- (mul_ident_l n g Hn (HG g Hg)).
    apply PermutationFacts.complete_set_closed_right; auto.
    apply Hinv.
Qed.

Lemma complete_set_lists_generators_witness :
  NoDup (complete_set 4 four_anti)
  /\ hd_error (complete_set 4 four_anti) = Some (identity_perm 4)
  /\ (forall g, In g four_anti -> In g (complete_set 4 four_anti)).
Proof.
  apply (complete_set_lists_generators 4 four_anti);
    [simpl; lia|exact four_anti_bijections].
Defined.

Lemma mul_cancel_l n p q1 q2 :
  bijection_on n (data p) -> bijection_on n (data q1) ->
  bijection_on n (data q2) -> mul p q1 = mul p q2 -> q1 = q2.
Proof.
  intros (Lp & Np & Rp) (L1 & _ & R1) (L2 & _ & R2) E.
  pose proof (f_equal data E) as Ed.
  pose proof (f_equal negative E) as En. simpl in En.
  apply PermutationFacts.t_eq.
  - rewrite !PermutationFacts.mul_data in Ed by congruence.
    apply nth_ext with (d := 0) (d' := 0); [congruence|].
    intros i Hi.
    assert (H : nth i (map (fun x => zth (data p) x 0) (data q1)) 0
                = nth i (map (fun x => zth (data p) x 0) (data q2)) 0)
      by now rewrite Ed.
    rewrite (nth_indep _ 0 (zth (data p) 0 0)) in H
      by (rewrite length_map; lia).
    rewrite (nth_indep (map _ (data q2)) 0 (zth (data p) 0 0)) in H
      by (rewrite length_map; lia).
    rewrite !(map_nth (fun x => zth (data p) x 0)) in H.
    rewrite Forall_forall in R1, R2.
    assert (H1 : 0 <= nth i (data q1) 0 < Z.of_nat n)
      by (apply R1, nth_In; lia).
    assert (H2 : 0 <= nth i (data q2) 0 < Z.of_nat n)
      by (apply R2, nth_In; lia).
    rewrite !zth_in_range in H by lia.
    rewrite NoDup_nth in Np. apply Np in H; lia.
  - destruct (negative p), (negative q1), (negative q2); simpl in En;
      congruence.
Qed.

(** X4.  The list built by [complete_set] is a group: every element
    has an inverse in the list, on both sides. *)
Theorem complete_set_has_inverses (n : nat) (G : list t) (p : t) :
  Z.of_nat n <= 32768 ->
  Forall (fun d => bijection_on n (data d)) G ->
  In p (complete_set n G) ->
  exists q, In q (complete_set n G)
            /\ mul p q = mk (ident n) false
            /\ mul q p = mk (ident n) false.
Proof.
  intros Hn HG Hp. set (S := complete_set n G).
  pose proof (PermutationFacts.complete_set_inv n G) as Hinv. fold S in Hinv.
  assert (Hbij : forall x, In x S -> bijection_on n (data x)).
  { intros x Hx. eapply PermutationFacts.generated_bijection; eauto.
    eapply inv_gen; eauto. }
  assert (Hclosed : forall x y, In x S -> In y S -> In (mul x y) S).
  { intros x y Hx Hy. apply PermutationFacts.complete_set_closed; auto.
    eapply inv_gen; eauto. }
  assert (He : In (mk (ident n) false) S) by apply Hinv.
  assert (Hnd : NoDup (map (mul p) S)).
  { apply Finite.Injective_map_NoDup_in; [|apply Hinv].
    intros x y Hx Hy. apply (mul_cancel_l n); auto. }
  assert (Hincl : incl (map (mul p) S) S).
  { intros x Hx. apply in_map_iff in Hx. destruct Hx as (y & <- & Hy). auto. }
  assert (Hsur : incl S (map (mul p) S)).
  { apply NoDup_length_incl; auto. rewrite length_map. lia. }
  destruct (proj1 (in_map_iff _ _ _) (Hsur _ He)) as (q & Hq & Hqs).
  exists q. split; [assumption|]. split; [assumption|].
  apply (mul_cancel_l n p); auto.
  rewrite (PermutationFacts.mul_assoc n); auto;
    [|apply (Hbij p Hp)|apply (Hbij q Hqs)].
  rewrite Hq. rewrite mul_ident_l by auto.
  symmetry. apply PermutationFacts.mul_ident_r; auto. apply (Hbij p Hp).
Qed.

Lemma complete_set_has_inverses_witness :
  exists q, In q (complete_set 4 four_anti)
            /\ mul (mk [1; 0; 3; 2] false) q = mk (ident 4) false
            /\ mul q (mk [1; 0; 3; 2] false) = mk (ident 4) false.
Proof.
  apply (complete_set_has_inverses 4 four_anti);
    [simpl; lia|exact four_anti_bijections|].
  vm_compute. tauto.
Defined.

Lemma two_halves_bijection (n : nat) (f1 f2 : nat -> nat) :
  (forall j, (j < n)%nat -> (f1 j < 2 * n)%nat /\ (f2 j < 2 * n)%nat) ->
  (forall j k, (j < n)%nat -> (k < n)%nat -> f1 j <> f2 k) ->
  (forall j k, (j < n)%nat -> (k < n)%nat -> f1 j = f1 k -> j = k) ->
  (forall j k, (j < n)%nat -> (k < n)%nat -> f2 j = f2 k -> j = k) ->
  bijection_on (2 * n)
    (map (fun j => Z.of_nat (f1 j)) (seq 0 n)
     ++ map (fun j => Z.of_nat (f2 j)) (seq 0 n)).
Proof.
  intros R D I1 I2. split; [|split].
  - rewrite length_app, !length_map, !length_seq. lia.
  - apply NoDup_app.
    + apply Finite.Injective_map_NoDup_in; [|apply seq_NoDup].
      intros j k Hj Hk E. apply in_seq in Hj, Hk.
      apply Nat2Z.inj in E. apply I1; auto; lia.
    + apply Finite.Injective_map_NoDup_in; [|apply seq_NoDup].
      intros j k Hj Hk E. apply in_seq in Hj, Hk.
      apply Nat2Z.inj in E. apply I2; auto; lia.
    + intros x H1 H2. apply in_map_iff in H1, H2.
      destruct H1 as (j & <- & Hj). destruct H2 as (k & E & Hk).
      apply in_seq in Hj, Hk. apply Nat2Z.inj in E.
      apply (D j k); auto; lia.
  - apply Forall_app. split; apply Forall_forall; intros x Hx;
      apply in_map_iff in Hx; destruct Hx as (j & <- & Hj);
      apply in_seq in Hj; destruct (R j); lia.
Qed.

Lemma pair_row_bijection n i :
  (1 <= i < n)%nat -> bijection_on (2 * n) (pair_row n i).
Proof.
  intros Hi. unfold pair_row.
  apply (two_halves_bijection n
           (fun j => if (j =? 0)%nat then i
                     else if (j =? i)%nat then 0%nat else j)
           (fun j => if (j =? 0)%nat then (i + n)%nat
                     else if (j =? i)%nat then n else (j + n)%nat)).
  - intros j Hj. destruct (Nat.eqb_spec j 0), (Nat.eqb_spec j i); lia.
  - intros j k Hj Hk.
    destruct (Nat.eqb_spec j 0), (Nat.eqb_spec k 0),
      (Nat.eqb_spec j i), (Nat.eqb_spec k i); lia.
  - intros j k Hj Hk.
    destruct (Nat.eqb_spec j 0), (Nat.eqb_spec k 0),
      (Nat.eqb_spec j i), (Nat.eqb_spec k i); lia.
  - intros j k Hj Hk.
    destruct (Nat.eqb_spec j 0), (Nat.eqb_spec k 0),
      (Nat.eqb_spec j i), (Nat.eqb_spec k i); lia.
Qed.

(** X6.  For [1 <= n] (and [2 n] within [int16_t]),
    [pair_symmetric(n, hermitian)] returns [n - 1] generators, and one
    more when [hermitian] is set; each is a permutation of
    [{0..2n-1}] with positive sign. *)
Theorem pair_symmetric_generators (n : nat) (hermitian : bool) :
  (1 <= n)%nat -> Z.of_nat n <= 16384 ->
  List.length (pair_symmetric n hermitian)
  = (n - 1 + if hermitian then 1 else 0)%nat
  /\ Forall (fun p => bijection_on (2 * n) (data p) /\ negative p = false)
            (pair_symmetric n hermitian).
Proof.
  intros Hn _. unfold pair_symmetric. split.
  - rewrite length_app, length_map, length_seq. now destruct hermitian.
  - apply Forall_app. split.
    + apply Forall_forall. intros p Hp. apply in_map_iff in Hp.
      destruct Hp as (i & <- & Hi). apply in_seq in Hi. simpl. split; auto.
      apply pair_row_bijection. lia.
    + destruct hermitian; constructor; [|constructor].
      simpl. split; auto.
      apply (two_halves_bijection n (fun j => (j + n)%nat) (fun j => j));
        intros; lia.
Qed.

Lemma pair_symmetric_generators_witness :
  List.length (pair_symmetric 2 true) = 2%nat
  /\ Forall (fun p => bijection_on 4 (data p) /\ negative p = false)
            (pair_symmetric 2 true).
Proof. apply (pair_symmetric_generators 2 true); simpl; lia. Defined.
End GroupFacts.

(** * Further properties of [WickTensor] *)
Module TensorFacts.
Import WickTensor.

(** X7.  Permuting a tensor by [p] and then by [q] gives the indices of
    permuting it by the product [p * q]; the identity permutation leaves
    the indices as they are; name and type are never changed. *)
Theorem tensor_permutation_composes (a : t) (p q : WickPermutation.t) :
  Z.of_nat (List.length (indices a)) <= 32768 ->
  List.length (WickPermutation.data p) = List.length (indices a) ->
  bijection_on (List.length (indices a)) (WickPermutation.data q) ->
  indices (mul (mul a p) q) = indices (mul a (WickPermutation.mul p q))
  /\ indices (mul a (WickPermutation.mk
                       (WickPermutation.ident (List.length (indices a)))
                       false))
     = indices a
  /\ name (mul a p) = name a /\ type (mul a p) = type a.
Proof.
  intros Hn Lp (Lq & _ & Rq). split; [|split; [|split; reflexivity]].
  - now apply TensorSortFacts.mul_mul_indices.
  - now apply TensorSortFacts.mul_ident_indices.
Qed.

Lemma tensor_permutation_composes_witness :
  let p := WickPermutation.mk [1; 0; 2; 3] true in
  let q := WickPermutation.mk [0; 1; 3; 2] true in
  indices (mul (mul v_badc p) q)
  = indices (mul v_badc (WickPermutation.mul p q))
  /\ indices (mul v_badc (WickPermutation.mk
                            (WickPermutation.ident
                               (List.length (indices v_badc))) false))
     = indices v_badc
  /\ name (mul v_badc p) = name v_badc /\ type (mul v_badc p) = type v_badc.
Proof.
  cbv zeta. apply tensor_permutation_composes.
  - simpl. lia.
  - reflexivity.
  - pose proof GroupFacts.four_anti_bijections as H. unfold WickPermutation.four_anti in H.
    exact (Forall_inv (Forall_inv_tail H)).
Defined.

Lemma sort_fold_chosen a : forall l seen st,
  (forall p, In p l -> In p (perms a)) ->
  sort_inv a seen st ->
  sort_inv a (seen ++ l) (fold_left (sort_step a) l st).
Proof.
  induction l as [|q l IH]; intros seen st Hl Hk; simpl.
  - now rewrite app_nil_r.
  - replace (seen ++ q :: l) with ((seen ++ [q]) ++ l)
      by now rewrite <- app_assoc.
    apply IH; [intros; apply Hl; now right|].
    destruct Hk as (Hshape & Hlow & Hmin). unfold sort_step.
    fold tuple_ltb.
    destruct (tuple_ltb (indices (mul a q)) (indices (fst st))) eqn:E.
    + split; [|split]; cbn [fst snd].
      * right. exists q. split; [apply Hl; now left|split; reflexivity].
      * destruct (tuple_ltb (indices a) (indices (mul a q))) eqn:F; auto.
        rewrite (tuple_ltb_trans _ _ _ F E) in Hlow. discriminate.
      * intros p Hp. apply in_app_or in Hp. destruct Hp as [Hp|[<-|[]]].
        -- destruct (tuple_ltb (indices (mul a p)) (indices (mul a q))) eqn:F;
             auto.
           pose proof (tuple_ltb_trans _ _ _ F E) as T.
           rewrite (Hmin p Hp) in T. discriminate.
        -- apply tuple_ltb_irrefl.
    + split; [assumption|]. split; [assumption|].
      intros p Hp. apply in_app_or in Hp. destruct Hp as [Hp|[<-|[]]]; auto.
Qed.

(** X8.  [sort] returns the receiver or one of its images under its
    permutation list, whose index tuple is not above the receiver's nor
    above that of any image; the factor changes sign exactly when the
    image taken comes from a negative permutation. *)
Theorem sort_takes_least (a : t) (f : float) :
  let x := fst (sort a f) in
  ((x = a /\ snd (sort a f) = f)
   \/ exists p, In p (perms a) /\ x = mul a p
                /\ snd (sort a f)
                   = if WickPermutation.negative p then PrimFloat.opp f
                     else f)
  /\ tuple_ltb (indices a) (indices x) = false
  /\ forall p, In p (perms a) ->
               tuple_ltb (indices (mul a p)) (indices x) = false.
Proof.
  cbv zeta. unfold sort.
  pose proof (sort_fold_chosen a (perms a) [] (a, false) (fun p H => H)) as K.
  destruct (fold_left (sort_step a) (perms a) (a, false)) as [x neg] eqn:E.
  cbn [fst snd] in *.
  destruct K as (Hshape & Hlow & Hmin).
  { split; [now left|]. split; [apply tuple_ltb_irrefl|intros p []]. }
  cbn [fst snd] in *. split; [|split; assumption].
  destruct Hshape as [[= -> ->]|(p & Hp & -> & ->)]; [now left|].
  right. exists p. auto.
Qed.

Lemma perm_valid_identity ixs :
  Z.of_nat (List.length ixs) <= 32768 ->
  perm_valid ixs (WickPermutation.mk
                    (WickPermutation.ident (List.length ixs)) false) = true.
Proof.
  intros Hn. unfold perm_valid. apply forallb_forall. intros i Hi.
  apply in_seq in Hi. unfold slot_conflict. cbn [WickPermutation.data].
  rewrite PermutationFacts.ident_small by assumption.
  rewrite zth_nth, nth_map_seq by lia.
  unfold idx_at. rewrite zth_nth.
  unfold WickIndexTypes.and, WickIndexTypes.None. rewrite Z.land_diag.
  destruct (WickIndex.types (nth i ixs default_index) =? 0); reflexivity.
Qed.

(** X9.  A tensor built by the constructor always has the identity as
    the first entry of its permutation list, whatever the generators and
    the index types are: the list is never empty. *)
Theorem constructor_keeps_identity (nm : string) (ixs : list WickIndex.t)
        (G : list WickPermutation.t) (ty : WickTensorTypes.t) :
  Z.of_nat (List.length ixs) <= 32768 ->
  hd_error (perms (make nm ixs G ty))
  = Some (identity_perm (List.length ixs)).
Proof.
  intros Hn. cbn [make perms]. unfold reset_permutations.
  assert (H : hd_error (WickPermutation.complete_set (List.length ixs) G)
              = Some (WickPermutation.mk
                        (WickPermutation.ident (List.length ixs)) false)).
  { unfold WickPermutation.complete_set.
    now apply GroupFacts.complete_loop_head. }
  destruct (WickPermutation.complete_set (List.length ixs) G) as [|e l];
    [discriminate|].
  injection H as ->. cbn [filter].
  rewrite perm_valid_identity by assumption. cbn [hd_error].
  unfold identity_perm. now rewrite PermutationFacts.ident_small.
Qed.

Lemma constructor_keeps_identity_witness :
  hd_error (perms t_bac) = Some (identity_perm 3).
Proof.
  apply (constructor_keeps_identity "t"
           [WickIndex.mk "b" 3; WickIndex.mk "a" 1; WickIndex.mk "c" 2]).
  simpl. lia.
Defined.
End TensorFacts.

(** * Further properties of [WickString] *)
Module StringFacts.
Import WickString.

(** X10.  [simplify_delta] returns a term without Kronecker deltas as
    it is. *)
Theorem simplify_delta_without_delta (s : t) :
  Forall (fun w => is_delta w = false) (tensors s) ->
  simplify_delta s = s.
Proof.
  intros H. unfold simplify_delta.
  rewrite DeltaFacts.fold_delta_step_others.
  - cbn [xtensors xctr_indices xfactor xidxs app].
    rewrite map_nth_seq. now destruct s.
  - cbn [xtensors]. intros k Hk. apply DeltaFacts.nth_nondelta; auto. lia.
Qed.

Lemma simplify_delta_without_delta_witness :
  simplify_delta term_t_ij = term_t_ij.
Proof.
  apply simplify_delta_without_delta. repeat constructor.
Defined.

(** X11.  A delta with the same index on both sides is dropped, and
    nothing else in the term changes. *)
Theorem simplify_delta_drops_self_loop
        (pre post : list WickTensor.t) (d : WickTensor.t)
        (ctr : IndexSet.t) (f : float) :
  Forall (fun w => is_delta w = false) pre ->
  Forall (fun w => is_delta w = false) post ->
  is_delta d = true ->
  WickIndex.eqb (index0 d) (index1 d) = true ->
  simplify_delta (mk (pre ++ d :: post) ctr f) = mk (pre ++ post) ctr f.
Proof.
  intros Fpre Fpost Hd He.
  unfold simplify_delta. cbn [tensors ctr_indices factor].
  rewrite length_app. cbn [List.length].
  rewrite seq_app, fold_left_app. cbn [Nat.add seq fold_left].
  assert (E1 : fold_left delta_step (seq 0 (List.length pre))
                 (mk_delta_state (pre ++ d :: post) ctr f [])
               = mk_delta_state (pre ++ d :: post) ctr f
                                (seq 0 (List.length pre))).
  { rewrite DeltaFacts.fold_delta_step_others; [reflexivity|].
    cbn [xtensors]. intros k Hk. rewrite app_nth1 by lia.
    apply DeltaFacts.nth_nondelta; auto. lia. }
  rewrite E1. clear E1.
  assert (E : delta_step (mk_delta_state (pre ++ d :: post) ctr f
                                         (seq 0 (List.length pre)))
                         (List.length pre)
              = mk_delta_state (pre ++ d :: post) ctr f
                               (seq 0 (List.length pre))).
  { unfold delta_step. cbn [xtensors xctr_indices xfactor xidxs].
    rewrite nth_middle, Hd, IndexOrder.neqb_negb, He. reflexivity. }
  rewrite E. clear E.
  rewrite DeltaFacts.fold_delta_step_others;
    cbn [xtensors xctr_indices xfactor xidxs].
  2:{ intros k Hk. rewrite app_nth2 by lia.
      destruct (k - List.length pre)%nat as [|m] eqn:Em; [lia|].
      cbn [nth]. apply DeltaFacts.nth_nondelta; auto. lia. }
  f_equal. rewrite map_app. f_equal.
  - apply DeltaFacts.map_nth_prefix.
  - apply DeltaFacts.map_nth_suffix.
Qed.

Lemma simplify_delta_drops_self_loop_witness :
  simplify_delta term_self_delta
  = mk [WickTensor.make "t" [WickIndex.of_name "i"; WickIndex.of_name "j"] []
                        WickTensorTypes.Tensor]
       [WickIndex.of_name "j"] 1%float.
Proof.
  apply (simplify_delta_drops_self_loop []
           [WickTensor.make "t" [WickIndex.of_name "i"; WickIndex.of_name "j"]
                            [] WickTensorTypes.Tensor]
           (WickTensor.kronecker_delta (WickIndex.of_name "i")
                                       (WickIndex.of_name "i")));
    try reflexivity; repeat constructor.
Defined.

Lemma erase_In x y : forall s, In x (IndexSet.erase y s) -> In x s.
Proof.
  induction s as [|z s IH]; simpl; auto.
  destruct (WickIndex.eqb y z); simpl; [now right|].
  intros [H|H]; auto.
Qed.

Lemma sorted_snoc_nat : forall l k,
  StronglySorted Nat.lt l -> Forall (fun j => (j < k)%nat) l ->
  StronglySorted Nat.lt (l ++ [k]).
Proof.
  induction l as [|x l IH]; intros k Hs Hk; simpl.
  - repeat constructor.
  - apply StronglySorted_inv in Hs. destruct Hs as [Hs Hx].
    constructor.
    + apply IH; auto. now apply Forall_inv_tail in Hk.
    + apply Forall_app. split; [assumption|].
      constructor; [|constructor]. now apply Forall_inv in Hk.
Qed.

Lemma tensor_head_set_indices w l :
  tensor_head (set_indices w l) = tensor_head w.
Proof. reflexivity. Qed.

Lemma replace_except_head ia ib ic i l j :
  tensor_head (nth j (replace_except i ia ib ic l) default_tensor)
  = tensor_head (nth j l default_tensor).
Proof.
  rewrite DeltaFacts.replace_except_nth.
  destruct (j =? i)%nat; [reflexivity|].
  destruct (Nat.ltb_spec j (List.length l)); [reflexivity|].
  now rewrite nth_overflow.
Qed.

Lemma delta_step_inv s k st :
  delta_loop_inv s k st -> delta_loop_inv s (S k) (delta_step st k).
Proof.
  intros (Hlen & Hhead & Hsort & Hlt & Hctr & Hfac).
  assert (Hlt' : Forall (fun j => (j < S k)%nat) (xidxs st)).
  { eapply Forall_impl; [|exact Hlt]. simpl. intros; lia. }
  assert (Hpush : delta_loop_inv s (S k)
            (mk_delta_state (xtensors st) (xctr_indices st) (xfactor st)
                            (xidxs st ++ [k]))).
  { repeat split; cbn [xtensors xctr_indices xfactor xidxs]; auto.
    - now apply sorted_snoc_nat.
    - apply Forall_app. split; [assumption|]. repeat constructor. }
  assert (Hstay : delta_loop_inv s (S k) st).
  { repeat split; auto. }
  unfold delta_step.
  destruct (is_delta (nth k (xtensors st) default_tensor)); [|exact Hpush].
  destruct (WickIndex.neqb _ _); [|exact Hstay].
  destruct (types_conflict _ _).
  { repeat split; cbn [xtensors xctr_indices xfactor xidxs]; auto. }
  destruct (negb _ && negb _).
  { destruct (existsb _ _); [exact Hstay|exact Hpush]. }
  destruct (IndexSet.count (xctr_indices st) _);
    (repeat split; cbn [xtensors xctr_indices xfactor xidxs]; auto;
     [now rewrite DeltaFacts.replace_except_length
     |intros j; now rewrite replace_except_head
     |intros x Hx; apply Hctr; eapply erase_In; eauto]).
Qed.

Lemma fold_delta_step_inv s : forall len start st,
  delta_loop_inv s start st ->
  delta_loop_inv s (start + len) (fold_left delta_step (seq start len) st).
Proof.
  induction len as [|len IH]; intros start st H; simpl.
  - now rewrite Nat.add_0_r.
  - rewrite <- Nat.add_succ_comm. apply IH. now apply delta_step_inv.
Qed.

(** X12.  [simplify_delta] only removes and renames: the tensors of the
    result are tensors of the receiver, in their order, with name, type
    and permutation list unchanged; no summed index is added; and the
    factor is the receiver's or zero. *)
Theorem simplify_delta_only_removes (s : t) :
  (exists js, StronglySorted Nat.lt js
      /\ Forall (fun j => (j < List.length (tensors s))%nat) js
      /\ map tensor_head (tensors (simplify_delta s))
         = map (fun j => tensor_head (nth j (tensors s) default_tensor)) js)
  /\ (forall x, In x (ctr_indices (simplify_delta s)) ->
                In x (ctr_indices s))
  /\ (factor (simplify_delta s) = factor s
      \/ factor (simplify_delta s) = 0%float).
Proof.
  unfold simplify_delta.
  pose proof (fold_delta_step_inv s (List.length (tensors s)) 0
                (mk_delta_state (tensors s) (ctr_indices s) (factor s) []))
    as H.
  destruct H as (Hlen & Hhead & Hsort & Hlt & Hctr & Hfac).
  { repeat split; cbn [xtensors xctr_indices xfactor xidxs]; auto;
      constructor. }
  cbn [tensors ctr_indices factor]. split; [|split; assumption].
  exists (xidxs (fold_left delta_step (seq 0 (List.length (tensors s)))
                   (mk_delta_state (tensors s) (ctr_indices s) (factor s)
                                   []))).
  split; [assumption|]. split; [assumption|].
  rewrite map_map. apply map_ext. intros j. apply Hhead.
Qed.

Lemma set_indices_same w : set_indices w (WickTensor.indices w) = w.
Proof. now destruct w. Qed.

Lemma rename_fold_nothing : forall l st,
  fold_left (rename_step [] []) l st = st.
Proof. induction l as [|x l IH]; intros st; simpl; auto. Qed.

Lemma inter_nil a b :
  (forall x, In x a -> ~ In x b) -> IndexSet.inter a b = [].
Proof.
  intros H. unfold IndexSet.inter.
  induction a as [|x a IH]; simpl; auto.
  destruct (IndexSet.count b x) eqn:E.
  - exfalso. apply (H x); [now left|]. now apply IndexSetFacts.count_In.
  - apply IH. intros y Hy. apply H. now right.
Qed.

(** X13.  When no summed index of either operand occurs in a tensor of
    the other, [operator*] renames nothing: the product holds the
    tensors of both operands as they are, sums over the summed indices
    of both, and has the product of the factors. *)
Theorem mul_without_collision (a b : t) :
  (forall x, In x (ctr_indices a) -> ~ occurs_in x b) ->
  (forall y, In y (ctr_indices b) -> ~ occurs_in y a) ->
  mul a b
  = mk (tensors a ++ tensors b)
       (IndexSet.insert_all (ctr_indices b)
          (IndexSet.insert_all (ctr_indices a) []))
       (PrimFloat.mul (factor a) (factor b)).
Proof.
  intros Ha Hb. unfold mul, collisions.
  rewrite (inter_nil (ctr_indices a) (used_indices b))
    by (intros x Hx; rewrite ProductFacts.used_indices_In; now apply Ha).
  rewrite (inter_nil (ctr_indices b) (used_indices a))
    by (intros x Hx; rewrite ProductFacts.used_indices_In; now apply Hb).
  rewrite rename_fold_nothing. cbn [snd].
  assert (Ea : forall l, map (rename_a []
                                (IndexSet.inter (ctr_indices a) [])
                                (IndexSet.inter (ctr_indices a)
                                                (ctr_indices b))) l = l).
  { intros l. rewrite <- (map_id l) at 2. now apply map_ext. }
  assert (Eb : forall l, map (rename_b [] []) l = l).
  { intros l. rewrite <- (map_id l) at 2. now apply map_ext. }
  assert (Ea' : rename_a [] [] (IndexSet.inter (ctr_indices a)
                                                (ctr_indices b))
                = fun x => x) by reflexivity.
  f_equal.
  - f_equal.
    + rewrite <- (map_id (tensors a)) at 2. apply map_ext.
      intros w. unfold rename_a. cbn [map_find].
      rewrite map_id. apply set_indices_same.
    + rewrite <- (map_id (tensors b)) at 2. apply map_ext.
      intros w. rewrite Eb. apply set_indices_same.
  - rewrite Eb. f_equal. f_equal. unfold rename_a. cbn [map_find].
    apply map_id.
Qed.

Lemma mul_without_collision_witness :
  mul term_t_ij term_v_kl
  = mk (tensors term_t_ij ++ tensors term_v_kl)
       (IndexSet.insert_all (ctr_indices term_v_kl)
          (IndexSet.insert_all (ctr_indices term_t_ij) []))
       (PrimFloat.mul (factor term_t_ij) (factor term_v_kl)).
Proof.
  apply mul_without_collision.
  - intros x [<-|[]] (w & [<-|[]] & Hw). simpl in Hw.
    destruct Hw as [Hw|[Hw|[]]]; discriminate.
  - intros x [<-|[]] (w & [<-|[]] & Hw). simpl in Hw.
    destruct Hw as [Hw|[Hw|[]]]; discriminate.
Defined.

Lemma tensor_eqb_key a b :
  WickTensor.eqb a b = true <-> tensor_key a = tensor_key b.
Proof.
  unfold WickTensor.eqb, tensor_key.
  rewrite !andb_true_iff, NormalOrderFacts.type_eqb_eq, String.eqb_eq,
    (list_eqb_eq _ IndexOrder.index_eqb_eq).
  split; [intros [[-> ->] ->]; reflexivity|intros [= -> -> ->]; auto].
Qed.

Lemma list_eqb_key : forall l1 l2,
  list_eqb WickTensor.eqb l1 l2 = true
  <-> map tensor_key l1 = map tensor_key l2.
Proof.
  induction l1 as [|x l1 IH]; intros [|y l2]; cbn [list_eqb map];
    try (split; congruence).
  rewrite andb_true_iff, tensor_eqb_key, IH. split.
  - intros [E1 E2]. now rewrite E1, E2.
  - intros E. split.
    + exact (f_equal (hd (tensor_key x)) E).
    + exact (f_equal (@tl _) E).
Qed.

(** X14.  [abs_equal_to] holds exactly when the two terms have the same
    tensors, compared by type, name and indices, and the same summed
    indices: the factor and the permutation lists play no part.  It is
    therefore an equivalence. *)
Theorem abs_equal_to_spec :
  (forall a b,
      abs_equal_to a b = true
      <-> map tensor_key (tensors a) = map tensor_key (tensors b)
          /\ ctr_indices a = ctr_indices b)
  /\ (forall a, abs_equal_to a a = true)
  /\ (forall a b, abs_equal_to a b = true -> abs_equal_to b a = true)
  /\ (forall a b c, abs_equal_to a b = true -> abs_equal_to b c = true ->
                    abs_equal_to a c = true).
Proof.
  assert (H : forall a b,
      abs_equal_to a b = true
      <-> map tensor_key (tensors a) = map tensor_key (tensors b)
          /\ ctr_indices a = ctr_indices b).
  { intros a b. unfold abs_equal_to, IndexSet.eqb.
    rewrite !andb_true_iff, !Nat.eqb_eq, list_eqb_key,
      (list_eqb_eq _ IndexOrder.index_eqb_eq).
    split; [tauto|]. intros [Ht Hc]. repeat split; auto.
    - rewrite <- (length_map tensor_key (tensors a)), Ht.
      apply length_map.
    - now rewrite Hc. }
  split; [exact H|]. split; [|split].
  - intros a. now apply H.
  - intros a b Hab. apply H in Hab. apply H. destruct Hab. split; congruence.
  - intros a b c Hab Hbc. apply H in Hab, Hbc. apply H.
    destruct Hab, Hbc. split; congruence.
Qed.
End StringFacts.

(** * Further properties of [WickExpr] *)
Module ExprFacts.
Import WickExpr.

Lemma flat_map_app_perm {A B} (f g : A -> list B) : forall l,
  Permutation (flat_map (fun x => f x ++ g x) l)
              (flat_map f l ++ flat_map g l).
Proof.
  induction l as [|x l IH]; simpl; [constructor|].
  rewrite <- !app_assoc. apply Permutation_app_head.
  rewrite IH. rewrite !app_assoc. apply Permutation_app_tail.
  apply Permutation_app_comm.
Qed.

(** X15.  The product of expressions distributes over the sum: exactly,
    term by term, when the sum is the left factor, and up to the order
    of the terms when it is the right factor; the product of [m] terms
    by [n] terms has [m * n] terms, and the difference is the sum with
    the second expression scaled by [-1]. *)
Theorem expr_product_distributes (a b c : t) :
  mul (add a b) c = add (mul a c) (mul b c)
  /\ Permutation (mul a (add b c)) (add (mul a b) (mul a c))
  /\ List.length (mul a b) = (List.length a * List.length b)%nat
  /\ sub a b = add a (scale b (-1)%float).
Proof.
  unfold mul, add, sub. split; [apply flat_map_app|]. split; [|split].
  - erewrite flat_map_ext; [apply flat_map_app_perm|].
    intros ta. apply map_app.
  - induction a as [|ta a IH]; simpl; auto.
    now rewrite length_app, length_map, IH.
  - reflexivity.
Qed.

(** ** [conjugate] *)

Lemma is_operator_spec w :
  WickString.is_operator w
  = is_sf w || is_cre w
    || WickTensorTypes.eqb (WickTensor.type w) WickTensorTypes.DestroyOperator.
Proof. reflexivity. Qed.

Lemma is_operator_conjugate w :
  WickString.is_operator (conjugate_tensor w) = WickString.is_operator w.
Proof.
  unfold conjugate_tensor, WickString.is_operator, is_sf, is_cre.
  destruct w as [nm ixs ps ty]. cbn [WickTensor.type].
  destruct ty; reflexivity.
Qed.

Lemma conjugate_non_operator w :
  WickString.is_operator w = false -> conjugate_tensor w = w.
Proof.
  unfold conjugate_tensor, WickString.is_operator, is_sf, is_cre.
  destruct w as [nm ixs ps ty]. cbn [WickTensor.type].
  destruct ty; intros H; try discriminate H; reflexivity.
Qed.

Lemma swap_halves_app (A B R : list WickIndex.t) :
  List.length A = List.length B -> (List.length R < 2)%nat ->
  swap_halves (A ++ B ++ R) = B ++ A ++ R.
Proof.
  intros LAB LR. unfold swap_halves. cbv zeta.
  assert (Hk : Nat.div (List.length (A ++ B ++ R)) 2 = List.length A).
  { symmetry. apply (Nat.div_unique _ 2 _ (List.length R)); [assumption|].
    rewrite !length_app. lia. }
  rewrite Hk.
  assert (E2 : skipn (List.length A) (A ++ B ++ R) = B ++ R).
  { rewrite skipn_app, Nat.sub_diag, skipn_all. reflexivity. }
  rewrite E2. f_equal; [|f_equal].
  - rewrite LAB, firstn_app, Nat.sub_diag, firstn_all. simpl.
    apply app_nil_r.
  - rewrite firstn_app, Nat.sub_diag, firstn_all. simpl. apply app_nil_r.
  - replace (2 * List.length A)%nat
      with (List.length B + List.length A)%nat by lia.
    rewrite <- skipn_skipn, E2.
    rewrite skipn_app, Nat.sub_diag, skipn_all. reflexivity.
Qed.

Lemma swap_halves_twice l : swap_halves (swap_halves l) = l.
Proof.
  set (k := Nat.div (List.length l) 2).
  assert (Hk : (2 * k <= List.length l < 2 * k + 2)%nat).
  { unfold k. pose proof (Nat.div_mod_eq (List.length l) 2).
    pose proof (Nat.mod_upper_bound (List.length l) 2). lia. }
  assert (El : l = firstn k l ++ firstn k (skipn k l) ++ skipn (2 * k) l).
  { rewrite <- (firstn_skipn k l) at 1. f_equal.
    rewrite <- (firstn_skipn k (skipn k l)) at 1. f_equal.
    rewrite skipn_skipn. f_equal. lia. }
  assert (LA : List.length (firstn k l) = k) by (rewrite length_firstn; lia).
  assert (LB : List.length (firstn k (skipn k l)) = k)
    by (rewrite length_firstn, length_skipn; lia).
  assert (LR : (List.length (skipn (2 * k) l) < 2)%nat)
    by (rewrite length_skipn; lia).
  rewrite El at 1.
  rewrite swap_halves_app by (auto; congruence).
  rewrite swap_halves_app by (auto; congruence).
  now rewrite <- El.
Qed.

Lemma conjugate_tensor_twice w :
  conjugable w -> conjugate_tensor (conjugate_tensor w) = w.
Proof.
  intros [Hc Hd]. unfold conjugate_tensor, is_sf, is_cre.
  destruct w as [nm ixs ps ty]. cbn [WickTensor.type WickTensor.name] in *.
  destruct ty; cbn -[swap_halves String.eqb]; auto.
  - (* creation *)
    destruct (String.eqb_spec nm "C") as [->|Hn]; [reflexivity|].
    destruct (String.eqb_spec nm "D") as [->|Hn']; [|reflexivity].
    exfalso. now apply Hc.
  - (* destroy *)
    destruct (String.eqb_spec nm "D") as [->|Hn]; [reflexivity|].
    destruct (String.eqb_spec nm "C") as [->|Hn']; [|reflexivity].
    exfalso. now apply Hd.
  - (* spin-free *)
    now rewrite swap_halves_twice.
Qed.

Lemma same_slot_trans l1 : forall l2 l3,
  Forall2 same_slot l1 l2 -> Forall2 same_slot l2 l3 ->
  Forall2 same_slot l1 l3.
Proof.
  induction l1 as [|x l1 IH]; intros l2 l3 H12 H23;
    inversion H12; subst; inversion H23; subst; constructor.
  - match goal with
    | [ H : same_slot x ?y, H' : same_slot ?y ?z |- _ ] =>
        destruct H as [E1 F1]; destruct H' as [E2 F2]
    end.
    split; [congruence|]. intros Hx. rewrite F1 in * by assumption.
    now apply F2.
  - eapply IH; eauto.
Qed.

Lemma same_slot_sym l1 : forall l2,
  Forall2 same_slot l1 l2 -> Forall2 same_slot l2 l1.
Proof.
  induction l1 as [|x l1 IH]; intros l2 H; inversion H; subst; constructor.
  - match goal with
    | [ H : same_slot x ?y |- _ ] => destruct H as [E1 F1]
    end.
    split; [congruence|]. intros Hy. symmetry. apply F1. congruence.
  - now apply IH.
Qed.

Lemma same_slot_conjugate l : Forall2 same_slot l (map conjugate_tensor l).
Proof.
  induction l as [|x l IH]; simpl; constructor; auto.
  split; [now rewrite is_operator_conjugate|].
  intros H. now rewrite conjugate_non_operator.
Qed.

Lemma same_slot_operators l1 : forall l2,
  Forall2 same_slot l1 l2 ->
  List.length (filter WickString.is_operator l1)
  = List.length (filter WickString.is_operator l2).
Proof.
  induction l1 as [|x l1 IH]; intros l2 H; inversion H; subst; simpl; auto.
  match goal with
  | [ H : same_slot x ?y |- _ ] => destruct H as [E1 F1]
  end.
  rewrite <- E1. destruct (WickString.is_operator x); simpl; auto.
Qed.

Lemma refill_spec : forall l st,
  Forall (fun w => WickString.is_operator w = true) st ->
  List.length st = List.length (filter WickString.is_operator l) ->
  filter WickString.is_operator (refill l st) = st
  /\ Forall2 same_slot l (refill l st).
Proof.
  induction l as [|x l IH]; intros st Hst Hlen; simpl in *.
  - destruct st; [split; constructor|discriminate].
  - destruct (WickString.is_operator x) eqn:Ex.
    + destruct st as [|top st]; [discriminate|]. simpl in Hlen.
      pose proof (Forall_inv Hst) as Htop. simpl in Htop.
      destruct (IH st (Forall_inv_tail Hst)) as [E F]; [lia|].
      simpl. rewrite Htop, E. split; auto.
      constructor; auto. split; congruence.
    + destruct (IH st Hst Hlen) as [E F].
      simpl. rewrite Ex. split; auto.
      constructor; auto. split; auto.
Qed.

Lemma refill_same_slots : forall l m st,
  Forall2 same_slot l m ->
  List.length st = List.length (filter WickString.is_operator l) ->
  refill l st = refill m st.
Proof.
  induction l as [|x l IH]; intros m st H Hlen; inversion H; subst;
    simpl in *; auto.
  match goal with
  | [ H : same_slot x ?y |- _ ] => destruct H as [E1 F1]
  end.
  rewrite <- E1. destruct (WickString.is_operator x) eqn:Ex.
  - destruct st as [|top st]; [discriminate|]. simpl in Hlen.
    f_equal. apply IH; auto.
  - rewrite (F1 eq_refl). f_equal. apply IH; auto.
Qed.

Lemma refill_own_operators : forall l,
  refill l (filter WickString.is_operator l) = l.
Proof.
  induction l as [|x l IH]; simpl; auto.
  destruct (WickString.is_operator x) eqn:Ex; simpl; now rewrite IH.
Qed.

Lemma conjugate_term_twice rr :
  (forall wt, In wt (WickString.tensors rr) -> conjugable wt) ->
  conjugate_term (conjugate_term rr) = rr.
Proof.
  intros Hc. destruct rr as [l ctr f]. unfold conjugate_term.
  cbn [WickString.tensors WickString.ctr_indices WickString.factor] in *.
  f_equal.
  set (ops := filter WickString.is_operator l).
  set (S1 := rev (map conjugate_tensor ops)).
  assert (Hops : Forall (fun w => WickString.is_operator w = true) S1).
  { unfold S1. apply Forall_rev. apply Forall_forall. intros w Hw.
    apply in_map_iff in Hw. destruct Hw as (v & <- & Hv).
    rewrite is_operator_conjugate. unfold ops in Hv.
    now apply filter_In in Hv. }
  assert (Hlen : List.length S1
                 = List.length (filter WickString.is_operator
                                       (map conjugate_tensor l))).
  { unfold S1. rewrite length_rev, length_map.
    apply same_slot_operators, same_slot_conjugate. }
  destruct (refill_spec (map conjugate_tensor l) S1 Hops Hlen) as [E F].
  rewrite E. unfold S1 at 2. rewrite map_rev, rev_involutive, map_map.
  assert (Eops : map (fun x => conjugate_tensor (conjugate_tensor x)) ops
                 = ops).
  { rewrite <- (map_id ops) at 2. apply map_ext_in. intros w Hw.
    apply conjugate_tensor_twice, Hc. unfold ops in Hw.
    now apply filter_In in Hw. }
  rewrite Eops.
  rewrite <- (refill_own_operators l) at 2. fold ops.
  symmetry. apply refill_same_slots; [|reflexivity].
  eapply same_slot_trans; [apply same_slot_conjugate|].
  eapply same_slot_trans; [exact F|]. apply same_slot_conjugate.
Qed.

(** X16.  [conjugate] is an involution on expressions in which no
    creation operator is called [D] and no destroy operator is called
    [C]: conjugating twice gives the expression back. *)
Theorem conjugate_involution (e : t) :
  (forall rr wt, In rr e -> In wt (WickString.tensors rr) -> conjugable wt) ->
  conjugate (conjugate e) = e.
Proof.
  intros H. unfold conjugate. rewrite map_map.
  rewrite <- (map_id e) at 2. apply map_ext_in.
  intros rr Hrr. apply conjugate_term_twice. intros wt. now apply H.
Qed.

Lemma conjugate_involution_witness :
  conjugate (conjugate [term_c_t_d]) = [term_c_t_d].
Proof.
  apply conjugate_involution.
  intros rr wt [<-|[]] [<-|[<-|[<-|[]]]]; split; simpl; intros H;
    discriminate.
Defined.

(** ** [operator&] *)

Lemma fold_insert_all_In x : forall l ctr,
  In x (fold_left (fun ctr wt =>
                     IndexSet.insert_all (WickTensor.indices wt) ctr) l ctr)
  <-> (exists w, In w l /\ In x (WickTensor.indices w)) \/ In x ctr.
Proof.
  induction l as [|w l IH]; intros ctr; simpl.
  - split; [now right|]. intros [(w & [] & _)|H]; auto.
  - rewrite IH, IndexSetFacts.insert_all_In. split.
    + intros [(v & Hv & Hx)|[Hx|Hx]]; eauto.
    + intros [(v & [<-|Hv] & Hx)|Hx]; eauto.
Qed.

(** X17.  Every term of [a & b] is a term of the product [a * b] with
    the same tensors and factor, summed over exactly the summed indices
    of that term and every index of its tensors. *)
Theorem contract_all_sums_every_index (a b : t) :
  List.length (contract_all a b) = List.length (mul a b)
  /\ forall k ws, nth_error (mul a b) k = Some ws ->
       exists r, nth_error (contract_all a b) k = Some r
                 /\ WickString.tensors r = WickString.tensors ws
                 /\ WickString.factor r = WickString.factor ws
                 /\ forall x, In x (WickString.ctr_indices r)
                              <-> occurs_in x ws
                                  \/ In x (WickString.ctr_indices ws).
Proof.
  unfold contract_all. split; [apply length_map|].
  intros k ws Hk. rewrite nth_error_map, Hk. cbn [option_map].
  eexists. split; [reflexivity|].
  cbn [WickString.tensors WickString.factor WickString.ctr_indices].
  split; [reflexivity|]. split; [reflexivity|].
  intros x. apply fold_insert_all_In.
Qed.

(** ** [split_index_types] *)

Lemma split_term_head x row rr :
  In rr (split_term x row) ->
  WickString.factor rr = WickString.factor x
  /\ map tensor_head (WickString.tensors rr)
     = map tensor_head (WickString.tensors x).
Proof.
  unfold split_term.
  destruct (existsb _ (WickString.tensors x)).
  - replace (PrimFloat.eqb 0 0) with true by reflexivity. intros [].
  - destruct (PrimFloat.eqb (WickString.factor x) 0); [intros []|].
    intros [<-|[]]. cbn [WickString.factor WickString.tensors].
    split; [reflexivity|]. rewrite map_map. apply map_ext. reflexivity.
Qed.

Lemma adopt_nil wi : adopt [] wi = wi.
Proof. reflexivity. Qed.

(** X18.  [split_index_types] changes index types only: every term it
    returns for a term [x] has the factor of [x] and tensors with the
    names, types and permutation lists of those of [x], in the same
    order.  A term without summed indices is returned as it is, unless
    its factor is zero or one of its tensors has an empty permutation
    list, in which case it is dropped. *)
Theorem split_index_types_keeps_shape (x : WickString.t) :
  (forall rr, In rr (split_index_types_term x) ->
     WickString.factor rr = WickString.factor x
     /\ map tensor_head (WickString.tensors rr)
        = map tensor_head (WickString.tensors x))
  /\ (WickString.ctr_indices x = [] ->
      split_index_types_term x
      = if existsb (fun w => (List.length (WickTensor.perms w) =? 0)%nat)
                   (WickString.tensors x)
           || PrimFloat.eqb (WickString.factor x) 0
        then [] else [x]).
Proof.
  split.
  - intros rr Hrr. unfold split_index_types_term in Hrr.
    apply in_flat_map in Hrr. destruct Hrr as (row & _ & Hrr).
    eapply split_term_head; eauto.
  - intros Hctr. unfold split_index_types_term. rewrite Hctr.
    cbn [split_rows List.length seq fold_left flat_map].
    rewrite app_nil_r. unfold split_term.
    destruct (existsb _ (WickString.tensors x)); cbn [orb].
    + now replace (PrimFloat.eqb 0 0) with true by reflexivity.
    + destruct (PrimFloat.eqb (WickString.factor x) 0); [reflexivity|].
      f_equal. destruct x as [ts ctr f]. cbn in *. subst ctr. f_equal.
      rewrite <- (map_id ts) at 2. apply map_ext. intros w.
      rewrite (map_ext _ (fun wi => wi) adopt_nil), map_id.
      now destruct w.
Qed.

(** ** [simplify_merge] *)

Section MergeBuckets.
Variable quick_sort : WickString.t -> WickString.t.

Lemma add_to_bucket_fst sorted si fi : forall r r',
  add_to_bucket sorted si fi r = Some r' -> map fst r' = map fst r.
Proof.
  induction r as [|[i0 f0] r IH]; intros r' H; simpl in H; [discriminate|].
  destruct (WickString.abs_equal_to si _).
  - injection H as <-. reflexivity.
  - destruct (add_to_bucket sorted si fi r) as [r0|] eqn:E; [|discriminate].
    injection H as <-. simpl. f_equal. now apply IH.
Qed.

Lemma merge_fold_positions e sorted : forall len start ridxs,
  let r := fold_left (merge_step e sorted) (seq start len) ridxs in
  (List.length r <= List.length ridxs + len)%nat
  /\ forall i, In i (map fst r) ->
               In i (map fst ridxs) \/ (start <= i < start + len)%nat.
Proof.
  induction len as [|len IH]; intros start ridxs; simpl.
  - split; [lia|auto].
  - specialize (IH (S start) (merge_step e sorted ridxs start)).
    cbv zeta in IH. destruct IH as [Hl Hi].
    assert (Hstep : (List.length (merge_step e sorted ridxs start)
                     <= S (List.length ridxs))%nat
                    /\ forall i, In i (map fst (merge_step e sorted ridxs
                                                           start)) ->
                                 In i (map fst ridxs) \/ i = start).
    { unfold merge_step.
      destruct (add_to_bucket sorted _ _ ridxs) as [r0|] eqn:E.
      - pose proof (add_to_bucket_fst _ _ _ _ _ E) as Ef.
        split.
        + rewrite <- (length_map fst r0), Ef, length_map. lia.
        + intros i Hin. rewrite Ef in Hin. now left.
      - split.
        + rewrite length_app. simpl. lia.
        + intros i Hin. rewrite map_app in Hin. apply in_app_or in Hin.
          destruct Hin as [Hin|[<-|[]]]; auto. }
    destruct Hstep as [Hl' Hi']. split; [lia|].
    intros i Hin. destruct (Hi i Hin) as [H|H]; [|right; lia].
    destruct (Hi' i H) as [H' | ->]; [now left|right; lia].
Qed.

(** X19.  [simplify_merge] only merges: whatever the canonical form, it
    returns no more terms than it is given, and each term returned has
    the tensors and the summed indices of one of the given terms (the
    first of its group); only the factor is new. *)
Theorem simplify_merge_only_merges (e : t) :
  (List.length (simplify_merge quick_sort e) <= List.length e)%nat
  /\ forall rr, In rr (simplify_merge quick_sort e) ->
       exists t0, In t0 e
                  /\ WickString.tensors rr = WickString.tensors t0
                  /\ WickString.ctr_indices rr = WickString.ctr_indices t0.
Proof.
  unfold simplify_merge.
  set (sorted := map (fun x => quick_sort (WickString.abs x)) e).
  pose proof (merge_fold_positions e sorted (List.length e) 0 []) as H.
  cbv zeta in H. destruct H as [Hl Hi].
  set (ridxs := fold_left (merge_step e sorted) (seq 0 (List.length e)) [])
    in *.
  split.
  - rewrite (Permutation_length (sort_by_Permutation _ _)).
    unfold simplify_zero.
    eapply Nat.le_trans; [apply filter_length_le|].
    rewrite length_map. simpl in Hl. lia.
  - intros rr Hrr. apply sort_by_In in Hrr. unfold simplify_zero in Hrr.
    apply filter_In in Hrr. destruct Hrr as [Hrr _].
    apply in_map_iff in Hrr. destruct Hrr as ([i f] & <- & Hm).
    cbn [fst snd].
    assert (Hin : In i (map fst ridxs))
      by (apply in_map_iff; exists (i, f); auto).
    destruct (Hi i Hin) as [[]|Hlt].
    exists (nth i e (WickString.mk [] [] 0%float)).
    split; [apply nth_In; lia|]. split; reflexivity.
Qed.
End MergeBuckets.
End ExprFacts.

(** * Further properties of the trie *)
Module TrieMoreFacts.
Import TRIE.

Lemma build_inv n look ds tr :
  build n look ds = Ok tr ->
  Z.of_nat (List.length (data tr)) < 2147483648 ->
  n_sites tr = n /\ enable_look_up tr = look
  /\ exists path, trie_inv tr ds path.
Proof.
  intros Hb Hsize. unfold build in Hb.
  destruct (TrieFacts.fold_push_back_inv ds (make n look) []
              (fun _ => []) tr (TrieFacts.make_inv n look) Hb Hsize)
    as (_ & Hsites & Hl & path & Ht).
  simpl in *. eauto.
Qed.

Lemma insert_path_walk : forall det data cur leaf,
  walk data cur det = Ok (Some leaf) ->
  insert_path data cur det = Ok (data, leaf).
Proof.
  induction det as [|j det IH]; intros data cur leaf H; simpl in *.
  - now injection H as <-.
  - apply bind_Ok in H. destruct H as (node & Hn & H).
    apply bind_Ok in H. destruct H as (child & Hc & H).
    rewrite Hn. simpl. rewrite Hc. simpl.
    destruct (child =? 0); [discriminate|]. now apply IH.
Qed.

(** X20.  A determinant that is already in the trie cannot be added
    again: [push_back] stops at its assertion ("cannot push_back
    repeated determinants"). *)
Theorem push_back_rejects_repeated (n : Z) (look : bool)
        (ds : list (list Z)) (tr : t) (d : list Z) :
  build n look ds = Ok tr ->
  Z.of_nat (List.length (data tr)) < 2147483648 ->
  In d ds ->
  push_back tr d = AssertionFailed DetIncreasing.
Proof.
  intros Hb Hsize Hd.
  destruct (build_inv n look ds tr Hb Hsize) as (Hn & Hl & path & Ht).
  pose proof (tinv_data _ _ _ Ht) as Hinv.
  apply In_nth_error in Hd. destruct Hd as [k Hk].
  destruct (tinv_leaf _ _ _ Ht k d Hk) as (leaf & Hleaf & Hr & Hp).
  destruct (tinv_dets _ _ _ Ht d (nth_error_In _ _ Hk)) as [Hlen Hlab].
  pose proof (TrieFacts.path_length _ _ Hinv leaf Hr) as Hpl.
  rewrite Hp in Hpl.
  unfold push_back. rewrite TrieFacts.int_size_small by lia.
  rewrite Hlen, Z.eqb_refl. cbn [negb].
  rewrite (insert_path_walk d (data tr) 0 leaf).
  2:{ apply (TrieFacts.walk_complete _ _ Hinv); auto.
      - pose proof (inv_size _ _ Hinv). lia.
      - now rewrite (inv_root _ _ Hinv). }
  cbn [bind].
  pose proof (TrieFacts.sorted_last _ _ (tinv_sorted _ _ _ Ht)
                (nth_error_In _ _ Hleaf)) as Hlast.
  assert (Hne : (List.length (dets tr) =? 0)%nat = false).
  { apply Nat.eqb_neq. intros E. apply length_zero_iff_nil in E.
    rewrite E in Hleaf. destruct k; discriminate. }
  rewrite Hne. unfold last_det.
  destruct (Z.gtb_spec leaf (last (dets tr) 0)); [lia|reflexivity].
Qed.

Lemma push_back_rejects_repeated_witness :
  push_back trie3 [0; 1; 3] = AssertionFailed DetIncreasing.
Proof.
  apply (push_back_rejects_repeated 3 true dets3 trie3);
    [vm_compute; reflexivity|vm_compute; reflexivity|].
  right; left; reflexivity.
Defined.

Lemma insert_path_nodes : forall det data cur data' cur',
  insert_path data cur det = Ok (data', cur') ->
  (List.length data' <= List.length data + List.length det)%nat.
Proof.
  induction det as [|j det IH]; intros data cur data' cur' H; simpl in H.
  - injection H as <- <-. simpl. lia.
  - apply bind_Ok in H. destruct H as (node & Hn & H).
    apply bind_Ok in H. destruct H as (child & Hc & H).
    destruct (child =? 0).
    + apply bind_Ok in H. destruct H as (node' & Hn' & H).
      apply bind_Ok in H. destruct H as (data1 & Hd1 & H).
      apply IH in H. apply TrieFacts.set_at_Ok in Hd1.
      destruct Hd1 as [_ ->].
      rewrite length_app, upd_length in H. simpl in *. lia.
    + apply IH in H. simpl. lia.
Qed.

Lemma push_back_nodes tr det tr' :
  push_back tr det = Ok tr' ->
  (List.length (data tr') <= List.length (data tr) + List.length det)%nat.
Proof.
  unfold push_back. intros H.
  destruct (negb (int_size det =? n_sites tr)); [discriminate|].
  apply bind_Ok in H. destruct H as ([data' cur] & Hi & H).
  apply insert_path_nodes in Hi.
  destruct (negb _); [discriminate|].
  destruct (enable_look_up tr).
  - apply bind_Ok in H. destruct H as (invs' & Hr & H).
    injection H as <-. assumption.
  - injection H as <-. assumption.
Qed.

Lemma fold_push_back_nodes : forall ds tr0 tr,
  fold_left (fun acc det => tr <- acc ;; push_back tr det) ds (Ok tr0)
  = Ok tr ->
  (List.length (data tr)
   <= List.length (data tr0) + list_sum (map (@List.length Z) ds))%nat.
Proof.
  induction ds as [|d ds IH]; intros tr0 tr H; simpl in H.
  - injection H as <-. simpl. lia.
  - destruct (push_back tr0 d) as [tr1| | |] eqn:Hp;
      try (exfalso; revert H; apply TrieFacts.fold_push_back_fails;
           discriminate).
    apply push_back_nodes in Hp. apply IH in H. simpl. lia.
Qed.

(** X21.  After any sequence of successful [push_back] calls the
    determinants given are pairwise different, [size()] is their
    number, the leaves in [dets] are strictly increasing, and the trie
    has at most [1 + n_sites * size()] nodes. *)
Theorem trie_size_and_nodes (n : Z) (look : bool) (ds : list (list Z))
        (tr : t) :
  build n look ds = Ok tr ->
  Z.of_nat (List.length (data tr)) < 2147483648 ->
  NoDup ds
  /\ size tr = Z.of_nat (List.length ds)
  /\ StronglySorted Z.lt (dets tr)
  /\ Z.of_nat (List.length (data tr)) <= 1 + n * Z.of_nat (List.length ds).
Proof.
  intros Hb Hsize.
  destruct (build_inv n look ds tr Hb Hsize) as (Hn & Hl & path & Ht).
  split; [|split; [|split]].
  - apply NoDup_nth_error. intros i j Hi E.
    destruct (nth_error ds i) as [d|] eqn:Ei;
      [|apply nth_error_None in Ei; lia].
    pose proof (TrieFacts.find_inserted tr ds path Ht i d Ei) as Fi.
    pose proof (TrieFacts.find_inserted tr ds path Ht j d (eq_sym E)) as Fj.
    rewrite Fi in Fj. injection Fj as Fj. lia.
  - unfold size. now rewrite (tinv_count _ _ _ Ht).
  - apply Ht.
  - unfold build in Hb. apply fold_push_back_nodes in Hb. simpl in Hb.
    assert (Hsum : Z.of_nat (list_sum (map (@List.length Z) ds))
                   = n * Z.of_nat (List.length ds)).
    { assert (Hall : forall d, In d ds -> Z.of_nat (List.length d) = n).
      { intros d Hd. rewrite <- Hn. apply (tinv_dets _ _ _ Ht d Hd). }
      clear - Hall. induction ds as [|d ds IH]; simpl; [lia|].
      rewrite Nat2Z.inj_add, (Hall d) by (left; reflexivity).
      rewrite IH by (intros d' Hd'; apply Hall; now right). lia. }
    lia.
Qed.

Lemma trie_size_and_nodes_witness :
  NoDup dets3
  /\ size trie3 = Z.of_nat (List.length dets3)
  /\ StronglySorted Z.lt (dets trie3)
  /\ Z.of_nat (List.length (data trie3))
     <= 1 + 3 * Z.of_nat (List.length dets3).
Proof.
  apply (trie_size_and_nodes 3 true dets3 trie3);
    vm_compute; reflexivity.
Defined.

(** X22.  On a trie built by successful [push_back] calls, [operator[]]
    answers exactly for the positions in range when look-up is enabled,
    with the determinant pushed at that position; for any other [int]
    position, and always when look-up is disabled, it stops at its
    assertion. *)
Theorem lookup_exactly_in_range (n : Z) (look : bool) (ds : list (list Z))
        (tr : t) (idx : Z) :
  build n look ds = Ok tr ->
  Z.of_nat (List.length (data tr)) < 2147483648 ->
  -2147483648 <= idx < 2147483648 ->
  if look && (0 <=? idx) && (idx <? Z.of_nat (List.length ds))
  then exists d, nth_error ds (Z.to_nat idx) = Some d /\ get tr idx = Ok d
  else get tr idx = AssertionFailed LookUp.
Proof.
  intros Hb Hsize Hidx.
  destruct (build_inv n look ds tr Hb Hsize) as (Hn & Hl & path & Ht).
  pose proof (TrieFacts.leaves_count tr ds path Ht) as Hcount.
  pose proof (tinv_count _ _ _ Ht) as Hc.
  destruct look; cbn [andb].
  - destruct (Z.leb_spec 0 idx); cbn [andb].
    + destruct (Z.ltb_spec idx (Z.of_nat (List.length ds))).
      * destruct (nth_error ds (Z.to_nat idx)) as [d|] eqn:E;
          [|apply nth_error_None in E; lia].
        exists d. split; [reflexivity|].
        rewrite <- (Z2Nat.id idx) by lia.
        now apply (TrieFacts.get_inserted tr ds path Ht Hl).
      * unfold get. rewrite Hl. cbn [andb]. unfold to_size_t.
        rewrite Z.mod_small by lia. rewrite Hc.
        destruct (Z.ltb_spec idx (Z.of_nat (List.length ds))); [lia|].
        reflexivity.
    + unfold get. rewrite Hl. cbn [andb]. unfold to_size_t.
      assert (E : idx mod 18446744073709551616 = idx + 18446744073709551616).
      { symmetry. apply (Z.mod_unique _ _ (-1)); lia. }
      rewrite E, Hc.
      destruct (Z.ltb_spec (idx + 18446744073709551616)
                           (Z.of_nat (List.length ds))); [|reflexivity].
      pose proof (inv_size _ _ (tinv_data _ _ _ Ht)). lia.
  - unfold get. now rewrite Hl.
Qed.

Lemma lookup_exactly_in_range_witness :
  (exists d, nth_error dets3 (Z.to_nat 1) = Some d /\ get trie3 1 = Ok d)
  /\ get trie3 3 = AssertionFailed LookUp
  /\ get trie3 (-1) = AssertionFailed LookUp.
Proof.
  split; [|split].
  - apply (lookup_exactly_in_range 3 true dets3 trie3 1);
      [vm_compute; reflexivity|vm_compute; reflexivity|lia].
  - apply (lookup_exactly_in_range 3 true dets3 trie3 3);
      [vm_compute; reflexivity|vm_compute; reflexivity|lia].
  - apply (lookup_exactly_in_range 3 true dets3 trie3 (-1));
      [vm_compute; reflexivity|vm_compute; reflexivity|lia].
Defined.
End TrieMoreFacts.

(** * The temporaries of delayed dispatch *)
Module DispatchBalance.
Import DelayedTensorFunctions.

Section Balance.
Variables OpElement Label Matrix Info World : Type.
Variable abs_value : OpElement -> OpElement.
Variable is_delayed : Matrix -> World -> bool.
Variable build : Matrix -> World -> Matrix * World.
Variable deallocate : Matrix -> World -> World.
Variable info_of : Matrix -> World -> Info.
Variable new_matrix : Info -> World -> Matrix * World.
Variable opf_tensor_product :
  Z -> Matrix -> Matrix -> Matrix -> float -> World -> World.
Variable opf_tensor_product_multiply :
  Z -> Matrix -> Matrix -> Matrix -> Matrix -> Label -> float ->
  World -> World.
Variable opf_tensor_product_diagonal :
  Z -> Matrix -> Matrix -> Matrix -> Label -> float -> World -> World.
Variable opf_iadd : Matrix -> Matrix -> float -> bool -> World -> World.
Variable seq_is_simple : World -> bool.
Variable simple_perform : World -> World.

(** The number of matrices allocated and not yet deallocated. *)
Variable live : World -> Z.
Hypothesis live_build : forall m w, live (snd (build m w)) = live w + 1.
Hypothesis live_new : forall i w, live (snd (new_matrix i w)) = live w + 1.
Hypothesis live_deallocate : forall m w, live (deallocate m w) = live w - 1.
Hypothesis live_product :
  forall cj l r m f w, live (opf_tensor_product cj l r m f w) = live w.
Hypothesis live_multiply :
  forall cj l r c v q f w,
    live (opf_tensor_product_multiply cj l r c v q f w) = live w.
Hypothesis live_diagonal :
  forall cj l r m q f w,
    live (opf_tensor_product_diagonal cj l r m q f w) = live w.
Hypothesis live_iadd : forall a b f cj w, live (opf_iadd a b f cj w) = live w.
Hypothesis live_perform : forall w, live (simple_perform w) = live w.

Lemma OpExpr_induction (P : OpExpr OpElement -> Prop) :
  P Zero ->
  (forall e, P (Elem _ e)) ->
  (forall a b cj f, P (Prod _ a b cj f)) ->
  (forall a b ops conjs cj f, P (SumProd _ a b ops conjs cj f)) ->
  (forall l, Forall P l -> P (Sum _ l)) ->
  forall e, P e.
Proof.
  intros HZ HE HP HS HL. fix IH 1. intros [|e|a b cj f|a b ops cjs cj f|l].
  - exact HZ.
  - apply HE.
  - apply HP.
  - apply HS.
  - apply HL. induction l as [|x l IHl]; constructor; [apply IH|exact IHl].
Qed.

Lemma live_force m w :
  let '(d, m', w') := force Matrix World is_delayed build m w in
  live w' = live w + (if d then 1 else 0).
Proof.
  unfold force. destruct (is_delayed m w).
  - pose proof (live_build m w). destruct (build m w). simpl in *. lia.
  - lia.
Qed.

Lemma live_release d m w :
  live (release Matrix World deallocate d m w) = live w - (if d then 1 else 0).
Proof. unfold release. destruct d; [apply live_deallocate|lia]. Qed.

Lemma live_with_operands lop rop a b k w w' :
  (forall l r w0, live (k l r w0) = live w0) ->
  with_operands OpElement Matrix World is_delayed build deallocate lop rop a b k w = Ok w' ->
  live w' = live w.
Proof.
  intros Hk. unfold with_operands.
  destruct b as [b|]; [|discriminate].
  destruct (lop a) as [lmat|]; [|discriminate].
  destruct (rop b) as [rmat|]; [|discriminate].
  pose proof (live_force lmat w) as H1.
  destruct (force Matrix World is_delayed build lmat w) as [[dl lmat'] w1].
  pose proof (live_force rmat w1) as H2.
  destruct (force Matrix World is_delayed build rmat w1) as [[dr rmat'] w2].
  intros [= <-]. rewrite !live_release, Hk. lia.
Qed.

Lemma live_for_each (f : OpExpr OpElement -> World -> outcome World) :
  forall l, Forall (fun x => forall w w', f x w = Ok w' -> live w' = live w) l ->
  forall w w', for_each World f l w = Ok w' -> live w' = live w.
Proof.
  induction l as [|x l IH]; intros Hl w w' H; simpl in H.
  - now injection H as <-.
  - apply bind_Ok in H. destruct H as (w1 & H1 & H2).
    rewrite (IH (Forall_inv_tail Hl) _ _ H2).
    exact (Forall_inv Hl _ _ H1).
Qed.

Lemma live_accumulate side tmp factor : forall ops conjs w w',
  accumulate OpElement Matrix World abs_value is_delayed build deallocate opf_iadd
             seq_is_simple simple_perform side tmp factor ops conjs w
  = Ok w' ->
  live w' = live w.
Proof.
  induction ops as [|[o f] ops IH]; intros conjs w w' H; simpl in H.
  - now injection H as <-.
  - destruct (side (abs_value o)) as [m|]; [|discriminate].
    pose proof (live_force m w) as H1.
    destruct (force Matrix World is_delayed build m w) as [[d m'] w1].
    apply IH in H. rewrite H, live_release.
    destruct (seq_is_simple _); rewrite ?live_perform, live_iadd; lia.
Qed.

(** X23.  Evaluating an expression leaves no temporary behind: when the
    kernels allocate nothing, every matrix that [tensor_product],
    [tensor_product_multiply] or [tensor_product_diagonal] builds from a
    delayed operand or allocates for a partial sum has been deallocated
    when the call returns. *)
Theorem dispatch_frees_temporaries :
  (forall expr lop rop mat w w',
      tensor_product OpElement Matrix Info World abs_value is_delayed build deallocate info_of
                     new_matrix opf_tensor_product opf_iadd seq_is_simple
                     simple_perform expr lop rop mat w = Ok w' ->
      live w' = live w)
  /\ (forall expr lop rop cmat vmat opdq w w',
         tensor_product_multiply OpElement Label Matrix World is_delayed build deallocate
                                 opf_tensor_product_multiply
                                 expr lop rop cmat vmat opdq w = Ok w' ->
         live w' = live w)
  /\ (forall expr lop rop mat opdq w w',
         tensor_product_diagonal OpElement Label Matrix World is_delayed build deallocate
                                 opf_tensor_product_diagonal
                                 expr lop rop mat opdq w = Ok w' ->
         live w' = live w).
Proof.
  split; [|split].
  - intros expr lop rop mat.
    induction expr as [|e|a b cj f|a b ops cjs cj f|l IH]
      using OpExpr_induction; intros w w' H; simpl in H.
    + now injection H as <-.
    + discriminate.
    + eapply live_with_operands; [|exact H]. intros; apply live_product.
    + destruct a as [a|], b as [b|]; try discriminate;
        destruct ops as [|[o0 f0] ops]; try discriminate.
      * destruct (lop a) as [lmat|]; [|discriminate].
        destruct (rop (abs_value o0)) as [r0|]; [|discriminate].
        pose proof (live_new (info_of r0 w) w) as Hn.
        destruct (new_matrix (info_of r0 w) w) as [tmp w1].
        apply bind_Ok in H. destruct H as (w2 & Ha & H).
        apply live_accumulate in Ha.
        pose proof (live_force lmat w2) as Hf.
        destruct (force Matrix World is_delayed build lmat w2) as [[dl lmat'] w3].
        injection H as <-.
        rewrite live_deallocate, live_release, live_product.
        simpl in Hn. lia.
      * destruct (lop (abs_value o0)) as [l0|]; [|discriminate].
        destruct (rop b) as [rmat|]; [|discriminate].
        pose proof (live_new (info_of l0 w) w) as Hn.
        destruct (new_matrix (info_of l0 w) w) as [tmp w1].
        apply bind_Ok in H. destruct H as (w2 & Ha & H).
        apply live_accumulate in Ha.
        pose proof (live_force rmat w2) as Hf.
        destruct (force Matrix World is_delayed build rmat w2) as [[dr rmat'] w3].
        injection H as <-.
        rewrite live_deallocate, live_release, live_product.
        simpl in Hn. lia.
    + eapply live_for_each; [|exact H]. exact IH.
  - intros expr lop rop cmat vmat opdq.
    induction expr as [|e|a b cj f|a b ops cjs cj f|l IH]
      using OpExpr_induction; intros w w' H; simpl in H;
      try discriminate.
    + now injection H as <-.
    + eapply live_with_operands; [|exact H]. intros; apply live_multiply.
    + eapply live_for_each; [|exact H]. exact IH.
  - intros expr lop rop mat opdq.
    induction expr as [|e|a b cj f|a b ops cjs cj f|l IH]
      using OpExpr_induction; intros w w' H; simpl in H;
      try discriminate.
    + now injection H as <-.
    + eapply live_with_operands; [|exact H]. intros; apply live_diagonal.
    + eapply live_for_each; [|exact H]. exact IH.
Qed.
End Balance.

Lemma dispatch_frees_temporaries_witness :
  tensor_product nat bool unit Z (fun e => e) CountingWorld.is_delayed
                 CountingWorld.build CountingWorld.deallocate
                 CountingWorld.info_of CountingWorld.new_matrix
                 CountingWorld.kernel3 CountingWorld.iadd
                 (fun _ => true) (fun w => w)
                 CountingWorld.example CountingWorld.operands
                 CountingWorld.operands false 7
  = Ok 7
  /\ (fun w : Z => w) 7 = (fun w : Z => w) 7.
Proof.
  split; [reflexivity|].
  exact (proj1 (dispatch_frees_temporaries
                  nat unit bool unit Z (fun e => e)
                  CountingWorld.is_delayed CountingWorld.build
                  CountingWorld.deallocate CountingWorld.info_of
                  CountingWorld.new_matrix CountingWorld.kernel3
                  CountingWorld.kernel_multiply CountingWorld.kernel_diagonal
                  CountingWorld.iadd (fun _ => true) (fun w => w)
                  (fun w => w)
                  (fun _ _ => eq_refl) (fun _ _ => eq_refl)
                  (fun _ _ => eq_refl) (fun _ _ _ _ _ _ => eq_refl)
                  (fun _ _ _ _ _ _ _ _ => eq_refl)
                  (fun _ _ _ _ _ _ _ => eq_refl)
                  (fun _ _ _ _ _ => eq_refl) (fun _ => eq_refl))
               CountingWorld.example CountingWorld.operands
               CountingWorld.operands false 7 7 eq_refl).
Defined.
End DispatchBalance.

(** * The order of tensors *)
Module TensorOrderFacts.
Import WickTensor.

Lemma pair_occ_type_sym a b : pair_occ_type a b = pair_occ_type b a.
Proof. unfold pair_occ_type. now rewrite Z.min_comm, Z.max_comm. Qed.

Lemma ltb_unfold a b :
  ltb a b
  = let occ := pair_occ_type a b in
    if negb (fermi_type a occ =? fermi_type b occ)
    then fermi_type a occ <? fermi_type b occ
    else if negb (String.eqb (name a) (name b))
         then String.ltb (name a) (name b)
         else if WickTensorTypes.eqb (type a) (type b)
              then lex_ltb WickIndex.ltb (indices a) (indices b)
              else WickTensorTypes.ltb (type a) (type b).
Proof. reflexivity. Qed.

Lemma string_ltb_asym s1 s2 :
  String.ltb s1 s2 = true -> String.ltb s2 s1 = false.
Proof.
  intros H. destruct (String.ltb s2 s1) eqn:E; auto.
  pose proof (string_ltb_trans _ _ _ H E) as T.
  now rewrite string_ltb_irrefl in T.
Qed.

Lemma tuple_ltb_asym l1 l2 :
  tuple_ltb l1 l2 = true -> tuple_ltb l2 l1 = false.
Proof.
  intros H. destruct (tuple_ltb l2 l1) eqn:E; auto.
  pose proof (tuple_ltb_trans _ _ _ H E) as T.
  now rewrite tuple_ltb_irrefl in T.
Qed.

(** X24.  [WickTensor::operator<] never orders a pair of tensors both
    ways and never puts a tensor below itself; two tensors neither of
    which is below the other are equal for [operator==].  It is not
    transitive: the occupation class that decides which operator comes
    first is chosen per pair, and the creation operators on an
    inactive, an inactive-or-active and an active-or-external index are
    each below the next while the last is below the first. *)
Theorem tensor_order_asymmetric :
  (forall a, ltb a a = false)
  /\ (forall a b, ltb a b = true -> ltb b a = false)
  /\ (forall a b, ltb a b = false -> ltb b a = false -> eqb a b = true)
  /\ (ltb cre_p_I cre_p_IA = true /\ ltb cre_p_IA cre_p_AE = true
      /\ ltb cre_p_AE cre_p_I = true).
Proof.
  split; [|split; [|split; [|now vm_compute]]].
  - intros a. rewrite ltb_unfold. cbv zeta.
    rewrite Z.eqb_refl, String.eqb_refl. cbn [negb].
    unfold WickTensorTypes.eqb. rewrite Z.eqb_refl.
    apply tuple_ltb_irrefl.
  - intros a b. rewrite !ltb_unfold. cbv zeta.
    rewrite (pair_occ_type_sym b a).
    set (occ := pair_occ_type a b).
    rewrite (Z.eqb_sym (fermi_type b occ)), (String.eqb_sym (name b)).
    unfold WickTensorTypes.eqb, WickTensorTypes.ltb.
    rewrite (Z.eqb_sym (WickTensorTypes.to_Z (type b))).
    destruct (Z.eqb_spec (fermi_type a occ) (fermi_type b occ)); cbn [negb].
    + destruct (String.eqb (name a) (name b)); cbn [negb].
      * destruct (Z.eqb_spec (WickTensorTypes.to_Z (type a))
                             (WickTensorTypes.to_Z (type b))).
        -- apply tuple_ltb_asym.
        -- rewrite Z.ltb_lt, Z.ltb_ge. lia.
      * apply string_ltb_asym.
    + rewrite Z.ltb_lt, Z.ltb_ge. lia.
  - intros a b. rewrite !ltb_unfold. cbv zeta.
    rewrite (pair_occ_type_sym b a).
    set (occ := pair_occ_type a b).
    rewrite (Z.eqb_sym (fermi_type b occ)), (String.eqb_sym (name b)).
    unfold eqb, WickTensorTypes.eqb, WickTensorTypes.ltb.
    rewrite (Z.eqb_sym (WickTensorTypes.to_Z (type b))).
    destruct (Z.eqb_spec (fermi_type a occ) (fermi_type b occ)); cbn [negb].
    + destruct (String.eqb_spec (name a) (name b)) as [En|En]; cbn [negb].
      * destruct (Z.eqb_spec (WickTensorTypes.to_Z (type a))
                             (WickTensorTypes.to_Z (type b))).
        -- intros H1 H2. cbn [andb].
           apply (proj2 (list_eqb_eq _ IndexOrder.index_eqb_eq _ _)).
           now apply (lex_ltb_total _ IndexOrder.ltb_total).
        -- rewrite !Z.ltb_ge. lia.
      * intros H1 H2. exfalso. apply En. now apply string_ltb_total.
    + rewrite !Z.ltb_ge. lia.
Qed.
End TensorOrderFacts.

(** * Sums in delayed dispatch *)
Module DispatchSumFacts.
Import DelayedTensorFunctions.

Section Sums.
Variables OpElement Label Matrix Info World : Type.
Variable abs_value : OpElement -> OpElement.
Variable is_delayed : Matrix -> World -> bool.
Variable build : Matrix -> World -> Matrix * World.
Variable deallocate : Matrix -> World -> World.
Variable info_of : Matrix -> World -> Info.
Variable new_matrix : Info -> World -> Matrix * World.
Variable opf_tensor_product :
  Z -> Matrix -> Matrix -> Matrix -> float -> World -> World.
Variable opf_tensor_product_multiply :
  Z -> Matrix -> Matrix -> Matrix -> Matrix -> Label -> float ->
  World -> World.
Variable opf_tensor_product_diagonal :
  Z -> Matrix -> Matrix -> Matrix -> Label -> float -> World -> World.
Variable opf_iadd : Matrix -> Matrix -> float -> bool -> World -> World.
Variable seq_is_simple : World -> bool.
Variable simple_perform : World -> World.

Lemma for_each_app {A} (f : A -> World -> outcome World) : forall l1 l2 w,
  for_each World f (l1 ++ l2) w
  = bind (for_each World f l1 w) (for_each World f l2).
Proof.
  induction l1 as [|x l1 IH]; intros l2 w; simpl; auto.
  destruct (f x w); simpl; auto.
Qed.

Lemma for_each_one {A} (f : A -> World -> outcome World) x w :
  for_each World f [x] w = f x w.
Proof. simpl. now destruct (f x w). Qed.

(** X25.  A [Sum] node is evaluated term by term from left to right on
    the same output, stopping at the first term that fails: the sum of
    two lists is the sum of the first followed by the sum of the second,
    a sum of one term is that term, a sum nested in a sum is evaluated
    in place. *)
Theorem sum_nodes_compose (l1 l2 : list (OpExpr OpElement))
        (e : OpExpr OpElement) (lop rop : op_map OpElement Matrix)
        (mat cmat vmat : Matrix) (opdq : Label) (w : World) :
  let tp := tensor_product OpElement Matrix Info World abs_value is_delayed
              build deallocate info_of new_matrix opf_tensor_product
              opf_iadd seq_is_simple simple_perform in
  let tpm := tensor_product_multiply OpElement Label Matrix World is_delayed
               build deallocate opf_tensor_product_multiply in
  let tpd := tensor_product_diagonal OpElement Label Matrix World is_delayed
               build deallocate opf_tensor_product_diagonal in
  (tp (Sum _ (l1 ++ l2)) lop rop mat w
   = bind (tp (Sum _ l1) lop rop mat w) (tp (Sum _ l2) lop rop mat)
   /\ tp (Sum _ [e]) lop rop mat w = tp e lop rop mat w
   /\ tp (Sum _ (Sum _ l1 :: l2)) lop rop mat w
      = tp (Sum _ (l1 ++ l2)) lop rop mat w)
  /\ (tpm (Sum _ (l1 ++ l2)) lop rop cmat vmat opdq w
      = bind (tpm (Sum _ l1) lop rop cmat vmat opdq w)
             (tpm (Sum _ l2) lop rop cmat vmat opdq)
      /\ tpm (Sum _ [e]) lop rop cmat vmat opdq w
         = tpm e lop rop cmat vmat opdq w)
  /\ (tpd (Sum _ (l1 ++ l2)) lop rop mat opdq w
      = bind (tpd (Sum _ l1) lop rop mat opdq w)
             (tpd (Sum _ l2) lop rop mat opdq)
      /\ tpd (Sum _ [e]) lop rop mat opdq w = tpd e lop rop mat opdq w).
Proof.
  cbv zeta. split; [split; [|split]|split; split].
  - cbn [tensor_product]. now rewrite for_each_app.
  - cbn [tensor_product]. now rewrite for_each_one.
  - cbn [tensor_product]. rewrite for_each_app. reflexivity.
  - cbn [tensor_product_multiply]. now rewrite for_each_app.
  - cbn [tensor_product_multiply]. now rewrite for_each_one.
  - cbn [tensor_product_diagonal]. now rewrite for_each_app.
  - cbn [tensor_product_diagonal]. now rewrite for_each_one.
Qed.
End Sums.
End DispatchSumFacts.

(** * [WickExpr::simplify_merge] sums the groups *)
Module MergeSumFacts.
Import WickExpr.

Lemma abs_equal_to_keys a b :
  WickString.abs_equal_to a b = true
  <-> map tensor_key (WickString.tensors a)
      = map tensor_key (WickString.tensors b)
      /\ WickString.ctr_indices a = WickString.ctr_indices b.
Proof.
  unfold WickString.abs_equal_to, IndexSet.eqb.
  rewrite !andb_true_iff, !Nat.eqb_eq, StringFacts.list_eqb_key,
    (list_eqb_eq _ IndexOrder.index_eqb_eq).
  split.
  - intros [[[_ _] E1] E2]. now split.
  - intros [E1 E2]. repeat split; auto.
    + rewrite <- (length_map tensor_key (WickString.tensors a)), E1.
      apply length_map.
    + now rewrite E2.
Qed.

Lemma abs_equal_to_refl a : WickString.abs_equal_to a a = true.
Proof. now apply abs_equal_to_keys. Qed.

Lemma abs_equal_to_sym a b :
  WickString.abs_equal_to a b = true -> WickString.abs_equal_to b a = true.
Proof. rewrite !abs_equal_to_keys. intros [-> ->]. now split. Qed.

Lemma abs_equal_to_trans a b c :
  WickString.abs_equal_to a b = true -> WickString.abs_equal_to b c = true ->
  WickString.abs_equal_to a c = true.
Proof. rewrite !abs_equal_to_keys. intros [-> ->] [-> ->]. now split. Qed.

Lemma opens_group_spec sorted i :
  opens_group sorted i = true
  <-> forall j, (j < i)%nat ->
        WickString.abs_equal_to (term_at sorted i) (term_at sorted j) = false.
Proof.
  unfold opens_group. rewrite forallb_forall. split.
  - intros H j Hj. apply negb_true_iff, H, in_seq. lia.
  - intros H j Hj. apply negb_true_iff, H. apply in_seq in Hj. lia.
Qed.

Lemma not_opens sorted i :
  opens_group sorted i = false ->
  exists j, (j < i)%nat
    /\ WickString.abs_equal_to (term_at sorted i) (term_at sorted j) = true.
Proof.
  unfold opens_group. intros H.
  assert (G : forall l,
             forallb (fun j => negb (WickString.abs_equal_to
                                       (term_at sorted i) (term_at sorted j)))
                     l = false ->
             exists j, In j l
               /\ WickString.abs_equal_to (term_at sorted i)
                                          (term_at sorted j) = true).
  { induction l as [|x l IH]; simpl; [discriminate|].
    destruct (WickString.abs_equal_to (term_at sorted i) (term_at sorted x))
      eqn:E; simpl.
    - intros _. exists x. auto.
    - intros F. destruct (IH F) as (j & Hj & Ej). exists j. auto. }
  destruct (G _ H) as (j & Hj & Ej). exists j. split; auto.
  apply in_seq in Hj. lia.
Qed.

(** A term with the canonical form of an earlier term has the canonical
    form of a term that opens a group. *)
Lemma first_match sorted k : forall j,
  (j < k)%nat ->
  WickString.abs_equal_to (term_at sorted k) (term_at sorted j) = true ->
  exists r, (r < k)%nat /\ opens_group sorted r = true
    /\ WickString.abs_equal_to (term_at sorted k) (term_at sorted r) = true.
Proof.
  induction j as [j IH] using lt_wf_ind. intros Hj E.
  destruct (opens_group sorted j) eqn:O.
  - exists j. auto.
  - destruct (not_opens _ _ O) as (j' & Hj' & E').
    apply (IH j'); [assumption|lia|].
    eapply abs_equal_to_trans; eassumption.
Qed.

(** Two terms that open a group and have equal canonical forms are the
    same term. *)
Lemma openers_apart sorted i i' :
  opens_group sorted i = true -> opens_group sorted i' = true ->
  WickString.abs_equal_to (term_at sorted i) (term_at sorted i') = true ->
  i = i'.
Proof.
  intros O O' E.
  destruct (Nat.lt_trichotomy i i') as [H|[H|H]]; auto; exfalso.
  - apply abs_equal_to_sym in E.
    rewrite (proj1 (opens_group_spec _ _) O' _ H) in E. discriminate.
  - rewrite (proj1 (opens_group_spec _ _) O _ H) in E. discriminate.
Qed.

(** The search of a bucket, on buckets of which at most one has the
    canonical form looked for. *)
Lemma add_to_bucket_spec sorted si fi (g : nat -> float) : forall L,
  NoDup L ->
  (forall i i', In i L -> In i' L ->
     WickString.abs_equal_to si (term_at sorted i) = true ->
     WickString.abs_equal_to si (term_at sorted i') = true -> i = i') ->
  add_to_bucket sorted si fi (map (fun i => (i, g i)) L)
  = if existsb (fun i => WickString.abs_equal_to si (term_at sorted i)) L
    then Some (map (fun i =>
                      (i, if WickString.abs_equal_to si (term_at sorted i)
                          then PrimFloat.add (g i)
                                 (PrimFloat.mul
                                    (PrimFloat.mul fi (WickString.factor si))
                                    (WickString.factor (term_at sorted i)))
                          else g i)) L)
    else None.
Proof.
  induction L as [|i0 L IH]; intros ND U; [reflexivity|].
  cbn [map add_to_bucket existsb]. fold (term_at sorted i0).
  destruct (WickString.abs_equal_to si (term_at sorted i0)) eqn:E0;
    cbn [orb].
  - f_equal. f_equal. apply map_ext_in. intros i Hi.
    destruct (WickString.abs_equal_to si (term_at sorted i)) eqn:Ei; auto.
    exfalso. apply NoDup_cons_iff in ND. apply (proj1 ND).
    rewrite (U i0 i); simpl; auto.
  - rewrite IH.
    + destruct (existsb _ L); reflexivity.
    + now apply NoDup_cons_iff in ND.
    + intros i i' Hi Hi'. apply U; simpl; auto.
Qed.

Lemma factor_upto_self e sorted k :
  factor_upto e sorted k (S k) = WickString.factor (term_at e k).
Proof. unfold factor_upto. now rewrite Nat.sub_diag. Qed.

Lemma factor_upto_next e sorted i k :
  (i < k)%nat ->
  factor_upto e sorted i (S k)
  = add_term e sorted i (factor_upto e sorted i k) k.
Proof.
  intros H. unfold factor_upto.
  replace (S k - S i)%nat with (S (k - S i)) by lia.
  rewrite seq_S, fold_left_app. simpl.
  now replace (S (i + (k - S i))) with k by lia.
Qed.

(** The buckets after the first [k] terms: one for each term that opens
    a group, in the order of the terms, with the factor summed so
    far. *)
Lemma merge_fold_buckets e sorted : forall k,
  fold_left (merge_step e sorted) (seq 0 k) []
  = map (fun i => (i, factor_upto e sorted i k))
        (filter (opens_group sorted) (seq 0 k)).
Proof.
  induction k as [|k IH]; [reflexivity|].
  rewrite seq_S, fold_left_app, IH, filter_app, map_app. cbn [fold_left].
  cbn [Nat.add filter].
  set (L := filter (opens_group sorted) (seq 0 k)).
  assert (HL : forall i, In i L ->
                         (i < k)%nat /\ opens_group sorted i = true).
  { intros i Hi. apply filter_In in Hi. destruct Hi as [Hi O].
    apply in_seq in Hi. split; [lia|exact O]. }
  unfold merge_step. fold (term_at e k). fold (term_at sorted k).
  rewrite add_to_bucket_spec.
  - destruct (existsb _ L) eqn:Ex.
    + apply existsb_exists in Ex. destruct Ex as (i & Hi & Ei).
      assert (O : opens_group sorted k = false).
      { destruct (opens_group sorted k) eqn:O; auto.
        rewrite (proj1 (opens_group_spec _ _) O i) in Ei;
          [discriminate|apply HL, Hi]. }
      rewrite O. cbn [map]. rewrite app_nil_r.
      apply map_ext_in. intros x Hx.
      rewrite factor_upto_next by apply HL, Hx. reflexivity.
    + assert (O : opens_group sorted k = true).
      { apply opens_group_spec. intros j Hj.
        destruct (WickString.abs_equal_to (term_at sorted k)
                                          (term_at sorted j)) eqn:E; auto.
        destruct (first_match _ _ _ Hj E) as (r & Hr & Or & Er).
        assert (Hin : In r L).
        { apply filter_In. split; [apply in_seq; lia|exact Or]. }
        assert (T : existsb (fun i => WickString.abs_equal_to
                                        (term_at sorted k) (term_at sorted i))
                            L = true).
        { apply existsb_exists. exists r. auto. }
        congruence. }
      rewrite O. cbn [map]. rewrite factor_upto_self. f_equal.
      apply map_ext_in. intros x Hx.
      rewrite factor_upto_next by apply HL, Hx.
      unfold add_term.
      assert (F : WickString.abs_equal_to (term_at sorted k)
                                          (term_at sorted x) = false).
      { destruct (WickString.abs_equal_to (term_at sorted k)
                                          (term_at sorted x)) eqn:E; auto.
        assert (T : existsb (fun i => WickString.abs_equal_to
                                        (term_at sorted k) (term_at sorted i))
                            L = true).
        { apply existsb_exists. exists x. auto. }
        congruence. }
      now rewrite F.
  - apply NoDup_filter, seq_NoDup.
  - intros i i' Hi Hi' E E'.
    apply (openers_apart sorted); [apply HL, Hi|apply HL, Hi'|].
    eapply abs_equal_to_trans; [apply abs_equal_to_sym; exact E|exact E'].
Qed.

Lemma filter_map_swap {A B} (f : B -> bool) (g : A -> B) : forall l,
  filter f (map g l) = map g (filter (fun x => f (g x)) l).
Proof.
  induction l as [|x l IH]; simpl; auto.
  destruct (f (g x)); simpl; now rewrite IH.
Qed.

Lemma filter_filter {A} (f g : A -> bool) : forall l,
  filter f (filter g l) = filter (fun x => g x && f x) l.
Proof.
  induction l as [|x l IH]; simpl; auto.
  destruct (g x); simpl; [destruct (f x)|]; now rewrite IH.
Qed.

(** The result before the final sort. *)
Lemma simplify_merge_groups quick_sort e :
  Permutation (simplify_merge quick_sort e)
    (map (merged_term e (canonical quick_sort e))
         (filter (kept_group e (canonical quick_sort e))
                 (seq 0 (List.length e)))).
Proof.
  unfold simplify_merge. rewrite sort_by_Permutation.
  fold (canonical quick_sort e). rewrite merge_fold_buckets, map_map.
  unfold simplify_zero. rewrite filter_map_swap, filter_filter.
  apply Permutation_refl'.
  rewrite (filter_ext _ (kept_group e (canonical quick_sort e)));
    [reflexivity|].
  intros i. unfold kept_group, keeps, set_factor.
  cbn [WickString.factor WickString.tensors fst snd].
  fold (term_at e i). fold (group_factor e (canonical quick_sort e) i).
  now rewrite andb_assoc.
Qed.

Lemma canonical_at quick_sort e i :
  (i < List.length e)%nat ->
  term_at (canonical quick_sort e) i
  = quick_sort (WickString.abs (term_at e i)).
Proof.
  intros H. unfold term_at, canonical.
  rewrite (nth_indep _ _ (quick_sort (WickString.abs
                                        (WickString.mk [] [] 0%float))))
    by (rewrite length_map; exact H).
  apply (map_nth (fun x => quick_sort (WickString.abs x))).
Qed.

(** C5.  Whatever canonical form [quick_sort] computes,
    [simplify_merge] returns, in some order, one term for each group of
    terms with equal canonical forms whose accumulated factor is above
    [1E-12] in magnitude and whose first term has a tensor: the first
    term of the group with the accumulated factor, which is the sum,
    in the order of the terms, of the factors of the group scaled by
    the signs of the canonical forms.  So every term of
    [simplify_merge e], and of [simplify e], has at least one tensor
    and a factor of magnitude above [1E-12]; and no term of the result
    has the tensors and the summed indices of a group whose accumulated
    factor is within [1E-12] of zero or that has no tensors. *)
Theorem simplify_merge_sums_groups
        (quick_sort : WickString.t -> WickString.t) (e : WickExpr.t) :
  Permutation (simplify_merge quick_sort e)
    (map (merged_term e (canonical quick_sort e))
         (filter (kept_group e (canonical quick_sort e))
                 (seq 0 (List.length e))))
  /\ (forall rr,
        In rr (simplify_merge quick_sort e) \/ In rr (simplify quick_sort e) ->
        (1 <= List.length (WickString.tensors rr))%nat
        /\ PrimFloat.ltb epsilon (PrimFloat.abs (WickString.factor rr))
           = true)
  /\ (forall i rr,
        (i < List.length e)%nat ->
        opens_group (canonical quick_sort e) i = true ->
        PrimFloat.ltb epsilon
          (PrimFloat.abs (group_factor e (canonical quick_sort e) i)) = false
        \/ WickString.tensors (term_at e i) = [] ->
        In rr (simplify_merge quick_sort e) ->
        ~ (WickString.tensors rr = WickString.tensors (term_at e i)
           /\ WickString.ctr_indices rr
              = WickString.ctr_indices (term_at e i))).
Proof.
  split; [apply simplify_merge_groups|split].
  - intros rr [H|H]; apply MergeFacts.keeps_spec;
      eapply MergeFacts.simplify_merge_kept; exact H.
  - intros i rr Hi O Hdrop Hin [Et Ec].
    apply (Permutation_in _ (simplify_merge_groups quick_sort e)) in Hin.
    apply in_map_iff in Hin. destruct Hin as (i' & <- & Hi').
    apply filter_In in Hi'. destruct Hi' as [Hi' K].
    apply in_seq in Hi'. cbn [merged_term WickString.tensors
                                WickString.ctr_indices] in Et, Ec.
    assert (E : i' = i).
    { unfold kept_group in K. rewrite !andb_true_iff in K.
      apply (openers_apart (canonical quick_sort e)); [tauto|exact O|].
      rewrite !canonical_at by lia.
      replace (WickString.abs (term_at e i')) with
        (WickString.abs (term_at e i))
        by (unfold WickString.abs; now rewrite Et, Ec).
      apply abs_equal_to_refl. }
    subst i'. unfold kept_group in K. rewrite !andb_true_iff in K.
    destruct K as [[_ K1] K2]. destruct Hdrop as [D|D].
    + congruence.
    + rewrite D in K2. discriminate.
Qed.

Lemma simplify_merge_sums_groups_witness :
  simplify_merge (fun x => x) merge_input
  = [WickString.mk (WickString.tensors term_u_ik)
                   (WickString.ctr_indices term_u_ik) 7%float]
  /\ Permutation (simplify_merge (fun x => x) merge_input)
       [WickString.mk (WickString.tensors term_u_ik)
                      (WickString.ctr_indices term_u_ik) 7%float].
Proof.
  split; [vm_compute; reflexivity|].
  exact (proj1 (simplify_merge_sums_groups (fun x => x) merge_input)).
Defined.
End MergeSumFacts.
